(** * A shallow embedding of parts of the neo-go node

    The development follows the Go sources: the oracle response
    aggregator ([pkg/services/oracle]), the consensus service's payload
    relay, the multi-signature redeem script builder, the native-contract
    call interop and, for the parts of the node that are only exercised by
    the test-suite, models written from the specification.  The later
    modules cover the request queue and the ticker of the oracle service,
    the persist hooks of the natives, the order of the keys in the redeem
    scripts, the callbacks of the consensus service and its block
    witnesses, the parameters of RPC requests and the application logs. *)

From Stdlib Require Import ZArith List Lia Bool.
From Stdlib.Strings Require Import Byte.
From Stdlib.Sorting Require Import Sorted Permutation.
From stdpp Require Import base gmap strings list.

Local Open Scope Z_scope.

(** Byte strings ([[]byte] in Go). *)
Abbreviation bytes := (list Byte.byte).

(** ** Machine integers *)

(** [uint32] arithmetic: Go wraps around silently. *)
Definition uint32_mod : Z := 2 ^ 32.
Definition add32 (a b : Z) : Z := (a + b) mod uint32_mod.

(** [int64(x)] for an [uint64] value [x]. *)
Definition int64_of_uint64 (x : Z) : Z :=
  if x <? 2 ^ 63 then x else x - 2 ^ 64.

(** [int] arithmetic on a 64-bit platform wraps around as well. *)
Definition wrap_int (z : Z) : Z := int64_of_uint64 (z mod 2 ^ 64).

(** The low byte of an integer. *)
Definition byteOf (z : Z) : Byte.byte :=
  match Byte.of_N (Z.to_N (z mod 256)) with
  | Some b => b
  | None => x00
  end.

(** ** Byte strings in order *)

(** [bytes.Compare]: byte strings are compared as sequences of unsigned
    bytes, a proper prefix being smaller. *)
Definition byteCmp (x y : Byte.byte) : comparison :=
  N.compare (Byte.to_N x) (Byte.to_N y).
Definition bytesCompare (a b : bytes) : comparison :=
  list_compare byteCmp a b.

(** [bytes.Compare(a, b) == -1] *)
Definition bytesLess (a b : bytes) : bool :=
  match bytesCompare a b with
  | Lt => true
  | _ => false
  end.

(** * The oracle service: [pkg/services/oracle] *)
Module Oracle.

(** Response codes of [transaction.OracleResponse] named by the service. *)
Inductive OracleResponseCode :=
| Success
| ProtocolNotSupported
| ConsensusUnreachable
| NotFound
| Timeout
| Forbidden
| ResponseTooLarge
| ContentTypeNotSupported
| Error.

(** [state.OracleRequest], the fields the service reads. *)
Record OracleRequest := {
  OriginalTxID : Z;
  GasForResponse : Z;
  URL : string;
  Filter : option string
}.

(** [type request struct { ID uint64; Req *state.OracleRequest }] *)
Record request := {
  ID : Z;
  Req : option OracleRequest
}.

Record OracleResponse := {
  respID : Z;
  Code : OracleResponseCode;
  Result : bytes
}.

(** The response transaction, as far as the service looks at it. *)
Record Transaction := {
  ValidUntilBlock : Z;
  SystemFee : Z;
  Attribute : OracleResponse;
  Witness : bytes
}.

Record txSignature := {
  sig : bytes;
  ok : bool
}.

(** [incompleteTx]: the per-request entry of the [responses] table. *)
Record incompleteTx := {
  isSent : bool;
  attempts : Z;
  time : Z;
  itRequest : option OracleRequest;
  tx : option Transaction;
  backupTx : option Transaction;
  sigs : gmap string txSignature;
  backupSigs : gmap string txSignature
}.

Definition newIncompleteTx : incompleteTx :=
  {| isSent := false; attempts := 0; time := 0; itRequest := None;
     tx := None; backupTx := None; sigs := ∅; backupSigs := ∅ |}.

(** [url.URL], the part of it the service switches on. *)
Record URLT := {
  Scheme : string;
  Opaque : string
}.

(** [*http.Response]: status, the Content-Type header and the body. *)
Record Response (Body : Type) := {
  StatusCode : Z;
  ContentType : string;
  RBody : Body
}.
Arguments StatusCode {Body} _.
Arguments ContentType {Body} _.
Arguments RBody {Body} _.

(** What [o.Client.Do] returns: an error (restricted redirect or not) or
    a response. *)
Inductive DoResult (Body : Type) :=
| DoErr (restricted : bool)
| DoOk (r : Response Body).
Arguments DoErr {Body} _.
Arguments DoOk {Body} _.

(** What [readResponse] returns. *)
Inductive ReadResult :=
| ReadOk (b : bytes)
| ReadTooLarge
| ReadErr.

(** What [o.Chain.GetTransaction] returns: the height of a stored
    transaction, [storage.ErrKeyNotFound], or another error. *)
Inductive TxLookup :=
| TxFound (h : Z)
| TxKeyNotFound
| TxOtherError.

(** Oracle configuration and state ([Oracle] and [Config] structs). *)
Record OracleT := {
  Network : Z;
  AllowedContentTypes : list string;
  NeoFSNodes : list string;
  oracleNodes : list bytes;
  responses : gmap Z incompleteTx;
  removed : gmap Z bool
}.

(** The collaborators of one call: the [Ledger], the HTTP client, the
    NeoFS client and the clock. *)
Record Env (Body : Type) := {
  BlockHeight : Z;
  MaxValidUntilBlockIncrement : Z;
  GetTransaction : Z -> TxLookup;
  NewRequestOk : string -> bool;
  ClientDo : string -> DoResult Body;
  NeoFSGet : URLT -> string -> option bytes;
  Now : Z
}.
Arguments BlockHeight {Body} _.
Arguments MaxValidUntilBlockIncrement {Body} _.
Arguments GetTransaction {Body} _.
Arguments NewRequestOk {Body} _.
Arguments ClientDo {Body} _.
Arguments NeoFSGet {Body} _.
Arguments Now {Body} _.

(** Effects of a call that leave the service. *)
Inductive Event :=
| EvBroadcast (resp : OracleResponse) (txSig : bytes)
| EvPool (t : option Transaction).

(** Errors [processRequest] returns. *)
Inductive ProcError :=
| ErrGetTransaction
| ErrCreateResponseTx.

(** How a call ends: it returns (with the new state, its effects and the
    returned error), panics, or is still in the backup-height loop when
    the fuel runs out. *)
Inductive Outcome :=
| Done (o : OracleT) (evs : list Event) (err : option ProcError)
| Panicked
| OutOfFuel.

Definition http_StatusOK : Z := 200.
Definition http_StatusForbidden : Z := 403.
Definition http_StatusNotFound : Z := 404.
Definition http_StatusRequestTimeout : Z := 408.

(** [neofs.URIScheme] *)
Definition neofs_URIScheme : string := "neofs".

(** Go's [%] on [int]: the remainder truncates towards zero; a zero
    divisor panics. *)
Definition go_rem (a b : Z) : option Z :=
  if b =? 0 then None else Some (Z.rem a b).

(** [int(x)] for an [uint64] value on a 64-bit platform. *)
Definition int_of_uint64 (x : Z) : Z := int64_of_uint64 x.

(** [checkMediaType]: the loop over the allowed types. *)
Fixpoint allowedHas (allowed : list string) (typ : string) : bool :=
  match allowed with
  | [] => false
  | ct :: rest => if String.eqb ct typ then true else allowedHas rest typ
  end.

Section Service.

(** The HTTP body stream. *)
Variable Body : Type.

(** Library functions, and helpers of the package that are not among
    the sources; the service is parametric in them. *)
Variable ParseRequestURI : string -> option URLT.
Variable ParseMediaType : string -> option (string * list (string * string)).
Variable readResponse : Body -> Z -> ReadResult.
Variable MaxOracleResultSize : Z.
Variable filterRequest : bytes -> OracleRequest -> option bytes.
Variable CreateResponseTx : Z -> Z -> OracleResponse -> option Transaction.
Variable SignHashable : bytes -> Z -> Transaction -> bytes.
Variable PublicKey : bytes -> bytes.
Variable addResponse : incompleteTx -> bytes -> bytes -> bool -> incompleteTx.
Variable reverifyTx : incompleteTx -> Z -> incompleteTx.
Variable finalize :
  incompleteTx -> list bytes -> bool -> incompleteTx * option Transaction * bool.

(** [string(pub.Bytes())]: the key of the signature tables. *)
Definition keyOf (pub : bytes) : string := String.string_of_list_byte pub.

(** [checkMediaType] *)
Definition checkMediaType (hdr : string) (allowed : list string) : bool :=
  if (Z.of_nat (length allowed) =? 0) then true
  else
    match ParseMediaType hdr with
    | None => false
    | Some (typ, _) => allowedHas allowed typ
    end.

(** Modelled from the spec: [getResponse] is not among the sources.  The
    incomplete-tx table is keyed by request id; a missing entry is
    created on demand unless the request was dropped as expired. *)
Definition getResponse (o : OracleT) (reqID : Z) (create : bool)
  : OracleT * option incompleteTx :=
  match responses o !! reqID with
  | Some incTx => (o, Some incTx)
  | None =>
      if create && negb (default false (removed o !! reqID)) then
        ({| Network := Network o;
            AllowedContentTypes := AllowedContentTypes o;
            NeoFSNodes := NeoFSNodes o;
            oracleNodes := oracleNodes o;
            responses := <[reqID := newIncompleteTx]> (responses o);
            removed := removed o |}, Some newIncompleteTx)
      else (o, None)
  end.

(** The entry behind the pointer [incTx] is written back to the table. *)
Definition storeResponse (o : OracleT) (reqID : Z) (incTx : incompleteTx) : OracleT :=
  {| Network := Network o;
     AllowedContentTypes := AllowedContentTypes o;
     NeoFSNodes := NeoFSNodes o;
     oracleNodes := oracleNodes o;
     responses := <[reqID := incTx]> (responses o);
     removed := removed o |}.

(** Modelled from the spec: [getFailedResponse] is not among the sources;
    the backup response carries the [ConsensusUnreachable] code. *)
Definition getFailedResponse (id : Z) : OracleResponse :=
  {| respID := id; Code := ConsensusUnreachable; Result := [] |}.

(** [processRequest], lines 141-166: the switch on the HTTP status. *)
Definition statusResponse (o : OracleT) (r : Response Body)
  : OracleResponseCode * bytes :=
  if StatusCode r =? http_StatusOK then
    if negb (checkMediaType (ContentType r) (AllowedContentTypes o)) then
      (ContentTypeNotSupported, [])
    else
      match readResponse (RBody r) MaxOracleResultSize with
      | ReadOk b => (Success, b)
      | ReadTooLarge => (ResponseTooLarge, [])
      | ReadErr => (Error, [])
      end
  else if StatusCode r =? http_StatusForbidden then (Forbidden, [])
  else if StatusCode r =? http_StatusNotFound then (NotFound, [])
  else if StatusCode r =? http_StatusRequestTimeout then (Timeout, [])
  else (Error, []).

(** [processRequest], lines 115-180: the code and the raw result of the
    fetch; [None] is the panic of the NeoFS node index when no node is
    configured or the index is negative. *)
Definition fetchResponse (env : Env Body) (o : OracleT) (incTx : incompleteTx)
    (id : Z) (r : OracleRequest) : option (OracleResponseCode * bytes) :=
  match ParseRequestURI (URL r) with
  | None => Some (ProtocolNotSupported, [])
  | Some u =>
      if String.eqb (Scheme u) "https" then
        if negb (NewRequestOk env (URL r)) then Some (Error, [])
        else
          match ClientDo env (URL r) with
          | DoErr restricted =>
              if restricted then Some (Forbidden, []) else Some (Error, [])
          | DoOk resp => Some (statusResponse o resp)
          end
      else if String.eqb (Scheme u) neofs_URIScheme then
        match go_rem (wrap_int (int_of_uint64 id + attempts incTx))
                     (Z.of_nat (length (NeoFSNodes o))) with
        | None => None
        | Some index =>
            if index <? 0 then None
            else
              match nth_error (NeoFSNodes o) (Z.to_nat index) with
              | None => None
              | Some node =>
                  match NeoFSGet env u node with
                  | Some b => Some (Success, b)
                  | None => Some (Error, [])
                  end
              end
        end
      else Some (ProtocolNotSupported, [])
  end.

(** [processRequest], lines 181-187: the filter runs on a success only. *)
Definition applyFilter (cr : OracleResponseCode * bytes) (r : OracleRequest)
  : OracleResponseCode * bytes :=
  match fst cr with
  | Success =>
      match filterRequest (snd cr) r with
      | Some b => (Success, b)
      | None => (Error, [])
      end
  | c => (c, snd cr)
  end.

(** [for h <= currentHeight { h += vubInc }] *)
Fixpoint backupHeight (fuel : nat) (h currentHeight vubInc : Z) : option Z :=
  if h <=? currentHeight then
    match fuel with
    | O => None
    | S fuel' => backupHeight fuel' (add32 h vubInc) currentHeight vubInc
    end
  else Some h.

(** [processRequest], lines 190-200: the height the main transaction is
    valid until; [None] when [GetTransaction] fails otherwise. *)
Definition primaryHeight (env : Env Body) (r : OracleRequest) : option Z :=
  match GetTransaction env (OriginalTxID r) with
  | TxOtherError => None
  | TxFound h => Some (add32 h (MaxValidUntilBlockIncrement env))
  | TxKeyNotFound =>
      Some (add32 (BlockHeight env) (MaxValidUntilBlockIncrement env))
  end.

(** The latch: [if ready { ready = !incTx.isSent; incTx.isSent = true }],
    followed by the update of [time] and [attempts]. *)
Definition latch (env : Env Body) (incTx : incompleteTx) (ready : bool)
  : incompleteTx * bool :=
  ({| isSent := if ready then true else isSent incTx;
      attempts := wrap_int (attempts incTx + 1);
      time := Now env;
      itRequest := itRequest incTx;
      tx := tx incTx;
      backupTx := backupTx incTx;
      sigs := sigs incTx;
      backupSigs := backupSigs incTx |},
   if ready then negb (isSent incTx) else false).

(** [processFailedRequest] *)
Definition processFailedRequest (env : Env Body) (priv : bytes) (req : request)
    (o : OracleT) : OracleT * list Event :=
  match getResponse o (ID req) false with
  | (o1, None) => (o1, [])
  | (o1, Some incTx) =>
      if isSent incTx then (o1, [EvPool (tx incTx)])
      else
        let '(incTx1, readyTx, ready0) := finalize incTx (oracleNodes o1) true in
        let '(incTx2, ready) := latch env incTx1 ready0 in
        let txSig :=
          match backupSigs incTx2 !! keyOf (PublicKey priv) with
          | Some s => sig s
          | None => []
          end in
        (storeResponse o1 (ID req) incTx2,
         EvBroadcast (getFailedResponse (ID req)) txSig ::
         (if ready then [EvPool readyTx] else []))
  end.

(** [processRequest], lines 216-241: the entry is updated under its lock,
    then the response is broadcast and a ready transaction is pooled. *)
Definition commitResponse (env : Env Body) (priv : bytes) (o : OracleT)
    (id : Z) (r : OracleRequest) (incTx : incompleteTx)
    (resp : OracleResponse) (t backup : Transaction) : OracleT * list Event :=
  let incTx1 :=
    {| isSent := isSent incTx; attempts := attempts incTx; time := time incTx;
       itRequest := Some r; tx := Some t; backupTx := Some backup;
       sigs := sigs incTx; backupSigs := backupSigs incTx |} in
  let incTx2 := reverifyTx incTx1 (Network o) in
  let txSig := SignHashable priv (Network o mod uint32_mod) t in
  let incTx3 := addResponse incTx2 (PublicKey priv) txSig false in
  let backupSig := SignHashable priv (Network o mod uint32_mod) backup in
  let incTx4 := addResponse incTx3 (PublicKey priv) backupSig true in
  let '(incTx5, readyTx, ready0) := finalize incTx4 (oracleNodes o) false in
  let '(incTx6, ready) := latch env incTx5 ready0 in
  (storeResponse o id incTx6,
   EvBroadcast resp txSig :: (if ready then [EvPool readyTx] else [])).

(** [processRequest] *)
Definition processRequest (fuel : nat) (env : Env Body) (priv : bytes)
    (req : request) (o : OracleT) : Outcome :=
  match Req req with
  | None =>
      let '(o1, evs) := processFailedRequest env priv req o in
      Done o1 evs None
  | Some r =>
      match getResponse o (ID req) true with
      | (o1, None) => Done o1 [] None
      | (o1, Some incTx) =>
          match fetchResponse env o1 incTx (ID req) r with
          | None => Panicked
          | Some cr =>
              let cr' := applyFilter cr r in
              let resp := {| respID := ID req; Code := fst cr'; Result := snd cr' |} in
              let currentHeight := BlockHeight env in
              let vubInc := MaxValidUntilBlockIncrement env in
              match primaryHeight env r with
              | None => Done o1 [] (Some ErrGetTransaction)
              | Some h =>
                  match CreateResponseTx (int64_of_uint64 (GasForResponse r)) h resp with
                  | None => Done o1 [] (Some ErrCreateResponseTx)
                  | Some t =>
                      match backupHeight fuel h currentHeight vubInc with
                      | None => OutOfFuel
                      | Some hb =>
                          match CreateResponseTx (int64_of_uint64 (GasForResponse r)) hb
                                  {| respID := ID req; Code := ConsensusUnreachable;
                                     Result := [] |} with
                          | None => Done o1 [] (Some ErrCreateResponseTx)
                          | Some backup =>
                              let '(o2, evs) :=
                                commitResponse env priv o1 (ID req) r incTx resp t backup in
                              Done o2 evs None
                          end
                      end
                  end
              end
          end
      end
  end.

(** The request height the main transaction counts from: the height of
    the request transaction, or the current height when it is not yet
    persisted. *)
Definition requestHeight (env : Env Body) (r : OracleRequest) : Z :=
  match GetTransaction env (OriginalTxID r) with
  | TxFound h => h
  | _ => BlockHeight env
  end.

(** The response code [processRequest] ends up with (line 188). *)
Definition responseCode (env : Env Body) (o : OracleT) (incTx : incompleteTx)
    (id : Z) (r : OracleRequest) : option OracleResponseCode :=
  match fetchResponse env o incTx id r with
  | None => None
  | Some cr => Some (fst (applyFilter cr r))
  end.

(** The transactions handed to the mempool callback. *)
Fixpoint pooled (evs : list Event) : list (option Transaction) :=
  match evs with
  | [] => []
  | EvPool t :: rest => t :: pooled rest
  | EvBroadcast _ _ :: rest => pooled rest
  end.

(** The entry of request [R] has its [isSent] latch set. *)
Definition latched (o : OracleT) (R : Z) : Prop :=
  exists e, responses o !! R = Some e /\ isSent e = true.

(** The transaction stored as [incTx.tx] for request [R]. *)
Definition storedTx (o : OracleT) (R : Z) : option Transaction :=
  match responses o !! R with
  | Some e => tx e
  | None => None
  end.

(** One call of a worker, with the collaborators' answers during it. *)
Record call := {
  cFuel : nat;
  cEnv : Env Body;
  cPriv : bytes;
  cReq : request
}.

(** A sequence of calls on one service: for each call the state it
    started from, its request and its effects.  A panic ends the run. *)
Fixpoint run (cs : list call) (o : OracleT)
  : list (OracleT * request * list Event) :=
  match cs with
  | [] => []
  | c :: rest =>
      match processRequest (cFuel c) (cEnv c) (cPriv c) (cReq c) o with
      | Done o' evs _ => (o, cReq c, evs) :: run rest o'
      | _ => []
      end
  end.

(** ** Properties of [checkMediaType] *)

Lemma allowedHas_In (allowed : list string) (typ : string) :
  allowedHas allowed typ = true <-> In typ allowed.
Proof.
  induction allowed as [|ct rest IH]; simpl.
  - split; [discriminate | tauto].
  - destruct (String.eqb ct typ) eqn:E.
    + apply String.eqb_eq in E. split; auto.
    + apply String.eqb_neq in E. rewrite IH. split; [auto | intros [?|?]; congruence].
Qed.

(** C9: an empty list of allowed types accepts every header; a non-empty
    one accepts exactly the headers that parse to a media type of the
    list, and an unparsable header is refused. *)
Theorem checkMediaType_spec (hdr : string) (allowed : list string) :
  checkMediaType hdr [] = true /\
  (forall ct rest,
      allowed = ct :: rest ->
      (checkMediaType hdr allowed = true <->
       exists typ params,
         ParseMediaType hdr = Some (typ, params) /\ In typ allowed)) /\
  (forall ct rest,
      allowed = ct :: rest ->
      ParseMediaType hdr = None -> checkMediaType hdr allowed = false).
Proof.
  split; [reflexivity|]. split.
  - intros ct rest ->. unfold checkMediaType.
    cbn [length]. rewrite Nat2Z.inj_succ.
    destruct (Z.eqb_spec (Z.succ (Z.of_nat (length rest))) 0) as [E|_]; [lia|].
    destruct (ParseMediaType hdr) as [[typ params]|] eqn:P.
    + rewrite allowedHas_In. split.
      * intros H. exists typ, params. auto.
      * intros (typ' & params' & [= <- <-] & H). exact H.
    + split; [discriminate|]. intros (typ' & params' & [=] & _).
  - intros ct rest -> P. unfold checkMediaType.
    cbn [length]. rewrite Nat2Z.inj_succ.
    destruct (Z.eqb_spec (Z.succ (Z.of_nat (length rest))) 0) as [E|_]; [lia|].
    now rewrite P.
Qed.

(** ** The response code *)

Lemma applyFilter_not_success (c : OracleResponseCode) (b : bytes) (r : OracleRequest) :
  c <> Success -> fst (applyFilter (c, b) r) = c.
Proof. destruct c; simpl; congruence. Qed.

Lemma applyFilter_success (b : bytes) (r : OracleRequest) :
  fst (applyFilter (Success, b) r) =
  match filterRequest b r with Some _ => Success | None => Error end.
Proof. unfold applyFilter; simpl. now destruct (filterRequest b r). Qed.

Lemma statusResponse_code (o : OracleT) (resp : Response Body) :
  (StatusCode resp = 200 ->
     (checkMediaType (ContentType resp) (AllowedContentTypes o) = false ->
        statusResponse o resp = (ContentTypeNotSupported, [])) /\
     (checkMediaType (ContentType resp) (AllowedContentTypes o) = true ->
        statusResponse o resp =
        match readResponse (RBody resp) MaxOracleResultSize with
        | ReadOk b => (Success, b)
        | ReadTooLarge => (ResponseTooLarge, [])
        | ReadErr => (Error, [])
        end)) /\
  (StatusCode resp = 403 -> statusResponse o resp = (Forbidden, [])) /\
  (StatusCode resp = 404 -> statusResponse o resp = (NotFound, [])) /\
  (StatusCode resp = 408 -> statusResponse o resp = (Timeout, [])) /\
  (StatusCode resp <> 200 -> StatusCode resp <> 403 ->
   StatusCode resp <> 404 -> StatusCode resp <> 408 ->
   statusResponse o resp = (Error, [])).
Proof.
  unfold statusResponse, http_StatusOK, http_StatusForbidden,
    http_StatusNotFound, http_StatusRequestTimeout.
  split; [|split; [|split; [|split]]].
  - intros ->. split; intros H; simpl; now rewrite H.
  - now intros ->.
  - now intros ->.
  - now intros ->.
  - intros H1 H2 H3 H4.
    destruct (Z.eqb_spec (StatusCode resp) 200); [contradiction|].
    destruct (Z.eqb_spec (StatusCode resp) 403); [contradiction|].
    destruct (Z.eqb_spec (StatusCode resp) 404); [contradiction|].
    destruct (Z.eqb_spec (StatusCode resp) 408); [contradiction|].
    reflexivity.
Qed.

Lemma commitResponse_broadcasts (env : Env Body) (priv : bytes) (o : OracleT) (id : Z)
    (r : OracleRequest) (incTx : incompleteTx) (resp : OracleResponse)
    (t backup : Transaction) :
  exists sg rest,
    snd (commitResponse env priv o id r incTx resp t backup) =
    EvBroadcast resp sg :: rest.
Proof.
  unfold commitResponse.
  destruct (finalize _ (oracleNodes o) false) as [[e5 readyTx] ready0].
  destruct (latch env e5 ready0) as [e6 ready]. simpl. eauto.
Qed.


(** ** Valid-until heights of the response transactions *)

Lemma add32_range (a b : Z) : 0 <= add32 a b < uint32_mod.
Proof. unfold add32, uint32_mod. apply Z.mod_pos_bound. lia. Qed.

Lemma add32_small (a b : Z) : 0 <= a + b < uint32_mod -> add32 a b = a + b.
Proof. intros H. unfold add32. now apply Z.mod_small. Qed.

Lemma backupHeight_gt (fuel : nat) : forall h cur inc hb,
  backupHeight fuel h cur inc = Some hb -> cur < hb.
Proof.
  induction fuel as [|fuel IH]; intros h cur inc hb; simpl;
    destruct (Z.leb_spec h cur) as [Hle|Hgt]; try discriminate.
  - intros [= <-]. exact Hgt.
  - apply IH.
  - intros [= <-]. exact Hgt.
Qed.

Lemma backupHeight_total (fuel : nat) : forall h cur inc,
  0 < inc -> cur + inc < uint32_mod -> 0 <= h ->
  (Z.to_nat (cur - h + 1) <= fuel)%nat ->
  exists hb, backupHeight fuel h cur inc = Some hb.
Proof.
  induction fuel as [|fuel IH]; intros h cur inc Hinc Hcur Hh Hfuel.
  - simpl. destruct (Z.leb_spec h cur) as [Hle|Hgt]; [lia|eauto].
  - simpl. destruct (Z.leb_spec h cur) as [Hle|Hgt]; [|eauto].
    assert (E : add32 h inc = h + inc) by (apply add32_small; lia).
    rewrite E. apply IH; lia.
Qed.

Lemma primaryHeight_requestHeight (env : Env Body) (r : OracleRequest) (h : Z) :
  primaryHeight env r = Some h ->
  h = add32 (requestHeight env r) (MaxValidUntilBlockIncrement env).
Proof.
  unfold primaryHeight, requestHeight.
  destruct (GetTransaction env (OriginalTxID r)); congruence.
Qed.

(** What the helpers outside the sources are relied on for: they leave
    the latch alone, and they keep the valid-until height of the stored
    transactions; [CreateResponseTx] makes a transaction valid until the
    height it is given. *)
Definition keepsLatch (f : incompleteTx -> incompleteTx) : Prop :=
  forall t, isSent (f t) = isSent t.

Definition vubOf (t : option Transaction) : option Z :=
  match t with
  | Some x => Some (ValidUntilBlock x)
  | None => None
  end.

Definition keepsHeights (f : incompleteTx -> incompleteTx) : Prop :=
  forall t, vubOf (tx (f t)) = vubOf (tx t) /\
            vubOf (backupTx (f t)) = vubOf (backupTx t).

Hypothesis CreateResponseTx_vub : forall gas vub resp t,
  CreateResponseTx gas vub resp = Some t -> ValidUntilBlock t = vub.
Hypothesis addResponse_heights : forall pub s isBackup,
  keepsHeights (fun t => addResponse t pub s isBackup).
Hypothesis reverifyTx_heights : forall net,
  keepsHeights (fun t => reverifyTx t net).
Hypothesis finalize_heights : forall nodes backupOnly,
  keepsHeights (fun t => fst (fst (finalize t nodes backupOnly))).

Hypothesis addResponse_latch : forall pub s isBackup,
  keepsLatch (fun t => addResponse t pub s isBackup).
Hypothesis reverifyTx_latch : forall net,
  keepsLatch (fun t => reverifyTx t net).
Hypothesis finalize_latch : forall nodes backupOnly,
  keepsLatch (fun t => fst (fst (finalize t nodes backupOnly))).

Lemma commitResponse_heights (env : Env Body) (priv : bytes) (o : OracleT) (id : Z)
    (r : OracleRequest) (incTx : incompleteTx) (resp : OracleResponse)
    (t backup : Transaction) :
  exists e sg rest,
    commitResponse env priv o id r incTx resp t backup =
      (storeResponse o id e, EvBroadcast resp sg :: rest) /\
    vubOf (tx e) = Some (ValidUntilBlock t) /\
    vubOf (backupTx e) = Some (ValidUntilBlock backup).
Proof.
  unfold commitResponse.
  set (e1 := {| isSent := isSent incTx; attempts := attempts incTx;
                time := time incTx; itRequest := Some r; tx := Some t;
                backupTx := Some backup; sigs := sigs incTx;
                backupSigs := backupSigs incTx |}).
  set (e2 := reverifyTx e1 (Network o)).
  set (sg := SignHashable priv (Network o mod uint32_mod) t).
  set (e3 := addResponse e2 (PublicKey priv) sg false).
  set (e4 := addResponse e3 (PublicKey priv) _ true).
  pose proof (finalize_heights (oracleNodes o) false e4) as [F1 F2].
  destruct (finalize e4 (oracleNodes o) false) as [[e5 readyTx] ready0] eqn:Ef.
  simpl in F1, F2. unfold latch.
  eexists _, sg, _. split; [reflexivity|]. simpl.
  destruct (addResponse_heights (PublicKey priv)
              (SignHashable priv (Network o mod uint32_mod) backup) true e3) as [A1 A2].
  destruct (addResponse_heights (PublicKey priv) sg false e2) as [B1 B2].
  destruct (reverifyTx_heights (Network o) e1) as [R1 R2].
  fold e4 in A1, A2. fold e3 in B1, B2. fold e2 in R1, R2.
  split; [rewrite F1, A1, B1, R1 | rewrite F2, A2, B2, R2]; reflexivity.
Qed.


(** ** The [isSent] latch *)

Lemma getResponse_found (o : OracleT) (id : Z) (create : bool) (e : incompleteTx) :
  responses o !! id = Some e -> getResponse o id create = (o, Some e).
Proof. intros H. unfold getResponse. now rewrite H. Qed.

Lemma getResponse_latched (o o1 : OracleT) (id R : Z) (create : bool)
    (x : option incompleteTx) :
  latched o R -> getResponse o id create = (o1, x) ->
  latched o1 R /\ (forall e, x = Some e -> responses o1 !! id = Some e).
Proof.
  intros (e & He & Hs). unfold getResponse.
  destruct (responses o !! id) as [e'|] eqn:E.
  - intros [= <- <-]. split; [now exists e|]. now intros ? [= <-].
  - destruct (create && negb (default false (removed o !! id))).
    + intros [= <- <-]. split.
      * exists e. split; [|exact Hs]. simpl.
        rewrite lookup_insert_ne; [exact He|]. intros ->. congruence.
      * intros ? [= <-]. simpl. apply lookup_insert_eq.
    + intros [= <- <-]. split; [now exists e|]. discriminate.
Qed.

Lemma latch_spec (env : Env Body) (t : incompleteTx) (ready0 : bool) :
  isSent (fst (latch env t ready0)) = (ready0 || isSent t) /\
  snd (latch env t ready0) = (ready0 && negb (isSent t)) /\
  tx (fst (latch env t ready0)) = tx t.
Proof. unfold latch; simpl. now destruct ready0. Qed.

Lemma storeResponse_latched (o : OracleT) (id R : Z) (e : incompleteTx) :
  latched o R -> (id = R -> isSent e = true) -> latched (storeResponse o id e) R.
Proof.
  intros (e0 & He0 & Hs0) H. unfold latched, storeResponse; simpl.
  destruct (decide (id = R)) as [->|Hne].
  - exists e. rewrite lookup_insert_eq. auto.
  - exists e0. rewrite lookup_insert_ne; auto.
Qed.

Lemma storeResponse_sets_latch (o : OracleT) (id : Z) (e : incompleteTx) :
  isSent e = true -> latched (storeResponse o id e) id.
Proof.
  intros H. exists e. split; [|exact H]. simpl. apply lookup_insert_eq.
Qed.

Lemma processFailedRequest_latched (env : Env Body) (priv : bytes) (req : request)
    (o : OracleT) (e : incompleteTx) :
  responses o !! ID req = Some e -> isSent e = true ->
  processFailedRequest env priv req o = (o, [EvPool (tx e)]).
Proof.
  intros He Hs. unfold processFailedRequest.
  rewrite (getResponse_found _ _ _ _ He). now rewrite Hs.
Qed.

Lemma processFailedRequest_shape (env : Env Body) (priv : bytes) (req : request)
    (o : OracleT) :
  let '(o', evs) := processFailedRequest env priv req o in
  (o' = o /\ (evs = [] \/
              exists e, responses o !! ID req = Some e /\ isSent e = true /\
                        evs = [EvPool (tx e)])) \/
  (exists e0 e sg rest,
      responses o !! ID req = Some e0 /\ isSent e0 = false /\
      o' = storeResponse o (ID req) e /\
      evs = EvBroadcast (getFailedResponse (ID req)) sg :: rest /\
      (pooled rest <> [] -> isSent e = true)).
Proof.
  unfold processFailedRequest, getResponse.
  destruct (responses o !! ID req) as [e0|] eqn:E; cbv beta iota.
  2:{ left. auto. }
  destruct (isSent e0) eqn:Hs.
  { left. split; [reflexivity|]. right. now exists e0. }
  destruct (finalize e0 (oracleNodes o) true) as [[e1 readyTx] ready0] eqn:Ef.
  destruct (latch_spec env e1 ready0) as (L1 & L2 & _).
  destruct (latch env e1 ready0) as [e2 ready] eqn:El. simpl in L1, L2.
  right. exists e0, e2. eexists _, _.
  split; [reflexivity|]. split; [exact Hs|]. split; [reflexivity|].
  split; [reflexivity|].
  intros Hp. rewrite L1. destruct ready0; [reflexivity|].
  subst ready. simpl in Hp. congruence.
Qed.

Lemma commitResponse_shape (env : Env Body) (priv : bytes) (o : OracleT) (id : Z)
    (r : OracleRequest) (incTx : incompleteTx) (resp : OracleResponse)
    (t backup : Transaction) :
  exists e sg rest,
    commitResponse env priv o id r incTx resp t backup =
      (storeResponse o id e, EvBroadcast resp sg :: rest) /\
    (isSent incTx = true -> isSent e = true /\ rest = []) /\
    (pooled rest <> [] -> isSent e = true).
Proof.
  unfold commitResponse.
  set (e1 := {| isSent := isSent incTx; attempts := attempts incTx;
                time := time incTx; itRequest := Some r; tx := Some t;
                backupTx := Some backup; sigs := sigs incTx;
                backupSigs := backupSigs incTx |}).
  set (e2 := reverifyTx e1 (Network o)).
  set (sg := SignHashable priv (Network o mod uint32_mod) t).
  set (e3 := addResponse e2 (PublicKey priv) sg false).
  set (e4 := addResponse e3 (PublicKey priv) _ true).
  assert (H4 : isSent e4 = isSent incTx).
  { unfold e4. rewrite (addResponse_latch _ _ true e3).
    unfold e3. rewrite (addResponse_latch _ _ false e2).
    unfold e2. now rewrite (reverifyTx_latch _ e1). }
  pose proof (finalize_latch (oracleNodes o) false e4) as F. simpl in F.
  destruct (finalize e4 (oracleNodes o) false) as [[e5 readyTx] ready0] eqn:Ef.
  simpl in F.
  destruct (latch_spec env e5 ready0) as (L1 & L2 & _).
  destruct (latch env e5 ready0) as [e6 ready] eqn:El. simpl in L1, L2.
  exists e6, sg. eexists. split; [reflexivity|].
  rewrite L1, F, H4. subst ready. rewrite F, H4. split.
  - intros ->. rewrite orb_true_r, andb_false_r. auto.
  - intros Hp. destruct ready0; [reflexivity|]. simpl in Hp. congruence.
Qed.

(** Walks [processRequest] from the fetch down to [commitResponse];
    [exit] closes the goal of each early return. *)
Ltac to_commit exit :=
  match goal with
  | |- context [fetchResponse ?e ?o ?i ?n ?r] =>
      destruct (fetchResponse e o i n r); [|discriminate]
  end;
  match goal with
  | |- context [primaryHeight ?e ?r] =>
      destruct (primaryHeight e r) as [?h|]; [|exit]
  end;
  match goal with
  | |- context [CreateResponseTx ?g ?h ?resp] =>
      destruct (CreateResponseTx g h resp) as [?t|]; [|exit]
  end;
  match goal with
  | |- context [backupHeight ?f ?h ?c ?i] =>
      destruct (backupHeight f h c i) as [?hb|]; [|discriminate]
  end;
  match goal with
  | |- context [CreateResponseTx ?g ?h ?resp] =>
      destruct (CreateResponseTx g h resp) as [?backup|]; [|exit]
  end;
  match goal with
  | |- context [commitResponse ?a ?b ?c ?d ?e ?f ?g ?x ?y] =>
      let Hlat := fresh "Hlat" in
      let Hpool := fresh "Hpool" in
      destruct (commitResponse_shape a b c d e f g x y)
        as (?e' & ?sg & ?rest & -> & Hlat & Hpool)
  end.

Lemma processRequest_keeps_latch (fuel : nat) (env : Env Body) (priv : bytes)
    (req : request) (o o' : OracleT) (evs : list Event) (err : option ProcError)
    (R : Z) :
  latched o R ->
  processRequest fuel env priv req o = Done o' evs err ->
  latched o' R.
Proof.
  intros HL. unfold processRequest. destruct (Req req) as [r|].
  - destruct (getResponse o (ID req) true) as [o1 x] eqn:Eg.
    destruct (getResponse_latched _ _ _ _ _ _ HL Eg) as [HL1 Hx].
    destruct x as [incTx|]; [|now intros [= <- _ _]].
    to_commit ltac:(now intros [= <- _ _]).
    intros [= <- _ _]. apply storeResponse_latched; [exact HL1|].
    intros Eid. apply Hlat.
    destruct HL1 as (e0 & He0 & Hs0). rewrite Eid in Hx.
    specialize (Hx _ eq_refl). congruence.
  - pose proof (processFailedRequest_shape env priv req o) as H.
    destruct (processFailedRequest env priv req o) as [o1 evs1].
    intros [= <- _ _].
    destruct H as [[-> _]|(e0 & e & sg & rest & He0 & Hs0 & -> & _ & _)];
      [exact HL|].
    apply storeResponse_latched; [exact HL|].
    intros Eid. destruct HL as (e1 & He1 & Hs1). rewrite Eid in He0. congruence.
Qed.

Lemma processRequest_latched_effects (fuel : nat) (env : Env Body) (priv : bytes)
    (req : request) (o o' : OracleT) (evs : list Event) (err : option ProcError) :
  latched o (ID req) ->
  processRequest fuel env priv req o = Done o' evs err ->
  match Req req with
  | Some _ => pooled evs = []
  | None => evs = [EvPool (storedTx o (ID req))]
  end.
Proof.
  intros (e & He & Hs). unfold processRequest. destruct (Req req) as [r|].
  - rewrite (getResponse_found _ _ _ _ He).
    to_commit ltac:(now intros [= _ <- _]).
    intros [= _ <- _]. destruct (Hlat Hs) as [_ ->]. reflexivity.
  - rewrite (processFailedRequest_latched _ _ _ _ _ He Hs).
    intros [= _ <- _]. unfold storedTx. now rewrite He.
Qed.

Lemma processRequest_pool_sets_latch (fuel : nat) (env : Env Body) (priv : bytes)
    (req : request) (o o' : OracleT) (evs : list Event) (err : option ProcError) :
  processRequest fuel env priv req o = Done o' evs err ->
  pooled evs <> [] -> latched o' (ID req).
Proof.
  unfold processRequest. destruct (Req req) as [r|].
  - destruct (getResponse o (ID req) true) as [o1 [incTx|]];
      [|intros [= _ <- _]; simpl; congruence].
    to_commit ltac:(intros [= _ <- _]; simpl; congruence).
    intros [= <- <- _] H. apply storeResponse_sets_latch. apply Hpool. exact H.
  - pose proof (processFailedRequest_shape env priv req o) as H.
    destruct (processFailedRequest env priv req o) as [o1 evs1].
    intros [= <- <- _] Hp.
    destruct H as [[-> [->|(e & He & Hs & ->)]]
                  |(e0 & e & sg & rest & He0 & Hs0 & -> & -> & Hl)].
    + simpl in Hp. congruence.
    + now exists e.
    + apply storeResponse_sets_latch. apply Hl. exact Hp.
Qed.

Lemma run_split (cs : list call) :
  forall o pre o1 req1 evs1 post,
    run cs o = pre ++ (o1, req1, evs1) :: post ->
    exists c rest o2 err,
      processRequest (cFuel c) (cEnv c) (cPriv c) (cReq c) o1 = Done o2 evs1 err /\
      cReq c = req1 /\ post = run rest o2.
Proof.
  induction cs as [|c rest IH]; intros o pre o1 req1 evs1 post; simpl.
  - destruct pre; discriminate.
  - destruct (processRequest (cFuel c) (cEnv c) (cPriv c) (cReq c) o)
      as [o' evs err| |] eqn:E; try (destruct pre; discriminate).
    destruct pre as [|x pre]; simpl.
    + intros [= <- <- <- <-]. exists c, rest, o', err. auto.
    + intros [= _ H]. exact (IH _ _ _ _ _ _ H).
Qed.

Lemma run_latched (cs : list call) (R : Z) :
  forall o, latched o R ->
  Forall (fun '(o_pre, req, evs) =>
            latched o_pre R /\
            (ID req = R ->
             match Req req with
             | Some _ => pooled evs = []
             | None => evs = [EvPool (storedTx o_pre R)]
             end)) (run cs o).
Proof.
  induction cs as [|c rest IH]; intros o HL; simpl.
  - constructor.
  - destruct (processRequest (cFuel c) (cEnv c) (cPriv c) (cReq c) o)
      as [o' evs err| |] eqn:E; try constructor.
    + split; [exact HL|]. intros Eid. rewrite <- Eid in HL |- *.
      exact (processRequest_latched_effects _ _ _ _ _ _ _ _ HL E).
    + apply IH. exact (processRequest_keeps_latch _ _ _ _ _ _ _ _ _ HL E).
Qed.

(** C1, as the code has it.  Over any sequence of [processRequest] and
    [processFailedRequest] calls (the ticks of the main loop and
    [RemoveRequests], which delete entries, are not among them): once
    the latch of request [R] is set it stays set, [processRequest] for
    [R] pools nothing, and [processFailedRequest] for [R] calls the
    mempool callback once more, with whatever the entry holds as
    [incTx.tx] at that time, and does nothing else; and a call for [R]
    that pools a transaction sets the latch, so all of this holds for
    the calls after it. *)
Theorem latched_request_only_repooled (cs : list call) (o : OracleT) (R : Z) :
  let settled := fun '(o_pre, req, evs) =>
    latched o_pre R /\
    (ID req = R ->
     match Req req with
     | Some _ => pooled evs = []
     | None => evs = [EvPool (storedTx o_pre R)]
     end) in
  (latched o R -> Forall settled (run cs o)) /\
  (forall pre o1 req1 evs1 post,
      run cs o = pre ++ (o1, req1, evs1) :: post ->
      ID req1 = R -> pooled evs1 <> [] ->
      Forall settled post).
Proof.
  intros settled. split.
  - apply run_latched.
  - intros pre o1 req1 evs1 post Hrun Hid Hpool.
    destruct (run_split _ _ _ _ _ _ _ Hrun) as (c & rest & o2 & err & Hc & Hreq & ->).
    apply run_latched. rewrite <- Hid, <- Hreq.
    exact (processRequest_pool_sets_latch _ _ _ _ _ _ _ _ Hc Hpool).
Qed.

End Service.

(** ** A small instance: one oracle node, every fetch succeeds *)

Definition sampleParse (s : string) : option URLT :=
  Some {| Scheme := "https"; Opaque := s |}.

Definition sampleMedia (s : string) : option (string * list (string * string)) :=
  Some (s, []).

Definition sampleRead (_ : unit) (_ : Z) : ReadResult := ReadOk [].

Definition sampleFilter (b : bytes) (_ : OracleRequest) : option bytes := Some b.

Definition sampleCreate (gas vub : Z) (resp : OracleResponse) : option Transaction :=
  Some {| ValidUntilBlock := vub; SystemFee := gas; Attribute := resp; Witness := [] |}.

Definition sampleSign (priv : bytes) (_ : Z) (_ : Transaction) : bytes := priv.

Definition samplePub (priv : bytes) : bytes := priv.

Definition sampleAdd (t : incompleteTx) (pub s : bytes) (isBackup : bool) : incompleteTx :=
  let entry := {| sig := s; ok := true |} in
  {| isSent := isSent t; attempts := attempts t; time := time t;
     itRequest := itRequest t; tx := tx t; backupTx := backupTx t;
     sigs := if isBackup then sigs t
             else <[String.string_of_list_byte pub := entry]> (sigs t);
     backupSigs := if isBackup
                   then <[String.string_of_list_byte pub := entry]> (backupSigs t)
                   else backupSigs t |}.

Definition sampleReverify (t : incompleteTx) (_ : Z) : incompleteTx := t.

(** With a single node one signature is the threshold. *)
Definition sampleFinalize (t : incompleteTx) (_ : list bytes) (backupOnly : bool)
  : incompleteTx * option Transaction * bool :=
  if backupOnly then (t, backupTx t, true) else (t, tx t, true).

Definition sampleEnv : Env unit :=
  {| BlockHeight := 100;
     MaxValidUntilBlockIncrement := 10;
     GetTransaction := fun _ => TxFound 95;
     NewRequestOk := fun _ => true;
     ClientDo := fun _ =>
       DoOk {| StatusCode := 200; ContentType := "application/json"; RBody := tt |};
     NeoFSGet := fun _ _ => None;
     Now := 1 |}.

Definition sampleOracle : OracleT :=
  {| Network := 42; AllowedContentTypes := ["application/json"%string];
     NeoFSNodes := []; oracleNodes := [[x01%byte]];
     responses := ∅; removed := ∅ |}.

Definition sampleRequest : OracleRequest :=
  {| OriginalTxID := 1; GasForResponse := 1000;
     URL := "https://example/x"; Filter := None |}.

Definition sampleProcess (fuel : nat) (env : Env unit) (priv : bytes)
    (req : request) (o : OracleT) : Outcome :=
  processRequest unit sampleParse sampleMedia sampleRead 65535 sampleFilter
    sampleCreate sampleSign samplePub sampleAdd sampleReverify sampleFinalize
    fuel env priv req o.

Definition sampleRun (cs : list (call unit)) (o : OracleT)
  : list (OracleT * request * list Event) :=
  run unit sampleParse sampleMedia sampleRead 65535 sampleFilter
    sampleCreate sampleSign samplePub sampleAdd sampleReverify sampleFinalize cs o.

(** The request arrives, and later the ticker has it processed again. *)
Definition sampleCalls : list (call unit) :=
  [ {| cFuel := 200%nat; cEnv := sampleEnv; cPriv := [x01%byte];
       cReq := {| ID := 7; Req := Some sampleRequest |} |};
    {| cFuel := 200%nat; cEnv := sampleEnv; cPriv := [x01%byte];
       cReq := {| ID := 7; Req := None |} |} ].

(** The service after the first of [sampleCalls]. *)
Definition sampleLatched : OracleT :=
  match sampleRun sampleCalls sampleOracle with
  | _ :: (o, _, _) :: _ => o
  | _ => sampleOracle
  end.

Lemma sample_keepsLatch :
  (forall pub s isBackup, keepsLatch (fun t => sampleAdd t pub s isBackup)) /\
  (forall net, keepsLatch (fun t => sampleReverify t net)) /\
  (forall nodes backupOnly,
      keepsLatch (fun t => fst (fst (sampleFinalize t nodes backupOnly)))).
Proof.
  split; [|split]; intros; intros t; try reflexivity.
  unfold sampleFinalize. now destruct backupOnly.
Defined.

Lemma sample_keepsHeights :
  (forall pub s isBackup, keepsHeights (fun t => sampleAdd t pub s isBackup)) /\
  (forall net, keepsHeights (fun t => sampleReverify t net)) /\
  (forall nodes backupOnly,
      keepsHeights (fun t => fst (fst (sampleFinalize t nodes backupOnly)))).
Proof.
  split; [|split]; intros; intros t; try (split; reflexivity).
  unfold sampleFinalize. destruct backupOnly; split; reflexivity.
Defined.

Lemma sampleLatched_latched : latched sampleLatched 7.
Proof. eexists. split; vm_compute; reflexivity. Defined.


(** From the latched sample service every further call for request 7
    behaves as the theorem says. *)
Lemma latched_request_only_repooled_witness :
  latched sampleLatched 7 /\
  Forall (fun '(o_pre, req, evs) =>
            latched o_pre 7 /\
            (ID req = 7 ->
             match Req req with
             | Some _ => pooled evs = []
             | None => evs = [EvPool (storedTx o_pre 7)]
             end)) (sampleRun sampleCalls sampleLatched).
Proof.
  split; [exact sampleLatched_latched|].
  destruct sample_keepsLatch as (Ha & Hr & Hf).
  exact (proj1 (latched_request_only_repooled unit sampleParse sampleMedia
                  sampleRead 65535 sampleFilter sampleCreate sampleSign samplePub
                  sampleAdd sampleReverify sampleFinalize Ha Hr Hf
                  sampleCalls sampleLatched 7) sampleLatched_latched).
Defined.

(** C1 as stated fails: after the response for request 7 was pooled and
    its latch set, the ticker's re-processing of 7 hands the stored
    transaction to the mempool callback a second time. *)
Lemma latched_request_pooled_again :
  ~ (forall (cs : list (call unit)) (R : Z),
        Forall (fun c => ID (cReq unit c) = R) cs ->
        (length (concat (map (fun x => pooled (snd x)) (sampleRun cs sampleOracle)))
         <= 1)%nat).
Proof.
  intros H. specialize (H sampleCalls 7).
  assert (HF : Forall (fun c => ID (cReq unit c) = 7) sampleCalls)
    by (repeat constructor).
  specialize (H HF). vm_compute in H. lia.
Qed.

End Oracle.

(** * Redeem scripts: [pkg/smartcontract] *)
Module Smartcontract.

(** Errors of [CreateMultiSigRedeemScript]: the three parameter checks,
    and a failed write of the emitter. *)
Inductive ScriptError :=
| ErrParamM (m : Z)
| ErrSignatures (m : Z)
| ErrKeyCount (n : Z)
| ErrEmit.

Inductive ScriptResult :=
| Script (b : bytes)
| Failed (e : ScriptError).

(** Insertion by a [Less] predicate, used for the instance at the end. *)
Fixpoint insertBy {A : Type} (less : A -> A -> bool) (x : A) (l : list A) : list A :=
  match l with
  | [] => [x]
  | y :: rest => if less y x then y :: insertBy less x rest else x :: l
  end.

Fixpoint sortBy {A : Type} (less : A -> A -> bool) (l : list A) : list A :=
  match l with
  | [] => []
  | x :: rest => insertBy less x (sortBy less rest)
  end.

Section Redeem.

(** [*keys.PublicKey], its serialization and the order of
    [keys.PublicKeys] that [sort.Sort] uses. *)
Variable PublicKey : Type.
Variable keyBytes : PublicKey -> bytes.
Variable Less : PublicKey -> PublicKey -> bool.

(** [sort.Sort]: the library's algorithm is left open; what is known of
    the result is stated where it is used. *)
Variable sortKeys : list PublicKey -> list PublicKey.

(** The emitters of package [vm] append to the buffer or fail. *)
Variable Opcode : Type.
Variable CHECKMULTISIG : Opcode.
Variable EmitInt : bytes -> Z -> option bytes.
Variable EmitBytes : bytes -> bytes -> option bytes.
Variable EmitOpcode : bytes -> Opcode -> option bytes.

(** The loop [for _, pubKey := range publicKeys]. *)
Fixpoint emitKeys (buf : bytes) (publicKeys : list PublicKey) : option bytes :=
  match publicKeys with
  | [] => Some buf
  | pubKey :: rest =>
      match EmitBytes buf (keyBytes pubKey) with
      | None => None
      | Some buf' => emitKeys buf' rest
      end
  end.

(** [CreateMultiSigRedeemScript] *)
Definition CreateMultiSigRedeemScript (m : Z) (publicKeys : list PublicKey)
  : ScriptResult :=
  let n := Z.of_nat (length publicKeys) in
  if m <=? 1 then Failed (ErrParamM m)
  else if m >? n then Failed (ErrSignatures m)
  else if m >? 1024 then Failed (ErrKeyCount n)
  else
    match EmitInt [] m with
    | None => Failed ErrEmit
    | Some b1 =>
        match emitKeys b1 (sortKeys publicKeys) with
        | None => Failed ErrEmit
        | Some b2 =>
            match EmitInt b2 n with
            | None => Failed ErrEmit
            | Some b3 =>
                match EmitOpcode b3 CHECKMULTISIG with
                | None => Failed ErrEmit
                | Some b4 => Script b4
                end
            end
        end
    end.

(** The keys of a list are in the order of [Less]: no key is followed by
    a smaller one. *)
Definition inOrder (l : list PublicKey) : Prop :=
  Sorted (fun a b => Less b a = false) l.

Lemma emitKeys_total (keys : list PublicKey) :
  (forall b x, EmitBytes b x <> None) ->
  forall buf, exists buf', emitKeys buf keys = Some buf'.
Proof.
  intros Hb. induction keys as [|k rest IH]; intros buf; simpl.
  - eauto.
  - destruct (EmitBytes buf (keyBytes k)) as [buf'|] eqn:E.
    + apply IH.
    + now apply Hb in E.
Qed.

(** What the emitters of package [vm] append: the encoding of an
    integer, of a byte string and of an opcode. *)
Variable encInt : Z -> bytes.
Variable encBytes : bytes -> bytes.
Variable encOpcode : Opcode -> bytes.

(** The encoded keys of a list, one after the other. *)
Definition encodedKeys (keys : list PublicKey) : bytes :=
  flat_map (fun k => encBytes (keyBytes k)) keys.

Lemma emitKeys_appends (keys : list PublicKey) :
  (forall b x, EmitBytes b x = Some (b ++ encBytes x)) ->
  forall buf, emitKeys buf keys = Some (buf ++ encodedKeys keys).
Proof.
  intros Hb. induction keys as [|k rest IH]; intros buf; simpl.
  - now rewrite app_nil_r.
  - rewrite Hb, IH. unfold encodedKeys. simpl. now rewrite <- app_assoc.
Qed.

(** C10: with emitters that append their encodings to the buffer and a
    [sort.Sort] that orders its argument, the function fails exactly
    when [m <= 1], [m] exceeds the number of keys, or [m > 1024];
    otherwise the script is the encoded [m], followed by the encoded
    keys in sorted order (all the keys given, each as often as given),
    the encoded number of keys and the CHECKMULTISIG opcode. *)
Theorem CreateMultiSigRedeemScript_spec (m : Z) (publicKeys : list PublicKey) :
  (forall b i, EmitInt b i = Some (b ++ encInt i)) ->
  (forall b x, EmitBytes b x = Some (b ++ encBytes x)) ->
  (forall b op, EmitOpcode b op = Some (b ++ encOpcode op)) ->
  (forall l, Permutation l (sortKeys l) /\ inOrder (sortKeys l)) ->
  ((exists e, CreateMultiSigRedeemScript m publicKeys = Failed e) <->
   (m <= 1 \/ m > Z.of_nat (length publicKeys) \/ m > 1024)) /\
  (1 < m -> m <= Z.of_nat (length publicKeys) -> m <= 1024 ->
   exists sorted,
     Permutation publicKeys sorted /\ inOrder sorted /\
     CreateMultiSigRedeemScript m publicKeys =
       Script (encInt m ++ encodedKeys sorted ++
               encInt (Z.of_nat (length publicKeys)) ++
               encOpcode CHECKMULTISIG)).
Proof.
  intros Hi Hb Ho Hs.
  assert (Hok : 1 < m -> m <= Z.of_nat (length publicKeys) -> m <= 1024 ->
    CreateMultiSigRedeemScript m publicKeys =
      Script (encInt m ++ encodedKeys (sortKeys publicKeys) ++
              encInt (Z.of_nat (length publicKeys)) ++
              encOpcode CHECKMULTISIG)).
  { intros H1 H2 H3. unfold CreateMultiSigRedeemScript.
    destruct (Z.leb_spec m 1); [lia|].
    destruct (Z.gtb_spec m (Z.of_nat (length publicKeys))); [lia|].
    destruct (Z.gtb_spec m 1024); [lia|].
    rewrite Hi. simpl. rewrite (emitKeys_appends _ Hb), Hi, Ho.
    rewrite <- !app_assoc. reflexivity. }
  split.
  - split.
    + intros [e He].
      destruct (Z.le_gt_cases m 1) as [|H1]; [auto|].
      destruct (Z.le_gt_cases m (Z.of_nat (length publicKeys))) as [H2|];
        [|right; left; lia].
      destruct (Z.le_gt_cases m 1024) as [H3|]; [|right; right; lia].
      rewrite (Hok H1 H2 H3) in He. discriminate.
    + intros H. unfold CreateMultiSigRedeemScript.
      destruct (Z.leb_spec m 1); [eauto|].
      destruct (Z.gtb_spec m (Z.of_nat (length publicKeys))); [eauto|].
      destruct (Z.gtb_spec m 1024); [eauto|]. lia.
  - intros H1 H2 H3. exists (sortKeys publicKeys).
    destruct (Hs publicKeys) as [Hp Hin].
    split; [exact Hp|]. split; [exact Hin|]. exact (Hok H1 H2 H3).
Qed.

End Redeem.

(** ** Insertion sort orders its argument *)

Lemma insertBy_perm {A : Type} (less : A -> A -> bool) (x : A) (l : list A) :
  Permutation (x :: l) (insertBy less x l).
Proof.
  induction l as [|y rest IH]; simpl; [reflexivity|].
  destruct (less y x); [|reflexivity].
  rewrite perm_swap. now constructor.
Qed.

Lemma sortBy_perm {A : Type} (less : A -> A -> bool) (l : list A) :
  Permutation l (sortBy less l).
Proof.
  induction l as [|x rest IH]; simpl; [constructor|].
  rewrite <- insertBy_perm. now constructor.
Qed.

Lemma insertBy_sorted {A : Type} (less : A -> A -> bool) (x : A) (l : list A) :
  (forall a b, less a b = true -> less b a = false) ->
  Sorted (fun a b => less b a = false) l ->
  Sorted (fun a b => less b a = false) (insertBy less x l).
Proof.
  intros Hasym. induction l as [|y rest IH]; intros Hs; simpl.
  - repeat constructor.
  - destruct (less y x) eqn:E.
    + apply Sorted_inv in Hs as [Hs Hd]. constructor; [auto|].
      destruct rest as [|z rest']; simpl.
      * constructor. now apply Hasym.
      * destruct (less z x); constructor.
        -- now apply HdRel_inv in Hd.
        -- now apply Hasym.
    + constructor; [exact Hs|]. now constructor.
Qed.

Lemma sortBy_sorted {A : Type} (less : A -> A -> bool) (l : list A) :
  (forall a b, less a b = true -> less b a = false) ->
  Sorted (fun a b => less b a = false) (sortBy less l).
Proof.
  intros Hasym. induction l as [|x rest IH]; simpl.
  - constructor.
  - now apply insertBy_sorted.
Qed.

(** ** An instance: integer keys, one byte per emitted item *)

Definition sampleEmitInt (buf : bytes) (i : Z) : option bytes :=
  Some (buf ++ [byteOf (80 + i)]).
Definition sampleEmitBytes (buf : bytes) (b : bytes) : option bytes :=
  Some (buf ++ byteOf (Z.of_nat (length b)) :: b).
Definition sampleEmitOpcode (buf : bytes) (op : Byte.byte) : option bytes :=
  Some (buf ++ [op]).
Definition sampleKeyBytes (k : Z) : bytes := [byteOf k].

Definition sampleScript (m : Z) (keys : list Z) : ScriptResult :=
  CreateMultiSigRedeemScript Z sampleKeyBytes (sortBy Z.ltb) Byte.byte xae
    sampleEmitInt sampleEmitBytes sampleEmitOpcode m keys.

Definition sampleEncInt (i : Z) : bytes := [byteOf (80 + i)].
Definition sampleEncBytes (b : bytes) : bytes := byteOf (Z.of_nat (length b)) :: b.
Definition sampleEncOpcode (op : Byte.byte) : bytes := [op].

(** Two of the three keys 5, 3, 4: the keys come out as 3, 4, 5. *)
Lemma CreateMultiSigRedeemScript_witness :
  1 < 2 /\ 2 <= Z.of_nat (length [5; 3; 4]) /\ 2 <= 1024 /\
  (~ exists e, sampleScript 2 [5; 3; 4] = Failed e) /\
  sampleScript 2 [5; 3; 4]
  = Script [x52; x01; x03; x01; x04; x01; x05; x53; xae].
Proof.
  assert (Hasym : forall a b, Z.ltb a b = true -> Z.ltb b a = false)
    by (intros a b H; apply Z.ltb_lt in H; apply Z.ltb_ge; lia).
  pose proof (CreateMultiSigRedeemScript_spec Z sampleKeyBytes Z.ltb (sortBy Z.ltb)
                Byte.byte xae sampleEmitInt sampleEmitBytes sampleEmitOpcode
                sampleEncInt sampleEncBytes sampleEncOpcode
                2 [5; 3; 4]
                (fun b i => eq_refl) (fun b x => eq_refl) (fun b op => eq_refl)
                (fun l => conj (sortBy_perm Z.ltb l) (sortBy_sorted Z.ltb l Hasym)))
    as [Hiff Hok].
  split; [lia|]. split; [simpl; lia|]. split; [lia|]. split.
  - intros He. apply Hiff in He. simpl in He. lia.
  - destruct Hok as (sorted & Hp & Hin & Hscript); [lia|simpl; lia|lia|].
    reflexivity.
Defined.

End Smartcontract.

(** * The consensus service's payload relay: [pkg/consensus] *)
Module Consensus.

(** [cacheMaxCapacity] *)
Definition cacheMaxCapacity : nat := 100.

(** Modelled from the spec: [relayCache] ([newFIFOCache], [Has], [Add],
    [Get]) is not among the sources.  It is a FIFO cache of bounded
    capacity keyed by hash: adding to a full cache drops the oldest
    element. *)
Record relayCache (A : Type) := {
  maxCap : nat;
  queue : list (Z * A)
}.
Arguments maxCap {A} _.
Arguments queue {A} _.

(** Modelled from the spec: [newFIFOCache], an empty cache of the given
    capacity. *)
Definition newFIFOCache {A : Type} (capacity : nat) : relayCache A :=
  {| maxCap := capacity; queue := [] |}.

(** Modelled from the spec: [relayCache.Has], whether an element with the
    hash is held. *)
Definition cacheHas {A : Type} (c : relayCache A) (h : Z) : bool :=
  existsb (fun e => fst e =? h) (queue c).

(** Modelled from the spec: [relayCache.Add]; first in, first out: a full
    cache drops its oldest element for the new one. *)
Definition cacheAdd {A : Type} (c : relayCache A) (h : Z) (x : A) : relayCache A :=
  let q := if (maxCap c <=? length (queue c))%nat then tl (queue c) else queue c in
  {| maxCap := maxCap c; queue := q ++ [(h, x)] |}.

(** Modelled from the spec: [relayCache.Get], the element with the hash. *)
Definition cacheGet {A : Type} (c : relayCache A) (h : Z) : option A :=
  match find (fun e => fst e =? h) (queue c) with
  | Some e => Some (snd e)
  | None => None
  end.

(** [payload.MessageType], as far as [OnPayload] switches on it. *)
Inductive MessageType :=
| PrepareRequestType
| OtherType.

(** [Payload]: the validator index, the hash, the message type and, for a
    prepare request, the miner transaction (by hash). *)
Record Payload := {
  validatorIndex : Z;
  Hash : Z;
  Type_ : MessageType;
  minerTx : Z
}.

(** [crypto.PublicKey] is an interface.  Two of its implementations
    reach a service: the BLS keys of the dBFT library, which
    [crypto.NewBLSPublicKey] builds and which stand here for the bytes
    [MarshalBinary] gives, and [*publicKey] of this package, which wraps
    a key of type [PublicKey]. *)
Inductive cryptoPublicKey (PublicKey : Type) :=
| blsPublicKey (b : bytes)
| ecPublicKey (k : PublicKey).
Arguments blsPublicKey {PublicKey} _.
Arguments ecPublicKey {PublicKey} _.

(** The [service] struct; [messages] is the channel to the event loop,
    without its bound. *)
Record service (PublicKey : Type) := {
  cache : relayCache Payload;
  txx : relayCache Z;
  dbft : bool;
  messages : list Payload;
  validators : list (cryptoPublicKey PublicKey)
}.
Arguments cache {PublicKey} _.
Arguments txx {PublicKey} _.
Arguments dbft {PublicKey} _.
Arguments messages {PublicKey} _.
Arguments validators {PublicKey} _.

(** [NewService], without its error results: both caches get the
    capacity [cacheMaxCapacity]; without a wallet the service has no
    validators and no dBFT instance; with a wallet the validators are the
    BLS keys of [Wallet.BLSValidators], sorted by their bytes
    ([bytes.Compare(pi, pj) == -1]). *)
Definition NewService {PublicKey : Type} (wallet : option (list bytes))
  : service PublicKey :=
  {| cache := newFIFOCache cacheMaxCapacity;
     txx := newFIFOCache cacheMaxCapacity;
     dbft := match wallet with Some _ => true | None => false end;
     messages := [];
     validators :=
       match wallet with
       | Some vs => map blsPublicKey (Smartcontract.sortBy bytesLess vs)
       | None => []
       end |}.

Definition setCache {PublicKey : Type} (s : service PublicKey)
    (c : relayCache Payload) : service PublicKey :=
  {| cache := c; txx := txx s; dbft := dbft s; messages := messages s;
     validators := validators s |}.

Definition setTxx {PublicKey : Type} (s : service PublicKey)
    (c : relayCache Z) : service PublicKey :=
  {| cache := cache s; txx := c; dbft := dbft s; messages := messages s;
     validators := validators s |}.

Definition setMinerTx (p : Payload) (t : Z) : Payload :=
  {| validatorIndex := validatorIndex p; Hash := Hash p; Type_ := Type_ p;
     minerTx := t |}.

(** [broadcast]: the new state and the payload handed to
    [Config.Broadcast]; [transactionHashes] are those of the prepare
    request.  [None] is the panic of [transactionHashes[0]] on an empty
    list, or of the type assertion when the cache of miner transactions
    has no entry for that hash. *)
Definition broadcast {PublicKey : Type} (s : service PublicKey) (p : Payload)
    (transactionHashes : list Z) : option (service PublicKey * list Payload) :=
  match Type_ p with
  | PrepareRequestType =>
      match transactionHashes with
      | [] => None
      | h :: _ =>
          match cacheGet (txx s) h with
          | None => None
          | Some t =>
              let p' := setMinerTx p t in
              Some (setCache s (cacheAdd (cache s) (Hash p') p'), [p'])
          end
      end
  | OtherType => Some (setCache s (cacheAdd (cache s) (Hash p) p), [p])
  end.

(** What reaches a service from outside: a payload from the network
    ([OnPayload]), or a payload of its own that the dBFT instance sends
    through [broadcast]. *)
Inductive Event :=
| Received (cp : Payload)
| Sent (p : Payload) (transactionHashes : list Z).

Section Relay.

Variable PublicKey : Type.

(** [hash.Hash160(pub.GetVerificationScript())] and [p.Verify]. *)
Variable verificationHash : PublicKey -> Z.
Variable Verify : Payload -> Z -> bool.

(** [validatePayload]; [None] is the panic of the type assertion
    of [pub] to [*publicKey] on a key of another type. *)
Definition validatePayload (s : service PublicKey) (p : Payload) : option bool :=
  let validators := validators s in
  if validatorIndex p >=? Z.of_nat (length validators) then Some false
  else
    match nth_error validators (Z.to_nat (validatorIndex p)) with
    | Some (ecPublicKey pub) => Some (Verify p (verificationHash pub))
    | Some (blsPublicKey _) => None
    | None => Some false
    end.

(** [OnPayload]: the new state and the payloads handed to
    [Config.Broadcast]; [None] when [validatePayload] panics. *)
Definition OnPayload (s : service PublicKey) (cp : Payload)
  : option (service PublicKey * list Payload) :=
  match validatePayload s cp with
  | None => None
  | Some valid =>
      if negb valid || cacheHas (cache s) (Hash cp) then Some (s, [])
      else
        let cache1 := cacheAdd (cache s) (Hash cp) cp in
        if negb (dbft s) then
          Some ({| cache := cache1; txx := txx s; dbft := dbft s;
                   messages := messages s; validators := validators s |}, [cp])
        else
          let txx1 :=
            match Type_ cp with
            | PrepareRequestType => cacheAdd (txx s) (minerTx cp) (minerTx cp)
            | OtherType => txx s
            end in
          Some ({| cache := cache1; txx := txx1; dbft := dbft s;
                   messages := messages s ++ [cp]; validators := validators s |},
                [cp])
  end.

(** A sequence of received payloads: the final state and everything that
    [OnPayload] handed to [Config.Broadcast], in order. *)
Fixpoint receive (s : service PublicKey) (ps : list Payload)
  : option (service PublicKey * list Payload) :=
  match ps with
  | [] => Some (s, [])
  | p :: rest =>
      match OnPayload s p with
      | None => None
      | Some (s1, out1) =>
          match receive s1 rest with
          | None => None
          | Some (s2, out2) => Some (s2, out1 ++ out2)
          end
      end
  end.

(** A sequence of events: the final state, the payloads [OnPayload]
    relayed and the payloads [broadcast] sent, each in order. *)
Fixpoint serve (s : service PublicKey) (evs : list Event)
  : option (service PublicKey * list Payload * list Payload) :=
  match evs with
  | [] => Some (s, [], [])
  | ev :: rest =>
      match (match ev with
             | Received cp =>
                 match OnPayload s cp with
                 | Some (s1, out) => Some (s1, out, [])
                 | None => None
                 end
             | Sent p transactionHashes =>
                 match broadcast s p transactionHashes with
                 | Some (s1, out) => Some (s1, [], out)
                 | None => None
                 end
             end) with
      | None => None
      | Some (s1, relayed1, sent1) =>
          match serve s1 rest with
          | None => None
          | Some (s2, relayed2, sent2) =>
              Some (s2, relayed1 ++ relayed2, sent1 ++ sent2)
          end
      end
  end.

(** How often a payload with hash [h] occurs in a list. *)
Definition relays (h : Z) (out : list Payload) : nat :=
  length (List.filter (fun p => Hash p =? h) out).

(** ** The cache *)

Lemma cacheHas_In {A : Type} (c : relayCache A) (h : Z) :
  cacheHas c h = true <-> exists x, In (h, x) (queue c).
Proof.
  unfold cacheHas. rewrite existsb_exists. split.
  - intros ([h' x] & Hin & E). simpl in E. apply Z.eqb_eq in E. subst. eauto.
  - intros (x & Hin). exists (h, x). split; [exact Hin|]. simpl. apply Z.eqb_refl.
Qed.

Lemma cacheHas_absent {A : Type} (c : relayCache A) (h : Z) :
  cacheHas c h = false <-> forall x, ~ In (h, x) (queue c).
Proof.
  split.
  - intros Hf x Hin.
    assert (cacheHas c h = true) by (apply cacheHas_In; eauto). congruence.
  - intros Hn. destruct (cacheHas c h) eqn:E; [|reflexivity].
    apply cacheHas_In in E. destruct E as [x Hin]. now apply Hn in Hin.
Qed.

Lemma cacheAdd_has {A : Type} (c : relayCache A) (h : Z) (x : A) :
  cacheHas (cacheAdd c h x) h = true.
Proof.
  apply cacheHas_In. exists x. unfold cacheAdd; simpl.
  apply in_or_app. right. now left.
Qed.

Lemma cacheAdd_bounded {A : Type} (c : relayCache A) (h : Z) (x : A) :
  (0 < maxCap c)%nat ->
  (length (queue c) <= maxCap c)%nat ->
  (length (queue (cacheAdd c h x)) <= maxCap (cacheAdd c h x))%nat.
Proof.
  intros Hpos Hle. unfold cacheAdd; simpl. rewrite length_app. simpl.
  destruct (Nat.leb_spec (maxCap c) (length (queue c))) as [Hfull|Hfree].
  - destruct (queue c); simpl in *; lia.
  - lia.
Qed.

(** An element with fewer than [maxCap - 1] younger ones survives an
    addition, with one more element behind it. *)
Lemma cacheAdd_keeps {A : Type} (c : relayCache A) (h : Z) (x : A)
    (q1 q2 : list (Z * A)) (e : Z * A) :
  queue c = q1 ++ e :: q2 ->
  (length q2 + 1 < maxCap c)%nat ->
  exists q1', queue (cacheAdd c h x) = q1' ++ e :: (q2 ++ [(h, x)]).
Proof.
  intros Hq Hlen. unfold cacheAdd; simpl. rewrite Hq.
  destruct (Nat.leb_spec (maxCap c) (length (q1 ++ e :: q2))) as [Hfull|Hfree].
  - rewrite length_app in Hfull. simpl in Hfull.
    destruct q1 as [|a q1']; simpl in *; [lia|].
    exists q1'. now rewrite <- app_assoc.
  - exists q1. now rewrite <- app_assoc.
Qed.

(** ** [OnPayload] *)

(** The three ways [OnPayload] ends: the payload is relayed, it is
    dropped, or [validatePayload] panics. *)
Lemma OnPayload_relayed (s : service PublicKey) (cp : Payload) :
  (validatePayload s cp = Some true /\ cacheHas (cache s) (Hash cp) = false /\
   exists s1, OnPayload s cp = Some (s1, [cp]) /\
     cache s1 = cacheAdd (cache s) (Hash cp) cp /\
     messages s1 = (if dbft s then messages s ++ [cp] else messages s)) \/
  ((validatePayload s cp = Some false \/
    (validatePayload s cp = Some true /\ cacheHas (cache s) (Hash cp) = true)) /\
   OnPayload s cp = Some (s, [])) \/
  (validatePayload s cp = None /\ OnPayload s cp = None).
Proof.
  unfold OnPayload.
  destruct (validatePayload s cp) as [[|]|]; simpl; [| right; left; auto | right; right; auto].
  destruct (cacheHas (cache s) (Hash cp)); simpl; [right; left; auto|].
  left. split; [reflexivity|]. split; [reflexivity|].
  destruct (dbft s); simpl; eexists; split; try reflexivity; simpl; auto.
Qed.

Lemma broadcast_cache (s s1 : service PublicKey) (p : Payload) (hs : list Z)
    (out : list Payload) :
  broadcast s p hs = Some (s1, out) ->
  exists p', out = [p'] /\ Hash p' = Hash p /\
    cache s1 = cacheAdd (cache s) (Hash p') p'.
Proof.
  unfold broadcast. intros H.
  destruct (Type_ p).
  - destruct hs as [|h hs']; [discriminate|].
    destruct (cacheGet (txx s) h) as [t|]; [|discriminate].
    inversion H; subst. exists (setMinerTx p t). auto.
  - inversion H; subst. exists p. auto.
Qed.

Lemma serve_keeps (h : Z) (evs : list Event) :
  forall (s s2 : service PublicKey) (relayed sent : list Payload)
         (q1 q2 : list (Z * Payload)) (e : Z * Payload),
    fst e = h ->
    queue (cache s) = q1 ++ e :: q2 ->
    (length q2 + length evs < maxCap (cache s))%nat ->
    serve s evs = Some (s2, relayed, sent) ->
    relays h relayed = 0%nat.
Proof.
  induction evs as [|ev rest IH]; intros s s2 relayed sent q1 q2 e He Hq Hlen Hrun;
    simpl in Hrun.
  - inversion Hrun; subst. reflexivity.
  - destruct ev as [cp|p hs].
    + destruct (OnPayload_relayed s cp)
        as [(Hv & Hhas & s1 & Hon & Hc & _)|[(_ & Hsame)|(_ & Hpanic)]].
      * rewrite Hon in Hrun.
        destruct (serve s1 rest) as [[[s3 relayed3] sent3]|] eqn:Hrest; [|discriminate].
        inversion Hrun; subst s3 relayed sent. clear Hrun.
        destruct (cacheAdd_keeps (cache s) (Hash cp) cp q1 q2 e Hq) as [q1' Hq'];
          [simpl in Hlen; lia|].
        rewrite <- Hc in Hq'.
        assert (Hne : (Hash cp =? h) = false).
        { apply Z.eqb_neq. intros Eh.
          assert (Hin : cacheHas (cache s) (Hash cp) = true).
          { apply cacheHas_In. exists (snd e). rewrite Hq, Eh, <- He.
            apply in_or_app. right. left. now destruct e. }
          congruence. }
        unfold relays. simpl. rewrite Hne.
        apply (IH s1 s2 relayed3 sent3 q1' (q2 ++ [(Hash cp, cp)]) e He Hq');
          [|exact Hrest].
        rewrite length_app. simpl. rewrite Hc. simpl. simpl in Hlen. lia.
      * rewrite Hsame in Hrun.
        destruct (serve s rest) as [[[s3 relayed3] sent3]|] eqn:Hrest; [|discriminate].
        inversion Hrun; subst s3 relayed sent. simpl.
        apply (IH s s2 relayed3 sent3 q1 q2 e He Hq); [simpl in Hlen; lia|exact Hrest].
      * rewrite Hpanic in Hrun. discriminate.
    + destruct (broadcast s p hs) as [[s1 out]|] eqn:Hb; [|discriminate].
      destruct (serve s1 rest) as [[[s3 relayed3] sent3]|] eqn:Hrest; [|discriminate].
      inversion Hrun; subst s3 relayed sent. simpl.
      destruct (broadcast_cache s s1 p hs out Hb) as (p' & _ & _ & Hc).
      destruct (cacheAdd_keeps (cache s) (Hash p') p' q1 q2 e Hq) as [q1' Hq'];
        [simpl in Hlen; lia|].
      rewrite <- Hc in Hq'.
      apply (IH s1 s2 relayed3 sent3 q1' (q2 ++ [(Hash p', p')]) e He Hq');
        [|exact Hrest].
      rewrite length_app. simpl. rewrite Hc. simpl. simpl in Hlen. lia.
Qed.


End Relay.

(** ** An instance: one validator, every payload verifies *)

Definition samplePayload (h : Z) : Payload :=
  {| validatorIndex := 0; Hash := h; Type_ := OtherType; minerTx := 0 |}.

(** A service whose one validator is a [*publicKey]. *)
Definition sampleService : service unit :=
  {| cache := newFIFOCache cacheMaxCapacity;
     txx := newFIFOCache cacheMaxCapacity;
     dbft := true;
     messages := [];
     validators := [ecPublicKey tt] |}.

Definition sampleReceive (s : service unit) (ps : list Payload)
  : option (service unit * list Payload) :=
  receive unit (fun _ => 0) (fun _ _ => true) s ps.

(** Payload 0, a hundred other payloads, and payload 0 once more. *)
Definition sampleTraffic : list Payload :=
  map (fun n => samplePayload (Z.of_nat n)) (seq 0 101) ++ [samplePayload 0].


End Consensus.

(** * Native contract calls: [native.Call] *)
Module Native.

(** [smartcontract.ParamType], the return types a method declares. *)
Inductive ParamType :=
| AnyType
| BoolType
| IntegerType
| StringType
| Hash160Type
| VoidType.

(** Why [Call] returns an error. *)
Inductive CallError :=
| ErrNotActive (version : Z)
| ErrNativeNotFound
| ErrMethodNotFound
| ErrMissingCallFlags
| ErrGasLimitExceeded.

(** [big.Int.Int64]: the low 64 bits of the magnitude, with the sign. *)
Definition wrap64 (z : Z) : Z := int64_of_uint64 (z mod 2 ^ 64).
Definition toInt64 (z : Z) : Z :=
  let v := wrap64 (Z.abs z) in
  if z <? 0 then wrap64 (- v) else v.

(** Modelled from the spec: [CallFlag.Has] is not among the sources.  The
    call flags are a bitmask; a mask has the required flags when every
    required bit is set in it. *)
Definition Has (flags required : Z) : bool :=
  Z.land flags required =? required.

(** [interop.MethodAndPrice] with its method descriptor.  Its handler,
    the field [Func], is [Func] of the section below. *)
Record MethodAndPrice := {
  Name : string;
  Offset : Z;
  Parameters : list ParamType;
  ReturnType : ParamType;
  RequiredFlags : Z;
  Price : Z
}.

(** [interop.ContractMD] *)
Record ContractMD := {
  Hash : Z;
  Methods : list MethodAndPrice
}.

(** Modelled from the spec: [GetMethodByOffset] is not among the sources.
    Natives expose their methods at known offsets of a stub script; the
    method is the one declared at the offset. *)
Definition GetMethodByOffset (c : ContractMD) (offset : Z) : option MethodAndPrice :=
  find (fun m => Offset m =? offset) (Methods c).

(** The first element of a list with a property. *)
Definition firstWith {A : Type} (P : A -> Prop) (l : list A) (x : A) : Prop :=
  exists pre post, l = pre ++ x :: post /\ P x /\ forall y, In y pre -> ~ P y.

Section Interop.

(** Stack items, their integer reading ([None]: the conversion panics)
    and the state a native method works on. *)
Variable Item : Type.
Variable BigInt : Item -> option Z.
Variable DAO : Type.

(** An execution context of the VM. *)
Record Context := {
  IP : Z;
  callFlags : Z;
  scriptHash : Z;
  estack : list Item
}.

(** The VM: [context] is the context that is current when [Call]
    starts, the one [Call] keeps in [ctx] over the handler; [istack]
    are the other contexts of the invocation stack. *)
Record VM := {
  gasConsumed : Z;
  GasLimit : Z;
  context : Context;
  istack : list Context
}.

(** [interop.Context] *)
Record InteropContext := {
  vm : VM;
  Natives : list ContractMD;
  dao : DAO
}.

(** [m.Func(ic, args)]: the handler of a method gets the whole interop
    context, which it may change, and the arguments; [None] when it
    panics.  The context holds the natives and with them the handlers,
    so the handlers are kept beside the method records. *)
Variable Func :
  MethodAndPrice -> InteropContext -> list Item -> option (InteropContext * Item).

Inductive CallResult :=
| CallOk (ic : InteropContext)
| CallErr (e : CallError)
| CallPanic.

(** Modelled from the spec: [VM.AddGas] is not among the sources.  The
    gas is added to the consumed amount; an addition that crosses the
    limit faults.  A negative limit is no limit: the tests of the sources
    run their scripts with [GasLimit = -1]. *)
Definition AddGas (v : VM) (gas : Z) : VM * bool :=
  ({| gasConsumed := gasConsumed v + gas; GasLimit := GasLimit v;
      context := context v; istack := istack v |},
   (GasLimit v <? 0) || (gasConsumed v + gas <=? GasLimit v)).

(** The loop over [ic.Natives]. *)
Definition findNative (ic : InteropContext) : option ContractMD :=
  find (fun c => Hash c =? scriptHash (context (vm ic))) (Natives ic).

(** [for i := range args { args[i] = ic.VM.Estack().Pop().Item() }]:
    popping from an empty stack panics. *)
Fixpoint popArgs (n : nat) (st : list Item) : option (list Item * list Item) :=
  match n with
  | O => Some ([], st)
  | S n' =>
      match st with
      | [] => None
      | x :: st' =>
          match popArgs n' st' with
          | Some (args, rest) => Some (x :: args, rest)
          | None => None
          end
      end
  end.

Definition setEstack (c : Context) (st : list Item) : Context :=
  {| IP := IP c; callFlags := callFlags c; scriptHash := scriptHash c; estack := st |}.

Definition setContext (ic : InteropContext) (c : Context) : InteropContext :=
  {| vm := {| gasConsumed := gasConsumed (vm ic); GasLimit := GasLimit (vm ic);
              context := c; istack := istack (vm ic) |};
     Natives := Natives ic;
     dao := dao ic |}.

(** [Call].  The handler runs on the context with the price charged and
    the version and the arguments popped; the result is pushed on the
    stack of [ctx] as the handler left it. *)
Definition Call (ic : InteropContext) : CallResult :=
  match estack (context (vm ic)) with
  | [] => CallPanic
  | v :: st1 =>
      match BigInt v with
      | None => CallPanic
      | Some z =>
          let version := toInt64 z in
          if negb (version =? 0) then CallErr (ErrNotActive version)
          else
            match findNative ic with
            | None => CallErr ErrNativeNotFound
            | Some c =>
                match GetMethodByOffset c (IP (context (vm ic))) with
                | None => CallErr ErrMethodNotFound
                | Some m =>
                    if negb (Has (callFlags (context (vm ic))) (RequiredFlags m))
                    then CallErr ErrMissingCallFlags
                    else
                      let '(vm1, enough) := AddGas (vm ic) (Price m) in
                      if negb enough then CallErr ErrGasLimitExceeded
                      else
                        match popArgs (length (Parameters m)) st1 with
                        | None => CallPanic
                        | Some (args, st2) =>
                            let ic0 :=
                              {| vm := {| gasConsumed := gasConsumed vm1;
                                          GasLimit := GasLimit vm1;
                                          context := setEstack (context vm1) st2;
                                          istack := istack vm1 |};
                                 Natives := Natives ic;
                                 dao := dao ic |} in
                            match Func m ic0 args with
                            | None => CallPanic
                            | Some (ic1, result) =>
                                match ReturnType m with
                                | VoidType => CallOk ic1
                                | _ =>
                                    let ctx := context (vm ic1) in
                                    CallOk (setContext ic1
                                              (setEstack ctx (result :: estack ctx)))
                                end
                            end
                        end
                end
            end
      end
  end.

Lemma popArgs_app (args st : list Item) :
  popArgs (length args) (args ++ st) = Some (args, st).
Proof.
  induction args as [|a args IH]; simpl; [reflexivity|]. now rewrite IH.
Qed.

Lemma popArgs_inv (n : nat) : forall (st args rest : list Item),
  popArgs n st = Some (args, rest) ->
  st = args ++ rest /\ length args = n.
Proof.
  induction n as [|n IH]; intros st args rest; simpl.
  - intros H. inversion H; subst. auto.
  - destruct st as [|x st]; [discriminate|].
    destruct (popArgs n st) as [[args' rest']|] eqn:E; [|discriminate].
    intros H. inversion H; subst. destruct (IH _ _ _ E) as [-> <-]. auto.
Qed.

Lemma popArgs_short (n : nat) : forall (st : list Item),
  (length st < n)%nat -> popArgs n st = None.
Proof.
  induction n as [|n IH]; intros st Hlen; simpl; [lia|].
  destruct st as [|x st]; [reflexivity|].
  rewrite IH by (simpl in Hlen; lia). reflexivity.
Qed.

Lemma popArgs_firstn (n : nat) : forall (st : list Item),
  (n <= length st)%nat -> popArgs n st = Some (firstn n st, skipn n st).
Proof.
  induction n as [|n IH]; intros st Hlen; simpl; [reflexivity|].
  destruct st as [|x st]; simpl in *; [lia|].
  rewrite IH by lia. reflexivity.
Qed.

Lemma find_firstWith {A : Type} (f : A -> bool) (P : A -> Prop) (l : list A) (x : A) :
  (forall y, f y = true <-> P y) ->
  firstWith P l x -> find f l = Some x.
Proof.
  intros Hf (pre & post & -> & Hx & Hpre).
  induction pre as [|a pre IH]; simpl.
  - apply Hf in Hx. now rewrite Hx.
  - destruct (f a) eqn:E.
    + apply Hf in E. exfalso. apply (Hpre a); [now left|exact E].
    + apply IH. intros y Hy. apply Hpre. now right.
Qed.

Lemma find_none_with {A : Type} (f : A -> bool) (P : A -> Prop) (l : list A) :
  (forall y, f y = true <-> P y) ->
  (forall y, In y l -> ~ P y) -> find f l = None.
Proof.
  intros Hf Hall. induction l as [|a l IH]; simpl; [reflexivity|].
  destruct (f a) eqn:E.
  - apply Hf in E. exfalso. apply (Hall a); [now left|exact E].
  - apply IH. intros y Hy. apply Hall. now right.
Qed.

Lemma find_some_firstWith {A : Type} (f : A -> bool) (P : A -> Prop) (l : list A) (x : A) :
  (forall y, f y = true <-> P y) ->
  find f l = Some x -> firstWith P l x.
Proof.
  intros Hf. induction l as [|a l IH]; simpl; [discriminate|].
  destruct (f a) eqn:E.
  - intros H; inversion H; subst. exists [], l. split; [reflexivity|].
    split; [now apply Hf|]. intros y [].
  - intros H. destruct (IH H) as (pre & post & -> & Hx & Hpre).
    exists (a :: pre), post. split; [reflexivity|]. split; [exact Hx|].
    intros y [<-|Hy]; [|now apply Hpre].
    intros Hp. apply Hf in Hp. congruence.
Qed.

(** C6, as the code has it.  [Call] pops the version first and panics
    on an empty stack or a version that is no integer.  It returns an
    error when the version is not zero, when no native contract has the
    current script hash, when the first such native declares no method
    at the current offset, when the context lacks a required call flag,
    or when the price would take the consumed gas over the limit (a
    negative limit being none).  Otherwise the price is charged and the
    declared number of arguments is popped, the first from the top; the
    call panics when the stack holds fewer, or when the handler does.
    The handler gets the context in that state and the arguments, and
    afterwards its result is pushed on the stack of the context exactly
    when the declared return type is not Void; nothing else of what the
    handler left is changed. *)
Theorem Call_spec (ic : InteropContext) :
  (estack (context (vm ic)) = [] -> Call ic = CallPanic) /\
  (forall v st,
     estack (context (vm ic)) = v :: st ->
     (BigInt v = None -> Call ic = CallPanic) /\
     (forall z, BigInt v = Some z ->
        (toInt64 z <> 0 -> Call ic = CallErr (ErrNotActive (toInt64 z))) /\
        (toInt64 z = 0 ->
         ((forall c, In c (Natives ic) -> Hash c <> scriptHash (context (vm ic))) ->
          Call ic = CallErr ErrNativeNotFound) /\
         (forall c,
            firstWith (fun c => Hash c = scriptHash (context (vm ic))) (Natives ic) c ->
            ((forall m, In m (Methods c) -> Offset m <> IP (context (vm ic))) ->
             Call ic = CallErr ErrMethodNotFound) /\
            (forall m,
               firstWith (fun m => Offset m = IP (context (vm ic))) (Methods c) m ->
               (Z.land (callFlags (context (vm ic))) (RequiredFlags m)
                <> RequiredFlags m ->
                Call ic = CallErr ErrMissingCallFlags) /\
               (Z.land (callFlags (context (vm ic))) (RequiredFlags m)
                = RequiredFlags m ->
                (0 <= GasLimit (vm ic) < gasConsumed (vm ic) + Price m ->
                 Call ic = CallErr ErrGasLimitExceeded) /\
                (GasLimit (vm ic) < 0 \/
                 gasConsumed (vm ic) + Price m <= GasLimit (vm ic) ->
                 ((length st < length (Parameters m))%nat ->
                  Call ic = CallPanic) /\
                 ((length (Parameters m) <= length st)%nat ->
                  forall ic0,
                    ic0 = {| vm := {| gasConsumed := gasConsumed (vm ic) + Price m;
                                      GasLimit := GasLimit (vm ic);
                                      context :=
                                        {| IP := IP (context (vm ic));
                                           callFlags := callFlags (context (vm ic));
                                           scriptHash := scriptHash (context (vm ic));
                                           estack := skipn (length (Parameters m)) st |};
                                      istack := istack (vm ic) |};
                             Natives := Natives ic;
                             dao := dao ic |} ->
                    (Func m ic0 (firstn (length (Parameters m)) st) = None ->
                     Call ic = CallPanic) /\
                    (forall ic1 result,
                       Func m ic0 (firstn (length (Parameters m)) st)
                       = Some (ic1, result) ->
                       exists ic',
                         Call ic = CallOk ic' /\
                         (ReturnType m = VoidType -> ic' = ic1) /\
                         (ReturnType m <> VoidType ->
                          estack (context (vm ic'))
                          = result :: estack (context (vm ic1)) /\
                          IP (context (vm ic')) = IP (context (vm ic1)) /\
                          callFlags (context (vm ic'))
                          = callFlags (context (vm ic1)) /\
                          scriptHash (context (vm ic'))
                          = scriptHash (context (vm ic1)) /\
                          gasConsumed (vm ic') = gasConsumed (vm ic1) /\
                          GasLimit (vm ic') = GasLimit (vm ic1) /\
                          istack (vm ic') = istack (vm ic1) /\
                          Natives ic' = Natives ic1 /\
                          dao ic' = dao ic1)))))))))).
Proof.
  unfold Call. split; [intros ->; reflexivity|].
  intros v st ->. split; [intros ->; reflexivity|].
  intros z ->. split.
  { intros Hz. apply Z.eqb_neq in Hz. now rewrite Hz. }
  intros Hz. rewrite Hz. simpl. unfold findNative, GetMethodByOffset. split.
  { intros Hnone.
    rewrite (find_none_with _ (fun c => Hash c = scriptHash (context (vm ic))));
      [reflexivity| |exact Hnone].
    intros y. apply Z.eqb_eq. }
  intros c Hc.
  rewrite (find_firstWith _ _ _ c (fun y => Z.eqb_eq (Hash y) _) Hc). split.
  { intros Hnone.
    rewrite (find_none_with _ (fun m => Offset m = IP (context (vm ic))));
      [reflexivity| |exact Hnone].
    intros y. apply Z.eqb_eq. }
  intros m Hm.
  rewrite (find_firstWith _ _ _ m (fun y => Z.eqb_eq (Offset y) _) Hm).
  unfold Has. split.
  { intros Hf. apply Z.eqb_neq in Hf. now rewrite Hf. }
  intros Hf. apply Z.eqb_eq in Hf. rewrite Hf. simpl. split.
  { intros Hgas.
    destruct (Z.ltb_spec (GasLimit (vm ic)) 0); [lia|].
    destruct (Z.leb_spec (gasConsumed (vm ic) + Price m) (GasLimit (vm ic)));
      [lia|reflexivity]. }
  intros Hgas.
  assert (E : (GasLimit (vm ic) <? 0)
              || (gasConsumed (vm ic) + Price m <=? GasLimit (vm ic)) = true).
  { apply orb_true_iff. destruct Hgas as [H|H];
      [left; now apply Z.ltb_lt | right; now apply Z.leb_le]. }
  rewrite E. simpl. split.
  { intros Hshort. now rewrite popArgs_short. }
  intros Hlen ic0 ->. rewrite popArgs_firstn by exact Hlen.
  unfold setEstack. cbn [gasConsumed GasLimit context istack IP callFlags scriptHash].
  split.
  { intros ->. reflexivity. }
  intros ic1 result ->.
  destruct (ReturnType m) eqn:Hr;
    (eexists; split; [reflexivity|]; split; [try discriminate; reflexivity|];
     intros Hnv; try congruence; simpl; repeat split).
Qed.

(** Whether [Call] returns an error, and which, is settled before any
    argument is popped. *)
Lemma Call_error_cases (ic : InteropContext) (e : CallError) :
  Call ic = CallErr e ->
  exists v st z,
    estack (context (vm ic)) = v :: st /\ BigInt v = Some z /\
    (e = ErrNotActive (toInt64 z) /\ toInt64 z <> 0 \/
     toInt64 z = 0 /\
     (e = ErrNativeNotFound /\ findNative ic = None \/
      exists c, findNative ic = Some c /\
        (e = ErrMethodNotFound /\
         GetMethodByOffset c (IP (context (vm ic))) = None \/
         exists m, GetMethodByOffset c (IP (context (vm ic))) = Some m /\
           (e = ErrMissingCallFlags /\
            Has (callFlags (context (vm ic))) (RequiredFlags m) = false \/
            e = ErrGasLimitExceeded /\
            Has (callFlags (context (vm ic))) (RequiredFlags m) = true /\
            0 <= GasLimit (vm ic) < gasConsumed (vm ic) + Price m)))).
Proof.
  unfold Call.
  destruct (estack (context (vm ic))) as [|v st]; [discriminate|].
  destruct (BigInt v) as [z|] eqn:Hv; [|discriminate].
  intros H. exists v, st, z. split; [reflexivity|]. split; [exact Hv|].
  destruct (Z.eqb_spec (toInt64 z) 0) as [Hz|Hz]; simpl in H.
  2:{ left. inversion H. auto. }
  right. split; [exact Hz|].
  destruct (findNative ic) as [c|]; [|left; inversion H; auto].
  right. exists c. split; [reflexivity|].
  destruct (GetMethodByOffset c (IP (context (vm ic)))) as [m|];
    [|left; inversion H; auto].
  right. exists m. split; [reflexivity|].
  destruct (Has (callFlags (context (vm ic))) (RequiredFlags m)); simpl in H;
    [|left; inversion H; auto].
  right. unfold AddGas in H.
  destruct (Z.ltb_spec (GasLimit (vm ic)) 0) as [Hl|Hl]; simpl in H.
  - destruct (popArgs (length (Parameters m)) st) as [[args st2]|];
      [|discriminate].
    destruct (Func m _ args) as [[ic1 result]|]; [|discriminate].
    destruct (ReturnType m); discriminate.
  - destruct (Z.leb_spec (gasConsumed (vm ic) + Price m) (GasLimit (vm ic)))
      as [Hg|Hg]; simpl in H.
    + destruct (popArgs (length (Parameters m)) st) as [[args st2]|];
        [|discriminate].
      destruct (Func m _ args) as [[ic1 result]|]; [|discriminate].
      destruct (ReturnType m); discriminate.
    + inversion H. split; [reflexivity|]. split; [reflexivity|]. lia.
Qed.

End Interop.

(** ** An instance: integer items, a method that adds its two arguments *)

Definition sampleAdd : MethodAndPrice :=
  {| Name := "add"; Offset := 0; Parameters := [IntegerType; IntegerType];
     ReturnType := IntegerType; RequiredFlags := 1; Price := 10 |}.

(** A method without a result that counts its calls in the state. *)
Definition sampleTouch : MethodAndPrice :=
  {| Name := "touch"; Offset := 7; Parameters := [IntegerType];
     ReturnType := VoidType; RequiredFlags := 1; Price := 5 |}.

Definition sampleNative : ContractMD :=
  {| Hash := 77; Methods := [sampleAdd; sampleTouch] |}.

(** The handlers: [add] returns the sum of its arguments; [touch] adds
    its argument to the state and pushes an item of its own on the
    stack. *)
Definition sampleFunc (m : MethodAndPrice) (ic : InteropContext Z Z)
    (args : list Z) : option (InteropContext Z Z * Z) :=
  if String.eqb (Name m) "add" then
    match args with
    | [a; b] => Some (ic, a + b)
    | _ => None
    end
  else
    match args with
    | [a] =>
        Some ({| vm := {| gasConsumed := gasConsumed Z (vm Z Z ic);
                          GasLimit := GasLimit Z (vm Z Z ic);
                          context :=
                            setEstack Z (context Z (vm Z Z ic))
                              (99 :: estack Z (context Z (vm Z Z ic)));
                          istack := istack Z (vm Z Z ic) |};
                 Natives := Natives Z Z ic;
                 dao := dao Z Z ic + a |}, 0)
    | _ => None
    end.

(** The version, two arguments and an item of the caller's. *)
Definition sampleContext (version : Z) : InteropContext Z Z :=
  {| vm := {| gasConsumed := 0; GasLimit := 100;
              context := {| IP := 0; callFlags := 3; scriptHash := 77;
                            estack := [version; 1; 2; 42] |};
              istack := [] |};
     Natives := [sampleNative];
     dao := 0 |}.

Definition sampleCall (ic : InteropContext Z Z) : CallResult Z Z :=
  Call Z Some Z sampleFunc ic.

(** Version 0: the two arguments are replaced by their sum. *)
Lemma Call_spec_witness :
  exists ic',
    sampleCall (sampleContext 0) = CallOk Z Z ic' /\
    estack Z (context Z (vm Z Z ic')) = [3; 42] /\
    gasConsumed Z (vm Z Z ic') = 10 /\
    dao Z Z ic' = 0.
Proof.
  destruct (Call_spec Z Some Z sampleFunc (sampleContext 0)) as [_ H].
  destruct (H 0 [1; 2; 42] eq_refl) as [_ H0].
  destruct (H0 0 eq_refl) as [_ H1].
  destruct (H1 eq_refl) as [_ H2].
  destruct (H2 sampleNative) as [_ H3].
  { exists [], []. split; [reflexivity|]. split; [reflexivity|]. intros y []. }
  destruct (H3 sampleAdd) as [_ H4].
  { exists [], [sampleTouch]. split; [reflexivity|]. split; [reflexivity|].
    intros y []. }
  destruct (H4 eq_refl) as [_ H5].
  destruct (H5 ltac:(right; simpl; lia)) as [_ H6].
  destruct (H6 ltac:(simpl; lia) _ eq_refl) as [_ H7].
  destruct (H7 _ 3 eq_refl) as (ic' & Hc & _ & Hpush).
  exists ic'. split; [exact Hc|].
  destruct (Hpush ltac:(discriminate)) as (He & _ & _ & _ & Hg & _ & _ & _ & Hd).
  split; [exact He|]. split; [exact Hg|exact Hd].
Defined.

(** A void method: the handler's own changes to the stack and to the
    state stay, nothing is pushed for the result. *)
Example call_touch :
  sampleCall
    {| vm := {| gasConsumed := 0; GasLimit := -1;
                context := {| IP := 7; callFlags := 1; scriptHash := 77;
                              estack := [0; 4; 42] |};
                istack := [] |};
       Natives := [sampleNative]; dao := 1 |}
  = CallOk Z Z
      {| vm := {| gasConsumed := 5; GasLimit := -1;
                  context := {| IP := 7; callFlags := 1; scriptHash := 77;
                                estack := [99; 42] |};
                  istack := [] |};
         Natives := [sampleNative]; dao := 5 |}.
Proof. reflexivity. Qed.

(** A stack with fewer items than the method declares parameters. *)
Example call_short_stack :
  sampleCall
    {| vm := {| gasConsumed := 0; GasLimit := -1;
                context := {| IP := 0; callFlags := 1; scriptHash := 77;
                              estack := [0; 4] |};
                istack := [] |};
       Natives := [sampleNative]; dao := 1 |}
  = CallPanic Z Z.
Proof. reflexivity. Qed.

(** C6 as stated fails: with a version other than zero the call returns
    an error although the method is found at the offset, the call flags
    are held and the gas suffices. *)
Lemma Call_version_guard :
  ~ (forall (ic : InteropContext Z Z) c m,
        findNative Z Z ic = Some c ->
        GetMethodByOffset c (IP Z (context Z (vm Z Z ic))) = Some m ->
        Has (callFlags Z (context Z (vm Z Z ic))) (RequiredFlags m) = true ->
        gasConsumed Z (vm Z Z ic) + Price m <= GasLimit Z (vm Z Z ic) ->
        (length (Parameters m) < length (estack Z (context Z (vm Z Z ic))))%nat ->
        exists ic', sampleCall ic = CallOk Z Z ic').
Proof.
  intros H.
  destruct (H (sampleContext 1) sampleNative sampleAdd) as [ic' Hc];
    try reflexivity; try (simpl; lia).
  discriminate Hc.
Qed.

End Native.

(** * Contract management

    The management contract is exercised by the sources' tests only; its
    state and operations are modelled from the specification. *)
Module Management.

(** [nef.File]: the script and the checksum of the file. *)
Record NefFile := {
  Script : bytes;
  Checksum : Z
}.

(** [manifest.Manifest]: the name; the rest of the manifest is opaque
    here. *)
Record Manifest := {
  Name : string;
  Extra : bytes
}.

(** Modelled from the spec: [state.Contract], the contract state of
    section 3 (id, update counter, hash, script, manifest). *)
Record Contract := {
  ID : Z;
  UpdateCounter : Z;
  Hash : Z;
  CScript : bytes;
  CManifest : Manifest
}.

(** Modelled from the spec: the contract storage of the DAO, contracts by
    hash and the id the next deployed contract gets. *)
Record DAO := {
  contracts : gmap Z Contract;
  nextID : Z
}.

(** An empty store: user contracts are numbered from 1. *)
Definition newDAO : DAO := {| contracts := ∅; nextID := 1 |}.

Inductive MgmtError :=
| ErrAlreadyExists
| ErrNotFound.

(** The four bytes of a [uint32], least significant first: the checksum
    of a NEF file as the spec puts it into the preimage of a hash. *)
Definition le32 (z : Z) : bytes :=
  [byteOf z; byteOf (z / 2 ^ 8); byteOf (z / 2 ^ 16); byteOf (z / 2 ^ 24)].

(** [uint16] increment. *)
Definition inc16 (c : Z) : Z := (c + 1) mod 2 ^ 16.

Section Contracts.

(** [state.CreateContractHash(sender, script)], as the test of the
    sources calls it: the hash of a user contract is computed from the
    sender and the script.  The function itself is not among the
    sources. *)
Variable CreateContractHash : bytes -> bytes -> Z.

(** Modelled from the spec: [Management.GetContract] is not among the
    sources.  It looks the contract up by hash; a hash without a
    contract gives Null (an error in the Go API). *)
Definition GetContract (d : DAO) (h : Z) : option Contract :=
  contracts d !! h.

(** Modelled from the spec: [Management.Deploy] is not among the sources.
    The new contract gets the next positive integer as its id and update
    counter zero; its hash is the one the test of the sources expects,
    [state.CreateContractHash(sender, ne.Script)]; deploying over an
    existing contract fails. *)
Definition Deploy (d : DAO) (sender : bytes) (ne : NefFile) (manif : Manifest)
  : DAO * Contract + MgmtError :=
  let h := CreateContractHash sender (Script ne) in
  match GetContract d h with
  | Some _ => inr ErrAlreadyExists
  | None =>
      let c := {| ID := nextID d; UpdateCounter := 0; Hash := h;
                  CScript := Script ne; CManifest := manif |} in
      inl ({| contracts := <[h := c]> (contracts d); nextID := nextID d + 1 |}, c)
  end.

(** Modelled from the spec: [Management.Update] is not among the sources.
    The contract keeps its id and hash, takes the new script and
    manifest and has its update counter incremented. *)
Definition Update (d : DAO) (h : Z) (ne : NefFile) (manif : Manifest)
  : DAO * Contract + MgmtError :=
  match GetContract d h with
  | None => inr ErrNotFound
  | Some c =>
      let c' := {| ID := ID c; UpdateCounter := inc16 (UpdateCounter c);
                   Hash := Hash c; CScript := Script ne; CManifest := manif |} in
      inl ({| contracts := <[h := c']> (contracts d); nextID := nextID d |}, c')
  end.

(** Modelled from the spec: [Management.Destroy] is not among the
    sources.  It removes the contract. *)
Definition Destroy (d : DAO) (h : Z) : DAO + MgmtError :=
  match GetContract d h with
  | None => inr ErrNotFound
  | Some _ => inl {| contracts := delete h (contracts d); nextID := nextID d |}
  end.

(** The ids handed out so far are below [nextID], which is positive;
    every contract is stored under its own hash and its update counter is
    a [uint16]. *)
Definition wellFormed (d : DAO) : Prop :=
  0 < nextID d /\
  forall h c, contracts d !! h = Some c ->
              Hash c = h /\ 0 < ID c < nextID d /\ 0 <= UpdateCounter c < 2 ^ 16.

Lemma newDAO_wellFormed : wellFormed newDAO.
Proof. split; [reflexivity|]. intros h c H. simpl in H. now rewrite lookup_empty in H. Qed.

Lemma inc16_range (c : Z) : 0 <= inc16 c < 2 ^ 16.
Proof. unfold inc16. apply Z.mod_pos_bound. lia. Qed.

Lemma Deploy_wellFormed (d d' : DAO) sender ne manif (c : Contract) :
  wellFormed d -> Deploy d sender ne manif = inl (d', c) -> wellFormed d'.
Proof.
  intros [Hpos Hall]. unfold Deploy.
  destruct (GetContract d _) eqn:E; [discriminate|].
  intros [= <- <-]. split; simpl; [lia|].
  intros h c0. rewrite lookup_insert. case_decide as Eh.
  - intros [= <-]. simpl. split; [exact Eh|lia].
  - intros H. destruct (Hall _ _ H) as (? & ? & ?). repeat split; try assumption; lia.
Qed.

Lemma Update_wellFormed (d d' : DAO) h ne manif (c : Contract) :
  wellFormed d -> Update d h ne manif = inl (d', c) -> wellFormed d'.
Proof.
  intros [Hpos Hall]. unfold Update, GetContract.
  destruct (contracts d !! h) as [c0|] eqn:E; [|discriminate].
  intros [= <- <-]. split; simpl; [lia|].
  intros h' c1. rewrite lookup_insert. case_decide as Eh.
  - intros [= <-]. simpl. destruct (Hall _ _ E) as (? & ? & ?).
    split; [congruence|]. split; [lia|]. apply inc16_range.
  - apply Hall.
Qed.

Lemma Destroy_wellFormed (d d' : DAO) h :
  wellFormed d -> Destroy d h = inl d' -> wellFormed d'.
Proof.
  intros [Hpos Hall]. unfold Destroy, GetContract.
  destruct (contracts d !! h) as [c0|] eqn:E; [|discriminate].
  intros [= <-]. split; simpl; [lia|].
  intros h' c1. rewrite lookup_delete. case_decide; [discriminate|]. apply Hall.
Qed.

(** C3, as the test of the sources has it.  A deployed contract gets the
    next positive integer as id, update counter zero and the hash
    [CreateContractHash sender script], and is stored with its script
    and manifest; a second deployment by the same sender of the same
    script fails, whatever its manifest is, and takes no id: the next
    contract deployed gets the following id.  An update keeps hash and
    id, stores the new script and manifest and increments the update
    counter (a [uint16]); after Destroy the hash has no contract, and
    the other contracts are still there. *)
Theorem deploy_update_destroy (d : DAO) :
  wellFormed d ->
  (forall sender ne manif,
      GetContract d (CreateContractHash sender (Script ne)) = None ->
      exists d1 c,
        Deploy d sender ne manif = inl (d1, c) /\
        ID c = nextID d /\ 0 < ID c /\
        (forall h' c', GetContract d h' = Some c' -> ID c' < ID c) /\
        UpdateCounter c = 0 /\
        Hash c = CreateContractHash sender (Script ne) /\
        CScript c = Script ne /\ CManifest c = manif /\
        GetContract d1 (Hash c) = Some c /\
        (forall h', h' <> Hash c -> GetContract d1 h' = GetContract d h') /\
        (forall ne' manif',
            Script ne' = Script ne ->
            Deploy d1 sender ne' manif' = inr ErrAlreadyExists) /\
        (forall sender2 ne2 manif2,
            GetContract d1 (CreateContractHash sender2 (Script ne2)) = None ->
            exists d2 c2,
              Deploy d1 sender2 ne2 manif2 = inl (d2, c2) /\
              ID c2 = ID c + 1 /\ GetContract d2 (Hash c) = Some c)) /\
  (forall h c ne manif,
      GetContract d h = Some c ->
      exists d2 c',
        Update d h ne manif = inl (d2, c') /\
        Hash c' = Hash c /\ ID c' = ID c /\
        UpdateCounter c' = inc16 (UpdateCounter c) /\
        (UpdateCounter c < 2 ^ 16 - 1 -> UpdateCounter c' = UpdateCounter c + 1) /\
        CScript c' = Script ne /\ CManifest c' = manif /\
        GetContract d2 h = Some c' /\
        (forall h', h' <> h -> GetContract d2 h' = GetContract d h')) /\
  (forall h c,
      GetContract d h = Some c ->
      exists d3,
        Destroy d h = inl d3 /\ GetContract d3 h = None /\
        (forall h', h' <> h -> GetContract d3 h' = GetContract d h')).
Proof.
  intros [Hpos Hall]. split; [|split].
  - intros sender ne manif E. unfold Deploy. rewrite E.
    eexists _, _. split; [reflexivity|]. simpl.
    split; [reflexivity|]. split; [lia|].
    split; [intros h' c' Hc'; destruct (Hall _ _ Hc') as (_ & ? & _); lia|].
    split; [reflexivity|]. split; [reflexivity|]. split; [reflexivity|].
    split; [reflexivity|].
    split; [unfold GetContract; simpl; apply lookup_insert_eq|].
    split.
    { intros h' Hne. unfold GetContract; simpl.
      apply lookup_insert_ne. congruence. }
    split.
    { intros ne' manif' Hs. unfold GetContract; simpl.
      rewrite Hs. now rewrite lookup_insert_eq. }
    intros sender2 ne2 manif2 E2. rewrite E2.
    eexists _, _. split; [reflexivity|]. simpl. split; [reflexivity|].
    unfold GetContract in *; simpl in *.
    rewrite lookup_insert_ne; [apply lookup_insert_eq|].
    intros Eh. rewrite Eh, lookup_insert_eq in E2. discriminate.
  - intros h c ne manif E. unfold Update. rewrite E.
    eexists _, _. split; [reflexivity|]. simpl.
    split; [reflexivity|]. split; [reflexivity|]. split; [reflexivity|].
    split.
    { intros Hlt. unfold inc16. apply Z.mod_small.
      destruct (Hall _ _ E) as (_ & _ & ?). lia. }
    split; [reflexivity|]. split; [reflexivity|].
    split; [unfold GetContract; simpl; apply lookup_insert_eq|].
    intros h' Hne. unfold GetContract; simpl. apply lookup_insert_ne. congruence.
  - intros h c E. unfold Destroy. rewrite E.
    eexists. split; [reflexivity|]. unfold GetContract; simpl.
    split; [apply lookup_delete_eq|].
    intros h' Hne. apply lookup_delete_ne. congruence.
Qed.

End Contracts.

(** ** An instance: a hash that reads its input as a number *)

Definition sampleHash (b : bytes) : Z :=
  fold_left (fun acc x => acc * 257 + Z.of_N (Byte.to_N x) + 1) b 0.

(** A contract hash of sender and script. *)
Definition sampleCreate (sender script : bytes) : Z :=
  sampleHash (sender ++ script).

Definition sampleSender : bytes := [x01; x02; x03].
Definition sampleNef : NefFile := {| Script := [x40]; Checksum := 7 |}.
Definition sampleManifest (name : string) : Manifest :=
  {| Name := name; Extra := [] |}.

(** The store after the first deployment, and the deployed contract. *)
Definition sampleDeployed : DAO * Contract :=
  match Deploy sampleCreate newDAO sampleSender sampleNef (sampleManifest "Test") with
  | inl r => r
  | inr _ => (newDAO, {| ID := 0; UpdateCounter := 0; Hash := 0; CScript := [];
                         CManifest := sampleManifest EmptyString |})
  end.

Lemma deploy_update_destroy_witness :
  wellFormed newDAO /\
  (exists d1 c,
      Deploy sampleCreate newDAO sampleSender sampleNef (sampleManifest "Test")
        = inl (d1, c) /\
      ID c = 1 /\ UpdateCounter c = 0 /\
      Hash c = sampleCreate sampleSender [x40] /\
      Deploy sampleCreate d1 sampleSender sampleNef (sampleManifest "Other")
        = inr ErrAlreadyExists).
Proof.
  split; [exact newDAO_wellFormed|].
  destruct (deploy_update_destroy sampleCreate newDAO newDAO_wellFormed)
    as (H1 & _ & _).
  destruct (H1 sampleSender sampleNef (sampleManifest "Test") eq_refl)
    as (d1 & c & Hd & Hid & _ & _ & Hc & Hh & _ & _ & _ & _ & Hre & _).
  exists d1, c. split; [exact Hd|]. split; [exact Hid|]. split; [exact Hc|].
  split; [exact Hh|].
  exact (Hre sampleNef (sampleManifest "Other") eq_refl).
Defined.

(** The steps of TestDeployGetUpdateDestroyContract: deploy, deploy
    again, deploy from another sender, update, destroy, look up. *)
Example test_deploy_get_update_destroy :
  exists d1 c1 d2 c2 d3 c3 d4,
    Deploy sampleCreate newDAO sampleSender sampleNef (sampleManifest "Test")
      = inl (d1, c1) /\
    ID c1 = 1 /\ UpdateCounter c1 = 0 /\
    Hash c1 = sampleCreate sampleSender (Script sampleNef) /\
    Deploy sampleCreate d1 sampleSender sampleNef (sampleManifest "Test")
      = inr ErrAlreadyExists /\
    Deploy sampleCreate d1 [x03; x02; x01] sampleNef (sampleManifest "Test")
      = inl (d2, c2) /\
    ID c2 = 2 /\ UpdateCounter c2 = 0 /\
    Hash c2 = sampleCreate [x03; x02; x01] (Script sampleNef) /\
    GetContract d2 (Hash c1) = Some c1 /\
    Update d2 (Hash c1) sampleNef (sampleManifest "Test") = inl (d3, c3) /\
    ID c3 = ID c1 /\ Hash c3 = Hash c1 /\ UpdateCounter c3 = 1 /\
    Destroy d3 (Hash c1) = inl d4 /\
    GetContract d4 (Hash c1) = None.
Proof.
  do 7 eexists. repeat split; try (vm_compute; reflexivity).
Qed.

(** C3 as stated fails on the hash: the hash of a deployed contract is
    computed from the sender and the script, so that two deployments
    that differ in the manifest name only get the same hash, which
    Hash160(sender ‖ checksum ‖ name) is for one of the names at most,
    whatever [CreateContractHash] computes and for every [Hash160] that
    tells the two preimages apart. *)
Lemma contract_hash_ignores_name :
  ~ (exists (CreateContractHash : bytes -> bytes -> Z) (Hash160 : bytes -> Z),
        Hash160 (sampleSender ++ le32 (Checksum sampleNef)
                 ++ String.list_byte_of_string "Test")
        <> Hash160 (sampleSender ++ le32 (Checksum sampleNef)
                    ++ String.list_byte_of_string "Other") /\
        forall name d1 c,
          Deploy CreateContractHash newDAO sampleSender sampleNef
            (sampleManifest name) = inl (d1, c) ->
          Hash c = Hash160 (sampleSender ++ le32 (Checksum sampleNef)
                            ++ String.list_byte_of_string name)).
Proof.
  intros (Create & Hash160 & Hne & H).
  pose proof (H "Test"%string _ _ eq_refl) as H1.
  pose proof (H "Other"%string _ _ eq_refl) as H2.
  cbv beta iota delta [Hash] in H1, H2. apply Hne.
  rewrite <- H1, <- H2. reflexivity.
Qed.

End Management.

(** * Witness checks: [runtime.CheckWitness]

    The interop is exercised by the sources' tests only; it is modelled
    from the specification and the cases of those tests. *)
Module Runtime.

(** Modelled from the spec: [transaction.WitnessScope], one of the five
    scopes of section 3. *)
Inductive WitnessScope :=
| None_
| CalledByEntry
| CustomContracts
| CustomGroups
| Global.

(** [transaction.Signer], with the fields the tests of the sources set. *)
Record Signer := {
  Account : Z;
  Scopes : WitnessScope;
  AllowedContracts : list Z;
  AllowedGroups : list bytes
}.

(** A stored contract, as far as the check reads it: the public keys of
    its manifest groups. *)
Record ContractState := {
  Groups : list bytes
}.

(** What the check sees of the interop context: the script hashes of the
    call chain (the calling one is absent in the entry script), the call
    flags of the current context, the signers of the transaction in the
    container (absent when the container is no transaction), and the
    contract store. *)
Record Context := {
  currentScriptHash : Z;
  callingScriptHash : option Z;
  entryScriptHash : Z;
  callFlags : Z;
  signers : option (list Signer);
  contractState : Z -> option ContractState
}.

Inductive WitnessError :=
| ErrNotTransaction
| ErrMissingAllowStates
| ErrUnknownContract.

(** Equality of public keys, byte by byte. *)
Fixpoint bytesEq (a b : bytes) : bool :=
  match a, b with
  | [], [] => true
  | x :: a', y :: b' => Byte.eqb x y && bytesEq a' b'
  | _, _ => false
  end.

(** Modelled from the spec: the call flags are a bitmask; a flag is held
    when its bits are set. *)
Definition hasFlag (flags required : Z) : bool :=
  Z.land flags required =? required.

(** Some group of the contract is one of the allowed groups. *)
Definition groupAllowed (allowed : list bytes) (groups : list bytes) : bool :=
  existsb (fun a => existsb (fun g => bytesEq g a) groups) allowed.

(** The signer that speaks for account [h]: the first one with it. *)
Definition signerOf (ss : list Signer) (h : Z) : option Signer :=
  find (fun c => Account c =? h) ss.

(** [h] is the hash of the script that called the current one. *)
Definition isCalling (ctx : Context) (h : Z) : bool :=
  match callingScriptHash ctx with
  | Some calling => calling =? h
  | None => false
  end.

Section Check.

(** The [AllowStates] call flag. *)
Variable AllowStates : Z.

(** Modelled from the spec: the scope check of [CheckWitness] is not
    among the sources.  The signer decides by its scope: None gives
    false, Global true, CalledByEntry true in or directly below the entry
    script, CustomContracts true when the current script hash is allowed,
    CustomGroups true when the AllowStates flag is held and a group of
    the contract is allowed.  As TestRuntimeCheckWitness of the sources
    has it, the groups are those of the calling contract, a missing
    AllowStates flag and an unknown calling contract are errors, and the
    entry script has no group. *)
Definition checkScope (ctx : Context) (c : Signer) : bool + WitnessError :=
  match Scopes c with
  | None_ => inl false
  | Global => inl true
  | CalledByEntry =>
      inl (match callingScriptHash ctx with
           | None => true
           | Some calling => calling =? entryScriptHash ctx
           end)
  | CustomContracts =>
      inl (existsb (fun a => a =? currentScriptHash ctx) (AllowedContracts c))
  | CustomGroups =>
      if negb (hasFlag (callFlags ctx) AllowStates) then inr ErrMissingAllowStates
      else
        match callingScriptHash ctx with
        | None => inl false
        | Some calling =>
            match contractState ctx calling with
            | None => inr ErrUnknownContract
            | Some cs => inl (groupAllowed (AllowedGroups c) (Groups cs))
            end
        end
  end.

(** Modelled from the spec: [CheckWitness] is not among the sources.  A
    hash that is the account of a signer of the transaction is checked by
    that signer's scope.  As TestRuntimeCheckWitness of the sources has
    it, a hash without a signer is witnessed when it is the hash of the
    calling script, and otherwise a container that is no transaction is
    an error. *)
Definition CheckWitness (ctx : Context) (h : Z) : bool + WitnessError :=
  match signers ctx with
  | Some ss =>
      match signerOf ss h with
      | Some c => checkScope ctx c
      | None => inl (isCalling ctx h)
      end
  | None => if isCalling ctx h then inl true else inr ErrNotTransaction
  end.

Lemma bytesEq_eq (a b : bytes) : bytesEq a b = true -> a = b.
Proof.
  revert b. induction a as [|x a IH]; intros [|y b]; simpl; try discriminate.
  - reflexivity.
  - intros H. apply andb_prop in H as [E1 E2].
    apply Byte.byte_dec_bl in E1. f_equal; auto.
Qed.

Lemma bytesEq_refl (a : bytes) : bytesEq a a = true.
Proof.
  induction a as [|x a IH]; simpl; [reflexivity|].
  rewrite IH, andb_true_r. apply Byte.byte_dec_lb. reflexivity.
Qed.

Lemma groupAllowed_true (allowed groups : list bytes) :
  groupAllowed allowed groups = true <->
  exists key, In key groups /\ In key allowed.
Proof.
  unfold groupAllowed. rewrite existsb_exists. split.
  - intros (a & Ha & H). apply existsb_exists in H as (g & Hg & E).
    apply bytesEq_eq in E. subst. eauto.
  - intros (key & Hg & Ha). exists key. split; [exact Ha|].
    apply existsb_exists. exists key. split; [exact Hg|apply bytesEq_refl].
Qed.

(** The first signer with an account is the one that speaks for it. *)
Lemma signerOf_first (pre post : list Signer) (c : Signer) :
  Forall (fun c' => Account c' <> Account c) pre ->
  signerOf (pre ++ c :: post) (Account c) = Some c.
Proof.
  unfold signerOf. induction 1 as [|c' pre Hne _ IH]; simpl.
  - now rewrite Z.eqb_refl.
  - apply Z.eqb_neq in Hne. now rewrite Hne.
Qed.

(** C4, in the model: the first signer of the transaction with account
    [h] decides [CheckWitness h] by its scope.  None gives false; Global
    gives true; CustomContracts gives true exactly when the current
    script hash is in the allowed contracts, and false otherwise;
    CustomGroups gives true exactly when the AllowStates flag is held
    and the calling contract has a manifest group in the allowed groups:
    without the flag, or with a calling contract that is not stored, the
    check is an error, and otherwise it gives false. *)
Theorem CheckWitness_scopes (ctx : Context) (pre post : list Signer) (c : Signer) :
  signers ctx = Some (pre ++ c :: post) ->
  Forall (fun c' => Account c' <> Account c) pre ->
  (Scopes c = None_ -> CheckWitness ctx (Account c) = inl false) /\
  (Scopes c = Global -> CheckWitness ctx (Account c) = inl true) /\
  (Scopes c = CustomContracts ->
   (In (currentScriptHash ctx) (AllowedContracts c) ->
    CheckWitness ctx (Account c) = inl true) /\
   (~ In (currentScriptHash ctx) (AllowedContracts c) ->
    CheckWitness ctx (Account c) = inl false)) /\
  (Scopes c = CustomGroups ->
   (Z.land (callFlags ctx) AllowStates <> AllowStates ->
    CheckWitness ctx (Account c) = inr ErrMissingAllowStates) /\
   (Z.land (callFlags ctx) AllowStates = AllowStates ->
    (callingScriptHash ctx = None ->
     CheckWitness ctx (Account c) = inl false) /\
    (forall calling,
       callingScriptHash ctx = Some calling ->
       (contractState ctx calling = None ->
        CheckWitness ctx (Account c) = inr ErrUnknownContract) /\
       (forall cs,
          contractState ctx calling = Some cs ->
          ((exists key, In key (Groups cs) /\ In key (AllowedGroups c)) ->
           CheckWitness ctx (Account c) = inl true) /\
          (~ (exists key, In key (Groups cs) /\ In key (AllowedGroups c)) ->
           CheckWitness ctx (Account c) = inl false)))) /\
   (CheckWitness ctx (Account c) = inl true ->
    Z.land (callFlags ctx) AllowStates = AllowStates /\
    exists calling cs key,
      callingScriptHash ctx = Some calling /\
      contractState ctx calling = Some cs /\
      In key (Groups cs) /\ In key (AllowedGroups c))).
Proof.
  intros Hs Hpre. unfold CheckWitness.
  rewrite Hs, (signerOf_first pre post c Hpre). unfold checkScope.
  split; [|split; [|split]]; intros ->; try reflexivity.
  - split.
    + intros Hin. f_equal. apply existsb_exists.
      exists (currentScriptHash ctx). split; [exact Hin|apply Z.eqb_refl].
    + intros Hnot. f_equal. apply not_true_is_false. intros H.
      apply existsb_exists in H as (a & Ha & E). apply Z.eqb_eq in E.
      subst a. contradiction.
  - unfold hasFlag.
    destruct (Z.eqb_spec (Z.land (callFlags ctx) AllowStates) AllowStates)
      as [Hf|Hf]; simpl.
    + split; [intros Hn; contradiction|]. split.
      * intros _. split; [intros ->; reflexivity|].
        intros calling ->. split; [intros ->; reflexivity|].
        intros cs ->. split.
        -- intros Hex. f_equal. now apply groupAllowed_true.
        -- intros Hnex. f_equal. apply not_true_is_false. intros H.
           apply Hnex. now apply groupAllowed_true.
      * destruct (callingScriptHash ctx) as [calling|]; [|discriminate].
        destruct (contractState ctx calling) as [cs|] eqn:Ecs; [|discriminate].
        intros [= H]. split; [exact Hf|].
        apply groupAllowed_true in H as (key & Hg & Ha).
        exists calling, cs, key. auto.
    + split; [reflexivity|]. split; [intros Hy; contradiction|discriminate].
Qed.

End Check.

(** ** The cases of TestRuntimeCheckWitness *)

(** Script hashes 1 (below) and 2 (on top); the account of the signer is
    5, the contract with hash 1 has the group key 07. *)
Definition testSigner (scope : WitnessScope) (contractsOk : list Z)
    (groups : list bytes) : Signer :=
  {| Account := 5; Scopes := scope;
     AllowedContracts := contractsOk; AllowedGroups := groups |}.

Definition testContext (calling : option Z) (flags : Z) (ss : option (list Signer))
  : Context :=
  {| currentScriptHash := 2; callingScriptHash := calling; entryScriptHash := 1;
     callFlags := flags; signers := ss;
     contractState := fun h => if h =? 1 then Some {| Groups := [[x07]] |} else None |}.

(** The AllowStates flag is bit 0 here, AllowCall bit 2. *)
Example test_not_a_transaction :
  CheckWitness 1 (testContext None 1 None) 5 = inr ErrNotTransaction.
Proof. reflexivity. Qed.

Example test_missing_AllowStates :
  CheckWitness 1 (testContext (Some 1) 4 (Some [testSigner CustomGroups [] []])) 5
  = inr ErrMissingAllowStates.
Proof. reflexivity. Qed.

Example test_unknown_contract :
  CheckWitness 1 (testContext (Some 3) 1 (Some [testSigner CustomGroups [] []])) 5
  = inr ErrUnknownContract.
Proof. reflexivity. Qed.

Example test_calling_scripthash :
  CheckWitness 1 (testContext (Some 1) 1 (Some [testSigner CustomGroups [] []])) 1
  = inl true.
Proof. reflexivity. Qed.

Example test_Global :
  CheckWitness 1 (testContext None 1 (Some [testSigner Global [] []])) 5 = inl true.
Proof. reflexivity. Qed.

Example test_CalledByEntry :
  CheckWitness 1 (testContext None 1 (Some [testSigner CalledByEntry [] []])) 5
  = inl true.
Proof. reflexivity. Qed.

Example test_CustomContracts :
  CheckWitness 1 (testContext None 1 (Some [testSigner CustomContracts [2] []])) 5
  = inl true.
Proof. reflexivity. Qed.

Example test_CustomGroups_empty_calling :
  CheckWitness 1 (testContext None 1 (Some [testSigner CustomGroups [] []])) 5
  = inl false.
Proof. reflexivity. Qed.

Example test_CustomGroups_positive :
  CheckWitness 1 (testContext (Some 1) 1 (Some [testSigner CustomGroups [] [[x07]]])) 5
  = inl true.
Proof. reflexivity. Qed.

Example test_bad_scope :
  CheckWitness 1 (testContext None 1 (Some [testSigner None_ [] []])) 5 = inl false.
Proof. reflexivity. Qed.

(** The signer of the positive CustomGroups case, behind a signer for
    another account. *)
Lemma CheckWitness_scopes_witness :
  CheckWitness 1
    (testContext (Some 1) 1
       (Some [testSigner CustomGroups [] [[x07]];
              {| Account := 6; Scopes := None_; AllowedContracts := [];
                 AllowedGroups := [] |}])) 6
  = inl false /\
  CheckWitness 1
    (testContext (Some 1) 1
       (Some [testSigner CustomGroups [] [[x07]];
              {| Account := 6; Scopes := None_; AllowedContracts := [];
                 AllowedGroups := [] |}])) 5
  = inl true.
Proof.
  split.
  - destruct (CheckWitness_scopes 1
                (testContext (Some 1) 1
                   (Some [testSigner CustomGroups [] [[x07]];
                          {| Account := 6; Scopes := None_; AllowedContracts := [];
                             AllowedGroups := [] |}]))
                [testSigner CustomGroups [] [[x07]]] []
                {| Account := 6; Scopes := None_; AllowedContracts := [];
                   AllowedGroups := [] |} eq_refl)
      as (H & _).
    + constructor; [simpl; lia|constructor].
    + exact (H eq_refl).
  - destruct (CheckWitness_scopes 1
                (testContext (Some 1) 1
                   (Some [testSigner CustomGroups [] [[x07]];
                          {| Account := 6; Scopes := None_; AllowedContracts := [];
                             AllowedGroups := [] |}]))
                [] [{| Account := 6; Scopes := None_; AllowedContracts := [];
                       AllowedGroups := [] |}]
                (testSigner CustomGroups [] [[x07]]) eq_refl)
      as (_ & _ & _ & H).
    + constructor.
    + destruct (H eq_refl) as (_ & H2 & _).
      destruct (H2 eq_refl) as (_ & H3).
      destruct (H3 1 eq_refl) as (_ & H4).
      destruct (H4 {| Groups := [[x07]] |} eq_refl) as (H5 & _).
      apply H5. exists [x07]. split; now left.
Defined.

End Runtime.

(** * Inter-contract calls on isolated stacks

    The virtual machine is exercised by the sources' tests only; a small
    machine with the contexts, the return-value count and the
    Contract.Call interop is modelled from the specification. *)
Module VM.

Local Set Warnings "-register-all".

(** Stack items, as far as the calls below need them. *)
Inductive Item :=
| Null
| Integer (z : Z)
| ByteString (s : string)
| Array (items : list Item).

(** A few opcodes; SYSCALL stands for the System.Contract.Call interop. *)
Inductive Opcode :=
| PUSHINT (z : Z)
| ADD
| SUB
| DROP
| NOP
| RET
| ABORT
| SYSCALL.

(** A method of a contract's ABI: name, offset into the script, number
    of parameters, and whether it returns nothing. *)
Record Method := {
  Name : string;
  Offset : nat;
  ParamCount : nat;
  IsVoid : bool
}.

Record ContractState := {
  Script : list Opcode;
  Methods : list Method
}.

(** Modelled from the spec: an evaluation context with its script,
    instruction pointer, evaluation stack and declared return-value
    count ([None]: any number). *)
Record Context := {
  script : list Opcode;
  ip : nat;
  estack : list Item;
  retCount : option nat
}.

Inductive State :=
| NONE
| HALT
| FAULT.

(** Modelled from the spec: the machine with its invocation stack
    (current context first), its state, the stack left by the last
    context, and the deployed contracts by hash. *)
Record Machine := {
  istack : list Context;
  state : State;
  resultStack : list Item;
  contracts : gmap string ContractState
}.

Definition fault (v : Machine) : Machine :=
  {| istack := istack v; state := FAULT; resultStack := resultStack v;
     contracts := contracts v |}.

Definition withStack (v : Machine) (cs : list Context) : Machine :=
  {| istack := cs; state := state v; resultStack := resultStack v;
     contracts := contracts v |}.

Definition setEstack (c : Context) (st : list Item) : Context :=
  {| script := script c; ip := ip c; estack := st; retCount := retCount c |}.

Definition advance (c : Context) : Context :=
  {| script := script c; ip := S (ip c); estack := estack c; retCount := retCount c |}.

(** Modelled from the spec: the return from a context is not among the
    sources.  Exactly the declared number of items must be on the
    returning context's stack, otherwise the machine faults; they are
    handed to the context below, and a method that declares none hands
    Null.  The last context leaves its stack as the result. *)
Definition doRet (v : Machine) (c : Context) (below : list Context) : Machine :=
  let counted :=
    match retCount c with
    | Some n => Nat.eqb (length (estack c)) n
    | None => true
    end in
  if negb counted then fault v
  else
    let returned :=
      match retCount c with
      | Some O => [Null]
      | _ => estack c
      end in
    match below with
    | [] =>
        {| istack := []; state := HALT; resultStack := estack c;
           contracts := contracts v |}
    | caller :: rest =>
        withStack v (setEstack caller (returned ++ estack caller) :: rest)
    end.

(** Modelled from the spec: the System.Contract.Call interop is not
    among the sources.  It takes the contract hash, the method name and
    the array of arguments from the caller's stack and pushes a context
    for the method whose evaluation stack is its own: it holds the
    arguments and nothing of the caller's.  The context declares one
    return value, or none for a void method. *)
Definition contractCall (v : Machine) (c : Context) (below : list Context) : Machine :=
  match estack c with
  | ByteString h :: ByteString name :: Array args :: st =>
      match contracts v !! h with
      | None => fault v
      | Some cs =>
          match find (fun m => String.eqb (Name m) name) (Methods cs) with
          | None => fault v
          | Some m =>
              if negb (Nat.eqb (length args) (ParamCount m)) then fault v
              else
                let callee :=
                  {| script := Script cs; ip := Offset m; estack := args;
                     retCount := Some (if IsVoid m then 0 else 1)%nat |} in
                withStack v (callee :: setEstack c st :: below)
          end
      end
  | _ => fault v
  end.

(** Modelled from the spec: the decode-dispatch step of the machine is
    not among the sources.  An instruction works on the evaluation stack
    of the current context only; an instruction that finds too few items
    there faults. *)
Definition execute (v : Machine) (op : Opcode) (c : Context) (below : list Context)
  : Machine :=
  match op with
  | PUSHINT z => withStack v (setEstack c (Integer z :: estack c) :: below)
  | ADD =>
      match estack c with
      | Integer b :: Integer a :: st =>
          withStack v (setEstack c (Integer (a + b) :: st) :: below)
      | _ => fault v
      end
  | SUB =>
      match estack c with
      | Integer b :: Integer a :: st =>
          withStack v (setEstack c (Integer (a - b) :: st) :: below)
      | _ => fault v
      end
  | DROP =>
      match estack c with
      | _ :: st => withStack v (setEstack c st :: below)
      | [] => fault v
      end
  | NOP => withStack v (c :: below)
  | RET => doRet v c below
  | ABORT => fault v
  | SYSCALL => contractCall v c below
  end.

(** Modelled from the spec: one step.  The machine halts when the
    invocation stack is empty; a context at the end of its script
    returns. *)
Definition step (v : Machine) : Machine :=
  match state v with
  | NONE =>
      match istack v with
      | [] =>
          {| istack := []; state := HALT; resultStack := resultStack v;
             contracts := contracts v |}
      | c :: below =>
          match nth_error (script c) (ip c) with
          | None => doRet v c below
          | Some op => execute v op (advance c) below
          end
      end
  | _ => v
  end.

(** Modelled from the spec: steps are taken until the machine halts or
    faults. *)
Fixpoint run (fuel : nat) (v : Machine) : Machine :=
  match fuel with
  | O => v
  | S fuel' =>
      match state v with
      | NONE => run fuel' (step v)
      | _ => v
      end
  end.

(** A machine in state NONE with the given invocation stack. *)
Definition running (cs : list Context) (store : gmap string ContractState) : Machine :=
  {| istack := cs; state := NONE; resultStack := []; contracts := store |}.

(** The current instruction of a context. *)
Definition current (c : Context) : option Opcode := nth_error (script c) (ip c).

(** ** Properties *)

(** An instruction other than RET leaves the contexts below the current
    one as they are, and what it does to the current one does not depend
    on them. *)
Lemma step_isolated (c : Context) (op : Opcode) (below below' : list Context)
    (store : gmap string ContractState) :
  current c = Some op -> op <> RET ->
  state (step (running (c :: below) store)) =
    state (step (running (c :: below') store)) /\
  (state (step (running (c :: below) store)) = NONE ->
   exists top,
     istack (step (running (c :: below) store)) = top ++ below /\
     istack (step (running (c :: below') store)) = top ++ below').
Proof.
  intros Hop Hne. unfold current in Hop. unfold step; simpl. rewrite Hop.
  destruct op; try congruence; simpl.
  - split; [reflexivity|]. intros _. now eexists [_].
  - destruct (estack c) as [|[| b | |] [|[| a | |] st]]; simpl;
      try (split; [reflexivity|discriminate]).
    split; [reflexivity|]. intros _. now eexists [_].
  - destruct (estack c) as [|[| b | |] [|[| a | |] st]]; simpl;
      try (split; [reflexivity|discriminate]).
    split; [reflexivity|]. intros _. now eexists [_].
  - destruct (estack c) as [|x st]; simpl; [split; [reflexivity|discriminate]|].
    split; [reflexivity|]. intros _. now eexists [_].
  - split; [reflexivity|]. intros _. now eexists [_].
  - split; [reflexivity|discriminate].
  - unfold contractCall; simpl.
    destruct (estack c) as [|[| | h |] [|[| | name |] [|[| | | args] st]]]; simpl;
      try (split; [reflexivity|discriminate]).
    destruct (store !! h) as [cs|]; simpl; [|split; [reflexivity|discriminate]].
    destruct (find _ (Methods cs)) as [m|]; simpl;
      [|split; [reflexivity|discriminate]].
    destruct (Nat.eqb (length args) (ParamCount m)); simpl;
      [|split; [reflexivity|discriminate]].
    split; [reflexivity|]. intros _. now eexists [_; _].
Qed.

Lemma run_final (fuel : nat) (v : Machine) :
  state v <> NONE -> run fuel v = v.
Proof. destruct fuel; simpl; [reflexivity|]. now destruct (state v). Qed.

Lemma run_step_fault (fuel : nat) (cs : list Context)
    (store : gmap string ContractState) :
  state (step (running cs store)) = FAULT ->
  state (run (S fuel) (running cs store)) = FAULT.
Proof.
  intros H. change (run (S fuel) (running cs store))
    with (run fuel (step (running cs store))).
  rewrite run_final; [exact H|congruence].
Qed.

(** The first method with a name is the one a call by name finds. *)
Lemma find_method (pre post : list Method) (m : Method) :
  Forall (fun m' => Name m' <> Name m) pre ->
  find (fun m' => String.eqb (Name m') (Name m)) (pre ++ m :: post) = Some m.
Proof.
  induction 1 as [|m' pre Hne _ IH]; simpl.
  - now rewrite String.eqb_refl.
  - apply String.eqb_neq in Hne. now rewrite Hne.
Qed.


(** ** The contract of TestContractCall *)

(** The methods add, invalidReturn, justReturn and drop. *)
Definition testContract : ContractState :=
  {| Script := [ABORT; ADD; RET; PUSHINT 1; PUSHINT 2; RET; RET; DROP; RET];
     Methods :=
       [ {| Name := "add"; Offset := 1; ParamCount := 2; IsVoid := false |};
         {| Name := "invalidReturn"; Offset := 3; ParamCount := 0; IsVoid := false |};
         {| Name := "justReturn"; Offset := 6; ParamCount := 0; IsVoid := true |};
         {| Name := "drop"; Offset := 7; ParamCount := 0; IsVoid := true |} ] |}.

Definition testStore : gmap string ContractState := {[ "h"%string := testContract ]}.

(** The calling script is a single RET; it holds 42 below the arguments
    of the call. *)
Definition testCall (name : string) (args : list Item) : Machine :=
  let caller :=
    {| script := [RET]; ip := 0;
       estack := [ByteString "h"; ByteString name; Array args; Integer 42];
       retCount := None |} in
  run 20 (contractCall (running [caller] testStore) caller []).

Example call_add :
  state (testCall "add" [Integer 1; Integer 2]) = HALT /\
  resultStack (testCall "add" [Integer 1; Integer 2]) = [Integer 3; Integer 42].
Proof. split; vm_compute; reflexivity. Qed.

Example call_invalidReturn : state (testCall "invalidReturn" []) = FAULT.
Proof. vm_compute. reflexivity. Qed.

Example call_justReturn :
  state (testCall "justReturn" []) = HALT /\
  resultStack (testCall "justReturn" []) = [Null; Integer 42].
Proof. split; vm_compute; reflexivity. Qed.

Example call_drop : state (testCall "drop" []) = FAULT.
Proof. vm_compute. reflexivity. Qed.

(** The void method called from a script: Null is on the caller's stack
    when the run ends. *)
Example call_justReturn_script :
  state (run 20 (running
           [{| script := [SYSCALL; RET]; ip := 0;
               estack := [ByteString "h"; ByteString "justReturn"; Array [];
                          Integer 42];
               retCount := None |}] testStore)) = HALT /\
  resultStack (run 20 (running
           [{| script := [SYSCALL; RET]; ip := 0;
               estack := [ByteString "h"; ByteString "justReturn"; Array [];
                          Integer 42];
               retCount := None |}] testStore)) = [Null; Integer 42].
Proof. split; vm_compute; reflexivity. Qed.

End VM.

(** * The oracle service's request queue: [pkg/services/oracle]

    [AddRequests], [RemoveRequests], [Start] and the two queue cases of
    the service loop of [oracle.go].  Calls are atomic steps in sequence:
    the maps are accessed under [respMtx], the channel [requestMap] has
    capacity one. *)
Module OracleQueue.
Import Oracle.

(** [map[uint64]*state.OracleRequest] *)
Abbreviation requests := (gmap Z (option OracleRequest)).

(** [time.Duration] is an [int64] count of nanoseconds. *)
Definition maxDuration : Z := 2 ^ 63 - 1.
Definition minDuration : Z := - 2 ^ 63.
Definition Second : Z := 1000000000.
Definition Minute : Z := 60 * Second.
Definition Hour : Z := 60 * Minute.
Definition defaultMaxTaskTimeout : Z := Hour.
Definition defaultRefreshInterval : Z := Minute * 3.

(** [time.Since(t)]: the difference saturates at the ends of
    [time.Duration]. *)
Definition Since (now t : Z) : Z :=
  if now - t >? maxDuration then maxDuration
  else if now - t <? minDuration then minDuration
  else now - t.

(** The [Oracle] struct with its queue: [pending] is [nil] once the
    service runs, [requestMap] is the channel of capacity one (holding a
    map or nothing). *)
Record ServiceT := {
  core : OracleT;
  MaxTaskTimeout : Z;
  RefreshInterval : Z;
  running : bool;
  pending : option requests;
  requestMap : option requests
}.

Definition setPending (s : ServiceT) (p : option requests) : ServiceT :=
  {| core := core s; MaxTaskTimeout := MaxTaskTimeout s;
     RefreshInterval := RefreshInterval s; running := running s;
     pending := p; requestMap := requestMap s |}.

Definition setRequestMap (s : ServiceT) (c : option requests) : ServiceT :=
  {| core := core s; MaxTaskTimeout := MaxTaskTimeout s;
     RefreshInterval := RefreshInterval s; running := running s;
     pending := pending s; requestMap := c |}.

Definition setCore (s : ServiceT) (o : OracleT) : ServiceT :=
  {| core := o; MaxTaskTimeout := MaxTaskTimeout s;
     RefreshInterval := RefreshInterval s; running := running s;
     pending := pending s; requestMap := requestMap s |}.

Definition setTables (o : OracleT) (resp : gmap Z incompleteTx)
    (rem : gmap Z bool) : OracleT :=
  {| Network := Network o; AllowedContentTypes := AllowedContentTypes o;
     NeoFSNodes := NeoFSNodes o; oracleNodes := oracleNodes o;
     responses := resp; removed := rem |}.

(** [NewOracle], lines 122-146: the queue is empty and the service is
    not running; zero durations of the configuration get the defaults. *)
Definition NewOracle (o : OracleT) (maxTaskTimeout refreshInterval : Z)
  : ServiceT :=
  {| core := setTables o ∅ ∅;
     MaxTaskTimeout :=
       if maxTaskTimeout =? 0 then defaultMaxTaskTimeout else maxTaskTimeout;
     RefreshInterval :=
       if refreshInterval =? 0 then defaultRefreshInterval
       else refreshInterval;
     running := false;
     pending := Some ∅;
     requestMap := None |}.

(** [for id, r := range src { dst[id] = r }] *)
Definition mergeInto (src dst : requests) : requests :=
  map_fold (fun id r acc => <[id := r]> acc) dst src.

(** [AddRequests]; [None] is the panic of an assignment to the [nil]
    map.  The map that ends up in the channel is the caller's map [reqs],
    with the waiting map's entries written over it. *)
Definition AddRequests (s : ServiceT) (reqs : requests) : option ServiceT :=
  if (Z.of_nat (size reqs) =? 0) then Some s
  else if negb (running s) then
    match pending s with
    | None => None
    | Some p => Some (setPending s (Some (mergeInto reqs p)))
    end
  else
    match requestMap s with
    | None => Some (setRequestMap s (Some reqs))
    | Some old => Some (setRequestMap s (Some (mergeInto old reqs)))
    end.

(** [for _, id := range ids { delete(m, id) }] *)
Definition deleteAll {A} (ids : list Z) (m : gmap Z A) : gmap Z A :=
  foldl (fun acc id => delete id acc) m ids.

(** [RemoveRequests]: [delete] on the [nil] map does nothing. *)
Definition RemoveRequests (s : ServiceT) (ids : list Z) : ServiceT :=
  if negb (running s) then
    setPending s (option_map (deleteAll ids) (pending s))
  else
    setCore s (setTables (core s) (deleteAll ids (responses (core s)))
                         (removed (core s))).

(** [Start] and the head of [start]: the pending map is sent to the
    channel; [None] when the send would block. *)
Definition Start (s : ServiceT) : option ServiceT :=
  if running s then Some s
  else
    match requestMap s with
    | Some _ => None
    | None =>
        Some {| core := core s; MaxTaskTimeout := MaxTaskTimeout s;
                RefreshInterval := RefreshInterval s; running := true;
                pending := None;
                requestMap := Some (default ∅ (pending s)) |}
    end.

(** [start], lines 232-238: a waiting map is taken from the channel and
    its requests are sent to the workers. *)
Definition dispatch (s : ServiceT) : ServiceT * list request :=
  match requestMap s with
  | None => (s, [])
  | Some reqs =>
      (setRequestMap s None,
       List.map (fun '(id, r) => {| ID := id; Req := r |}) (map_to_list reqs))
  end.

(** [start], lines 214-223: the body of the loop over the table. *)
Definition tickEntry (now maxTask refresh : Z) (id : Z) (incTx : incompleteTx)
    (acc : gmap Z bool * list Z) : gmap Z bool * list Z :=
  let since := Since now (time incTx) in
  if since >? maxTask then (<[id := true]> (fst acc), snd acc)
  else if since >? refresh then (fst acc, snd acc ++ [id])
  else acc.

(** [start], lines 211-231: the ticker case at the time [now]. *)
Definition tick (now : Z) (s : ServiceT) : ServiceT * list request :=
  let acc :=
    map_fold (tickEntry now (MaxTaskTimeout s) (RefreshInterval s))
             (∅, []) (responses (core s)) in
  let resp :=
    map_fold (fun id _ m => delete id m) (responses (core s)) (fst acc) in
  (setCore s (setTables (core s) resp (fst acc)),
   List.map (fun id => {| ID := id; Req := None |}) (snd acc)).

(** The ticker case of the loop at the given times, one after the
    other with nothing in between: the final state and what each tick
    sent to the workers. *)
Fixpoint ticks (nows : list Z) (s : ServiceT) : ServiceT * list (list request) :=
  match nows with
  | [] => (s, [])
  | now :: rest =>
      let '(s1, out) := tick now s in
      let '(s2, outs) := ticks rest s1 in
      (s2, out :: outs)
  end.

(** A sequence of calls made before the service is started. *)
Inductive Op :=
| OpAdd (reqs : requests)
| OpRemove (ids : list Z).

Definition applyOp (s : ServiceT) (op : Op) : option ServiceT :=
  match op with
  | OpAdd reqs => AddRequests s reqs
  | OpRemove ids => Some (RemoveRequests s ids)
  end.

Fixpoint applyOps (s : ServiceT) (ops : list Op) : option ServiceT :=
  match ops with
  | [] => Some s
  | op :: rest =>
      match applyOp s op with
      | None => None
      | Some s1 => applyOps s1 rest
      end
  end.

(** The service is idle: not started, with a pending map and an empty
    channel. *)
Definition idle (s : ServiceT) : Prop :=
  running s = false /\ is_Some (pending s) /\ requestMap s = None.

Lemma mergeInto_lookup (src dst : requests) (id : Z) :
  mergeInto src dst !! id =
  match src !! id with
  | Some r => Some r
  | None => dst !! id
  end.
Proof.
  unfold mergeInto. revert id.
  apply (map_fold_weak_ind
           (fun (acc : requests) (m : requests) =>
              forall id, acc !! id =
                match m !! id with Some r => Some r | None => dst !! id end)).
  - intros id. rewrite lookup_empty. reflexivity.
  - intros i x m r Hi IH id.
    destruct (decide (i = id)) as [->|Hne].
    + rewrite !lookup_insert_eq. reflexivity.
    + rewrite !lookup_insert_ne by exact Hne. apply IH.
Qed.

Lemma deleteAll_lookup {A} (ids : list Z) (m : gmap Z A) (id : Z) :
  deleteAll ids m !! id = if decide (id ∈ ids) then None else m !! id.
Proof.
  unfold deleteAll. revert m.
  induction ids as [|i ids IH]; intros m; simpl.
  - destruct (decide (id ∈ [])) as [H|H]; [inversion H | reflexivity].
  - rewrite IH.
    destruct (decide (id ∈ ids)) as [H|H].
    + rewrite decide_True by (right; exact H). reflexivity.
    + destruct (decide (i = id)) as [->|Hne].
      * rewrite decide_True by left. apply lookup_delete_eq.
      * rewrite lookup_delete_ne by exact Hne.
        rewrite decide_False; [reflexivity|].
        intros Hin. apply elem_of_cons in Hin as [->|Hin]; auto.
Qed.

Lemma size_zero_empty (m : requests) : (Z.of_nat (size m) =? 0) = true <-> m = ∅.
Proof.
  rewrite Z.eqb_eq. split.
  - intros H. apply map_size_empty_iff. lia.
  - intros ->. rewrite map_size_empty. reflexivity.
Qed.

Lemma AddRequests_idle s reqs :
  idle s -> exists s1, AddRequests s reqs = Some s1 /\ idle s1.
Proof.
  intros (Hr & [p Hp] & Hc). unfold AddRequests.
  destruct (Z.of_nat (size reqs) =? 0).
  - exists s. split; [reflexivity|]. repeat split; eauto.
  - rewrite Hr, Hp. simpl. eexists. split; [reflexivity|].
    repeat split; simpl; eauto.
Qed.

Lemma RemoveRequests_idle s ids : idle s -> idle (RemoveRequests s ids).
Proof.
  intros (Hr & [p Hp] & Hc). unfold RemoveRequests. rewrite Hr, Hp. simpl.
  repeat split; simpl; eauto.
Qed.

Lemma applyOps_idle ops : forall s,
  idle s -> exists s1, applyOps s ops = Some s1 /\ idle s1.
Proof.
  induction ops as [|op ops IH]; intros s Hs; simpl.
  - eauto.
  - destruct op as [reqs|ids]; simpl.
    + destruct (AddRequests_idle s reqs Hs) as (s1 & -> & H1). apply IH, H1.
    + apply IH, RemoveRequests_idle, Hs.
Qed.

Lemma NewOracle_idle o a b : idle (NewOracle o a b).
Proof. repeat split; simpl; eauto. Qed.

Lemma deleteKeys_lookup {A B} (m0 : gmap Z A) (rem : gmap Z B) (id : Z) :
  map_fold (fun id _ m => delete id m) m0 rem !! id =
  match rem !! id with
  | Some _ => None
  | None => m0 !! id
  end.
Proof.
  revert id.
  apply (map_fold_weak_ind
           (fun (acc : gmap Z A) (m : gmap Z B) =>
              forall id, acc !! id =
                match m !! id with Some _ => None | None => m0 !! id end)).
  - intros id. rewrite lookup_empty. reflexivity.
  - intros i x m r Hi IH id.
    destruct (decide (i = id)) as [->|Hne].
    + rewrite lookup_delete_eq, lookup_insert_eq. reflexivity.
    + rewrite lookup_delete_ne, lookup_insert_ne by exact Hne. apply IH.
Qed.

Lemma tickEntry_fold (now maxTask refresh : Z) (m : gmap Z incompleteTx) :
  let acc := map_fold (tickEntry now maxTask refresh) (∅, []) m in
  (forall id, fst acc !! id =
     match m !! id with
     | Some e => if Since now (time e) >? maxTask then Some true else None
     | None => None
     end) /\
  (forall id, id ∈ snd acc <->
     exists e, m !! id = Some e /\
       (Since now (time e) >? maxTask) = false /\
       (Since now (time e) >? refresh) = true) /\
  NoDup (snd acc).
Proof.
  cbv zeta.
  apply (map_fold_weak_ind
           (fun (acc : gmap Z bool * list Z) (m : gmap Z incompleteTx) =>
              (forall id, fst acc !! id =
                 match m !! id with
                 | Some e =>
                     if Since now (time e) >? maxTask then Some true else None
                 | None => None
                 end) /\
              (forall id, id ∈ snd acc <->
                 exists e, m !! id = Some e /\
                   (Since now (time e) >? maxTask) = false /\
                   (Since now (time e) >? refresh) = true) /\
              NoDup (snd acc))).
  - split; [|split].
    + intros id. rewrite !lookup_empty. reflexivity.
    + intros id. simpl. split.
      * intros H. inversion H.
      * intros (e & H & _). rewrite lookup_empty in H. discriminate.
    + constructor.
  - intros i x m0 [rem rep] Hi (IH1 & IH2 & IH3). simpl in *.
    unfold tickEntry. simpl.
    destruct (Since now (time x) >? maxTask) eqn:E1; simpl;
      [|destruct (Since now (time x) >? refresh) eqn:E2; simpl].
    + split; [|split].
      * intros id. destruct (decide (i = id)) as [->|Hne].
        -- rewrite !lookup_insert_eq, E1. reflexivity.
        -- rewrite !lookup_insert_ne by exact Hne. apply IH1.
      * intros id. rewrite IH2. split.
        -- intros (e & He & H). exists e. split; [|exact H].
           rewrite lookup_insert_ne; [exact He|]. congruence.
        -- intros (e & He & H1 & H2).
           destruct (decide (i = id)) as [->|Hne].
           ++ rewrite lookup_insert_eq in He. inversion He; subst. congruence.
           ++ rewrite lookup_insert_ne in He by exact Hne. eauto.
      * exact IH3.
    + split; [|split].
      * intros id. destruct (decide (i = id)) as [->|Hne].
        -- rewrite lookup_insert_eq, E1, IH1, Hi. reflexivity.
        -- rewrite lookup_insert_ne by exact Hne. apply IH1.
      * intros id. rewrite elem_of_app, IH2, list_elem_of_singleton. split.
        -- intros [(e & He & H)| ->].
           ++ exists e. split; [|exact H].
              rewrite lookup_insert_ne; [exact He|]. congruence.
           ++ exists x. rewrite lookup_insert_eq. auto.
        -- intros (e & He & H1 & H2).
           destruct (decide (i = id)) as [->|Hne]; [right; reflexivity|].
           rewrite lookup_insert_ne in He by exact Hne. left. eauto.
      * apply NoDup_app. split; [exact IH3|]. split; [|apply NoDup_singleton].
        intros y Hy Hy'. apply list_elem_of_singleton in Hy'. subst y.
        apply IH2 in Hy as (e & He & _). congruence.
    + split; [|split].
      * intros id. destruct (decide (i = id)) as [->|Hne].
        -- rewrite lookup_insert_eq, E1, IH1, Hi. reflexivity.
        -- rewrite lookup_insert_ne by exact Hne. apply IH1.
      * intros id. rewrite IH2. split.
        -- intros (e & He & H). exists e. split; [|exact H].
           rewrite lookup_insert_ne; [exact He|]. congruence.
        -- intros (e & He & H1 & H2).
           destruct (decide (i = id)) as [->|Hne].
           ++ rewrite lookup_insert_eq in He. inversion He; subst. congruence.
           ++ rewrite lookup_insert_ne in He by exact Hne. eauto.
      * exact IH3.
Qed.

Lemma tick_reprocess (now : Z) (s : ServiceT) (id : Z) :
  id ∈ List.map ID (snd (tick now s)) <->
  exists e, responses (core s) !! id = Some e /\
    (Since now (time e) >? MaxTaskTimeout s) = false /\
    (Since now (time e) >? RefreshInterval s) = true.
Proof.
  unfold tick. cbv zeta. cbn [snd].
  rewrite List.map_map. cbn [ID].
  rewrite List.map_id.
  apply (tickEntry_fold now (MaxTaskTimeout s) (RefreshInterval s)).
Qed.

(** X1: [AddRequests] with a non-empty map never loses a request.  Before
    the service runs the requests are written over the pending map (a
    new request for an id replaces the pending one, and the call panics
    when the pending map is nil); once it runs the channel gets the
    union of the waiting map and the new one, in which a request that
    was already waiting for an id is kept and the new one for that id is
    dropped.  Nothing else of the service changes. *)
Theorem AddRequests_merge (s : ServiceT) (reqs : requests) :
  reqs <> ∅ ->
  (running s = true ->
   exists m, AddRequests s reqs = Some (setRequestMap s (Some m)) /\
     forall id, m !! id =
       match default ∅ (requestMap s) !! id with
       | Some r => Some r
       | None => reqs !! id
       end) /\
  (running s = false ->
   match pending s with
   | None => AddRequests s reqs = None
   | Some p =>
       exists m, AddRequests s reqs = Some (setPending s (Some m)) /\
         forall id, m !! id =
           match reqs !! id with
           | Some r => Some r
           | None => p !! id
           end
   end).
Proof.
  intros Hne.
  assert (Hsz : (Z.of_nat (size reqs) =? 0) = false).
  { destruct (Z.of_nat (size reqs) =? 0) eqn:E; [|reflexivity].
    apply size_zero_empty in E. contradiction. }
  unfold AddRequests. rewrite Hsz. split.
  - intros Hr. rewrite Hr. simpl.
    destruct (requestMap s) as [old|]; simpl.
    + eexists. split; [reflexivity|]. intros id. apply mergeInto_lookup.
    + eexists. split; [reflexivity|]. intros id.
      rewrite lookup_empty. reflexivity.
  - intros Hr. rewrite Hr. simpl.
    destruct (pending s) as [p|]; [|reflexivity].
    eexists. split; [reflexivity|]. intros id. apply mergeInto_lookup.
Qed.

(** X2: an empty (or nil) map given to [AddRequests] changes nothing,
    and whatever [AddRequests] and [RemoveRequests] calls are made on a
    new service before it is started, none of them panics, [Start] does
    not block, and the first pass of the service loop sends the workers
    exactly the pending requests: every pending id once, with its
    request, and nothing else; the pending map is nil afterwards. *)
Theorem Start_dispatches_pending (o : OracleT) (maxTask refresh : Z)
    (ops : list Op) :
  exists s p s1,
    applyOps (NewOracle o maxTask refresh) ops = Some s /\
    pending s = Some p /\
    AddRequests s ∅ = Some s /\
    Start s = Some s1 /\
    running s1 = true /\ pending s1 = None /\
    requestMap (fst (dispatch s1)) = None /\
    NoDup (List.map ID (snd (dispatch s1))) /\
    forall id r,
      In {| ID := id; Req := r |} (snd (dispatch s1)) <-> p !! id = Some r.
Proof.
  destruct (applyOps_idle ops _ (NewOracle_idle o maxTask refresh))
    as (s & Hs & Hr & [p Hp] & Hc).
  exists s, p. eexists. split; [exact Hs|]. split; [exact Hp|].
  split; [reflexivity|].
  unfold Start. rewrite Hr, Hc. split; [reflexivity|].
  unfold dispatch. simpl. rewrite Hp. simpl.
  split; [reflexivity|]. split; [reflexivity|]. split; [reflexivity|].
  split.
  - rewrite List.map_map.
    rewrite (List.map_ext _ fst) by (intros [i x]; reflexivity).
    exact (NoDup_fst_map_to_list p).
  - intros id r. rewrite in_map_iff. split.
    + intros ([i x] & Heq & Hin). inversion Heq; subst.
      apply list_elem_of_In in Hin. apply elem_of_map_to_list in Hin. exact Hin.
    + intros H. exists (id, r). split; [reflexivity|].
      apply list_elem_of_In, elem_of_map_to_list, H.
Qed.

Lemma tick_keeps_absent (now : Z) (s : ServiceT) (id : Z) :
  responses (core s) !! id = None ->
  responses (core (fst (tick now s))) !! id = None.
Proof.
  intros Hno. unfold tick. cbv zeta. cbn [fst core setCore responses setTables].
  rewrite deleteKeys_lookup, Hno.
  destruct (fst (map_fold _ _ _) !! id); reflexivity.
Qed.

Lemma ticks_absent (nows : list Z) :
  forall (s : ServiceT) (id : Z) (out : list request),
    responses (core s) !! id = None ->
    out ∈ snd (ticks nows s) ->
    id ∉ List.map ID out.
Proof.
  induction nows as [|now rest IH]; intros s id out Hno Hout; cbn [ticks] in Hout.
  - inversion Hout.
  - pose proof (tick_keeps_absent now s id Hno) as Hno1.
    pose proof (proj1 (tick_reprocess now s id)) as Hrep.
    destruct (tick now s) as [s1 out1]. simpl in Hno1, Hrep.
    specialize (IH s1 id).
    destruct (ticks rest s1) as [s2 outs]. simpl in IH, Hout.
    apply elem_of_cons in Hout as [->|Hout].
    + intros Hin. apply Hrep in Hin as (e & He & _). congruence.
    + apply IH; assumption.
Qed.

(** X3: [RemoveRequests] deletes the given ids from the table of
    incomplete transactions when the service runs and from the pending
    map when it does not, and leaves every other entry, the other table
    and the channel as they are: a request still waiting in the channel
    is not withdrawn.  After a removal from the table, the ticks that
    follow re-process none of the removed ids, for as long as nothing
    but ticks happens: a request that a worker takes from the channel
    afterwards is outside this statement. *)
Theorem RemoveRequests_spec (s : ServiceT) (ids : list Z) :
  running (RemoveRequests s ids) = running s /\
  requestMap (RemoveRequests s ids) = requestMap s /\
  removed (core (RemoveRequests s ids)) = removed (core s) /\
  (forall id,
     responses (core (RemoveRequests s ids)) !! id =
     if running s && bool_decide (id ∈ ids) then None
     else responses (core s) !! id) /\
  (forall id,
     pending (RemoveRequests s ids) ≫= (.!! id) =
     if negb (running s) && bool_decide (id ∈ ids) then None
     else pending s ≫= (.!! id)) /\
  (pending s = None <-> pending (RemoveRequests s ids) = None) /\
  (forall nows id out,
     running s = true -> id ∈ ids ->
     out ∈ snd (ticks nows (RemoveRequests s ids)) ->
     id ∉ List.map ID out).
Proof.
  assert (Htick : forall nows id out,
     running s = true -> id ∈ ids ->
     out ∈ snd (ticks nows (RemoveRequests s ids)) ->
     id ∉ List.map ID out).
  { intros nows id out Hr Hin Hout.
    apply (ticks_absent nows (RemoveRequests s ids) id out); [|exact Hout].
    unfold RemoveRequests. rewrite Hr. simpl.
    rewrite deleteAll_lookup, decide_True by exact Hin. reflexivity. }
  unfold RemoveRequests in *. destruct (running s) eqn:Hr; simpl;
    rewrite ?Hr; repeat split; try tauto; try exact Htick; try discriminate.
  - intros id. rewrite deleteAll_lookup.
    destruct (decide (id ∈ ids)).
    + rewrite bool_decide_eq_true_2 by assumption. reflexivity.
    + rewrite bool_decide_eq_false_2 by assumption. reflexivity.
  - intros id. destruct (pending s) as [p|]; simpl.
    + rewrite deleteAll_lookup.
      destruct (decide (id ∈ ids)).
      * rewrite bool_decide_eq_true_2 by assumption. reflexivity.
      * rewrite bool_decide_eq_false_2 by assumption. reflexivity.
    + destruct (bool_decide (id ∈ ids)); reflexivity.
  - destruct (pending s); simpl; congruence.
  - destruct (pending s); simpl; congruence.
Qed.

(** X4: one tick of the service loop at the time [now] splits the table
    of incomplete transactions by the age [time.Since(incTx.time)] of
    its entries: the entries older than [MaxTaskTimeout] leave the table
    and their ids make up the new [removed] set (the previous set is
    forgotten); the ids of the entries older than [RefreshInterval] but
    not older than [MaxTaskTimeout] are sent to the workers, each once
    and without a request body, and stay in the table; the younger
    entries are left alone.  The queue is not touched. *)
Theorem tick_partition (now : Z) (s : ServiceT) :
  (forall id e,
     responses (core (fst (tick now s))) !! id = Some e <->
     responses (core s) !! id = Some e /\
     Since now (time e) <= MaxTaskTimeout s) /\
  (forall id,
     removed (core (fst (tick now s))) !! id =
     match responses (core s) !! id with
     | Some e =>
         if Since now (time e) >? MaxTaskTimeout s then Some true else None
     | None => None
     end) /\
  (forall id,
     id ∈ List.map ID (snd (tick now s)) <->
     exists e, responses (core s) !! id = Some e /\
       RefreshInterval s < Since now (time e) <= MaxTaskTimeout s) /\
  NoDup (List.map ID (snd (tick now s))) /\
  (forall r, r ∈ snd (tick now s) -> Req r = None) /\
  (forall id,
     id ∈ List.map ID (snd (tick now s)) ->
     is_Some (responses (core (fst (tick now s))) !! id)) /\
  running (fst (tick now s)) = running s /\
  pending (fst (tick now s)) = pending s /\
  requestMap (fst (tick now s)) = requestMap s.
Proof.
  pose proof (tickEntry_fold now (MaxTaskTimeout s) (RefreshInterval s)
                (responses (core s))) as (H1 & H2 & H3).
  cbv zeta in H1, H2, H3.
  assert (Hresp : forall id e,
     responses (core (fst (tick now s))) !! id = Some e <->
     responses (core s) !! id = Some e /\
     Since now (time e) <= MaxTaskTimeout s).
  { intros id e. unfold tick. cbv zeta. cbn [fst core setCore responses setTables].
    rewrite deleteKeys_lookup, H1.
    destruct (responses (core s) !! id) as [e'|] eqn:He.
    - destruct (Z.gtb_spec (Since now (time e')) (MaxTaskTimeout s)).
      + split; [discriminate|]. intros [Heq Hle]. inversion Heq; subst. lia.
      + split.
        * intros Heq. inversion Heq; subst. split; [reflexivity|lia].
        * intros [Heq _]. exact Heq.
    - split; [discriminate|]. intros [Heq _]. discriminate. }
  assert (Hrep : forall id,
     id ∈ List.map ID (snd (tick now s)) <->
     exists e, responses (core s) !! id = Some e /\
       RefreshInterval s < Since now (time e) <= MaxTaskTimeout s).
  { intros id. rewrite tick_reprocess. split.
    - intros (e & He & Ha & Hb). exists e. split; [exact He|].
      apply Z.gtb_lt in Hb.
      destruct (Z.gtb_spec (Since now (time e)) (MaxTaskTimeout s));
        [discriminate|lia].
    - intros (e & He & Ha & Hb). exists e. split; [exact He|]. split.
      + destruct (Z.gtb_spec (Since now (time e)) (MaxTaskTimeout s));
          [lia|reflexivity].
      + apply Z.gtb_lt. lia. }
  split; [exact Hresp|]. split.
  { intros id. unfold tick. cbv zeta. cbn [fst core setCore removed setTables].
    apply H1. }
  split; [exact Hrep|]. split.
  { unfold tick. cbv zeta. cbn [snd]. rewrite List.map_map. cbn [ID].
    rewrite List.map_id. exact H3. }
  split.
  { intros r Hr. unfold tick in Hr. cbv zeta in Hr. cbn [snd] in Hr.
    apply list_elem_of_In, in_map_iff in Hr as (i & <- & _). reflexivity. }
  split.
  { intros id Hid. apply Hrep in Hid as (e & He & Hlt & Hle).
    exists e. apply Hresp. split; assumption. }
  unfold tick. cbv zeta. cbn. auto.
Qed.

(** A started service with request 7 waiting in the channel, and a call
    that brings a new request for 7 and one for 8. *)
Definition sampleWaiting : ServiceT :=
  {| core := sampleOracle; MaxTaskTimeout := Hour;
     RefreshInterval := 3 * Minute; running := true; pending := None;
     requestMap := Some {[ 7 := None ]} |}.

Definition sampleAdded : requests :=
  {[ 7 := Some sampleRequest; 8 := Some sampleRequest ]}.

Lemma AddRequests_merge_witness :
  exists m,
    AddRequests sampleWaiting sampleAdded
    = Some (setRequestMap sampleWaiting (Some m)) /\
    m !! 7 = Some None /\ m !! 8 = Some (Some sampleRequest).
Proof.
  assert (Hne : sampleAdded <> ∅) by apply insert_non_empty.
  destruct (AddRequests_merge sampleWaiting sampleAdded Hne) as [H _].
  destruct (H eq_refl) as (m & Hm & Hl).
  exists m. split; [exact Hm|]. rewrite !Hl. split; reflexivity.
Defined.



(** ** An instance: three entries of different age *)

Definition sampleEntry (t : Z) : incompleteTx :=
  {| isSent := false; attempts := 1; time := t; itRequest := None;
     tx := None; backupTx := None; sigs := ∅; backupSigs := ∅ |}.

(** A new service with the default timeouts, started, with entries that
    are ten minutes, two hours and one minute old at the time
    [3 * Hour]. *)
Definition sampleTicking : ServiceT :=
  {| core := setTables sampleOracle
               {[ 1 := sampleEntry (3 * Hour - 10 * Minute);
                  2 := sampleEntry Hour;
                  3 := sampleEntry (3 * Hour - Minute) ]} ∅;
     MaxTaskTimeout := MaxTaskTimeout (NewOracle sampleOracle 0 0);
     RefreshInterval := RefreshInterval (NewOracle sampleOracle 0 0);
     running := true; pending := None; requestMap := None |}.

Example sample_tick :
  snd (tick (3 * Hour) sampleTicking) = [{| ID := 1; Req := None |}] /\
  removed (core (fst (tick (3 * Hour) sampleTicking))) = {[ 2 := true ]} /\
  responses (core (fst (tick (3 * Hour) sampleTicking)))
  = {[ 1 := sampleEntry (3 * Hour - 10 * Minute);
       3 := sampleEntry (3 * Hour - Minute) ]}.
Proof. vm_compute. repeat split; reflexivity. Qed.


End OracleQueue.

(** * The oracle service's NeoFS requests: [processRequest], lines 167-175 *)
Module OracleFetch.
Import Oracle.

Section NeoFS.

Variable Body : Type.
Variable ParseRequestURI : string -> option URLT.
Variable ParseMediaType : string -> option (string * list (string * string)).
Variable readResponse : Body -> Z -> ReadResult.
Variable MaxOracleResultSize : Z.

(** [resp.Result, err = neofs.Get(ctx, priv, u, node)] and the code set
    from [err]. *)
Definition neofsResult (env : Env Body) (u : URLT) (node : string)
  : OracleResponseCode * bytes :=
  match NeoFSGet env u node with
  | Some b => (Success, b)
  | None => (Error, [])
  end.

Lemma wrap_int_small (z : Z) : 0 <= z < 2 ^ 63 -> wrap_int z = z.
Proof.
  intros H. unfold wrap_int, int64_of_uint64.
  rewrite Z.mod_small by lia.
  destruct (Z.ltb_spec z (2 ^ 63)); lia.
Qed.

Lemma wrap_int_neg (z : Z) : - 2 ^ 63 <= z < 0 -> wrap_int z = z.
Proof.
  intros H. unfold wrap_int, int64_of_uint64.
  replace (z mod 2 ^ 64) with (z + 2 ^ 64).
  - destruct (Z.ltb_spec (z + 2 ^ 64) (2 ^ 63)); lia.
  - apply Z.mod_unique with (q := -1); lia.
Qed.

(** X5: for a request with the [neofs] scheme the node asked is chosen
    round-robin: while the id and the attempt counter are non-negative
    as [int]s and their sum fits, it is the node at index
    [(id + attempts) mod n] of the [n] configured nodes, and the code is
    [Success] or [Error] according to [neofs.Get].  The call panics when
    no node is configured (division by zero), and when the id is [2^63] or
    more, so that [int(req.ID)] is negative, unless the sum is a multiple
    of [n] (negative index). *)
Theorem neofs_node_index (env : Env Body) (o : OracleT) (incTx : incompleteTx)
    (id : Z) (r : OracleRequest) (u : URLT) :
  ParseRequestURI (URL r) = Some u ->
  Scheme u = neofs_URIScheme ->
  (NeoFSNodes o = [] ->
   fetchResponse Body ParseRequestURI ParseMediaType readResponse
     MaxOracleResultSize env o incTx id r = None) /\
  (NeoFSNodes o <> [] ->
   0 <= id -> 0 <= attempts incTx -> id + attempts incTx < 2 ^ 63 ->
   exists node,
     nth_error (NeoFSNodes o)
       (Z.to_nat ((id + attempts incTx)
                    mod Z.of_nat (length (NeoFSNodes o)))) = Some node /\
     fetchResponse Body ParseRequestURI ParseMediaType readResponse
       MaxOracleResultSize env o incTx id r = Some (neofsResult env u node)) /\
  (2 ^ 63 <= id < 2 ^ 64 -> 0 <= attempts incTx ->
   id + attempts incTx < 2 ^ 64 ->
   (2 ^ 64 - id - attempts incTx)
     mod Z.of_nat (length (NeoFSNodes o)) <> 0 ->
   fetchResponse Body ParseRequestURI ParseMediaType readResponse
     MaxOracleResultSize env o incTx id r = None).
Proof.
  intros Hu Hs. unfold fetchResponse. rewrite Hu, Hs.
  change (String.eqb neofs_URIScheme "https") with false.
  change (String.eqb neofs_URIScheme neofs_URIScheme) with true.
  cbv beta iota. split; [|split].
  - intros ->. reflexivity.
  - intros Hne H0 Ha Hlt.
    assert (Hn : 0 < Z.of_nat (length (NeoFSNodes o))).
    { destruct (NeoFSNodes o); [contradiction|simpl; lia]. }
    unfold int_of_uint64, int64_of_uint64.
    destruct (Z.ltb_spec id (2 ^ 63)); [|lia].
    rewrite wrap_int_small by lia.
    unfold go_rem. destruct (Z.eqb_spec (Z.of_nat (length (NeoFSNodes o))) 0);
      [lia|].
    rewrite Z.rem_mod_nonneg by lia.
    pose proof (Z.mod_pos_bound (id + attempts incTx)
                  (Z.of_nat (length (NeoFSNodes o))) Hn) as Hb.
    destruct (Z.ltb_spec ((id + attempts incTx)
                mod Z.of_nat (length (NeoFSNodes o))) 0); [lia|].
    destruct (nth_error (NeoFSNodes o) _) as [node|] eqn:En.
    + exists node. split; [reflexivity|].
      unfold neofsResult. destruct (NeoFSGet env u node); reflexivity.
    + apply nth_error_None in En. lia.
  - intros Hid Ha Hlt Hrem.
    unfold int_of_uint64, int64_of_uint64.
    destruct (Z.ltb_spec id (2 ^ 63)); [lia|].
    rewrite wrap_int_neg by lia.
    unfold go_rem. destruct (Z.eqb_spec (Z.of_nat (length (NeoFSNodes o))) 0);
      [reflexivity|].
    replace (id - 2 ^ 64 + attempts incTx)
      with (- (2 ^ 64 - id - attempts incTx)) by lia.
    rewrite Z.rem_opp_l by lia.
    rewrite Z.rem_mod_nonneg by lia.
    pose proof (Z.mod_pos_bound (2 ^ 64 - id - attempts incTx)
                  (Z.of_nat (length (NeoFSNodes o)))) as Hb.
    destruct (Z.ltb_spec (- ((2 ^ 64 - id - attempts incTx)
                mod Z.of_nat (length (NeoFSNodes o)))) 0); [reflexivity|lia].
Qed.

End NeoFS.

Definition sampleNeoFSParse (s : string) : option URLT :=
  Some {| Scheme := "neofs"; Opaque := s |}.

Definition sampleNeoFSOracle : OracleT :=
  {| Network := 42; AllowedContentTypes := [];
     NeoFSNodes := ["node0"%string; "node1"%string; "node2"%string];
     oracleNodes := []; responses := ∅; removed := ∅ |}.

Definition sampleNeoFSRequest : OracleRequest :=
  {| OriginalTxID := 1; GasForResponse := 1000;
     URL := "neofs:container/object"; Filter := None |}.

Definition sampleAttempt : incompleteTx :=
  {| isSent := false; attempts := 2; time := 0; itRequest := None;
     tx := None; backupTx := None; sigs := ∅; backupSigs := ∅ |}.

(** Request 5 at its third attempt asks node [(5 + 2) mod 3 = 1]. *)
Lemma neofs_node_index_witness :
  fetchResponse unit sampleNeoFSParse sampleMedia sampleRead 65535
    sampleEnv sampleNeoFSOracle sampleAttempt 5 sampleNeoFSRequest
  = Some (neofsResult unit sampleEnv
            {| Scheme := "neofs"; Opaque := "neofs:container/object" |}
            "node1").
Proof.
  destruct (neofs_node_index unit sampleNeoFSParse sampleMedia sampleRead
              65535 sampleEnv sampleNeoFSOracle sampleAttempt 5
              sampleNeoFSRequest
              {| Scheme := "neofs"; Opaque := "neofs:container/object" |}
              eq_refl eq_refl) as (_ & H & _).
  destruct H as (node & Hn & Hf).
  - discriminate.
  - lia.
  - simpl; lia.
  - simpl; lia.
  - vm_compute in Hn. inversion Hn; subst node. exact Hf.
Defined.

End OracleFetch.

(** * The persist hooks of the native contracts: [OnPersist], [PostPersist] *)
Module NativePersist.

(** Modelled from the spec: the [trigger] package is not among the
    sources; the trigger kinds of an invocation context are OnPersist,
    PostPersist, Application and Verification. *)
Inductive TriggerType :=
| TOnPersist
| TPostPersist
| TApplication
| TVerification.

Definition triggerEqb (a b : TriggerType) : bool :=
  match a, b with
  | TOnPersist, TOnPersist | TPostPersist, TPostPersist
  | TApplication, TApplication | TVerification, TVerification => true
  | _, _ => false
  end.

Section Hooks.

(** The state the hooks work on (the DAO and the rest of the context)
    and the errors they return. *)
Variable State : Type.
Variable Err : Type.

(** [interop.Contract], its two hooks: a hook changes the state and may
    return an error. *)
Record Contract := {
  cOnPersist : State -> State * option Err;
  cPostPersist : State -> State * option Err
}.

(** [interop.Context] *)
Record Context := {
  Trigger : TriggerType;
  Natives : list Contract;
  state : State
}.

Inductive PersistError :=
| ErrNotSystem
| ErrHook (e : Err).

(** [for _, c := range ic.Natives { err := hook(c, ic); if err != nil
    { return err } }; return nil] *)
Fixpoint runHooks (hook : Contract -> State -> State * option Err)
    (cs : list Contract) (st : State) : State * option PersistError :=
  match cs with
  | [] => (st, None)
  | c :: rest =>
      match hook c st with
      | (st1, Some e) => (st1, Some (ErrHook e))
      | (st1, None) => runHooks hook rest st1
      end
  end.

(** [OnPersist] *)
Definition OnPersist (ic : Context) : State * option PersistError :=
  if negb (triggerEqb (Trigger ic) TOnPersist) then (state ic, Some ErrNotSystem)
  else runHooks cOnPersist (Natives ic) (state ic).

(** [PostPersist] *)
Definition PostPersist (ic : Context) : State * option PersistError :=
  if negb (triggerEqb (Trigger ic) TPostPersist) then (state ic, Some ErrNotSystem)
  else runHooks cPostPersist (Natives ic) (state ic).

(** The state after the hooks of [cs] have run one after the other. *)
Definition after (hook : Contract -> State -> State * option Err)
    (cs : list Contract) (st : State) : State :=
  fold_left (fun s c => fst (hook c s)) cs st.

(** The hooks of [cs] all return without an error, each on the state the
    ones before it left. *)
Fixpoint allSucceed (hook : Contract -> State -> State * option Err)
    (cs : list Contract) (st : State) : Prop :=
  match cs with
  | [] => True
  | c :: rest =>
      snd (hook c st) = None /\ allSucceed hook rest (fst (hook c st))
  end.

Lemma runHooks_spec hook cs : forall st,
  match snd (runHooks hook cs st) with
  | None =>
      allSucceed hook cs st /\ fst (runHooks hook cs st) = after hook cs st
  | Some err =>
      exists pre c post e,
        cs = pre ++ c :: post /\ err = ErrHook e /\
        allSucceed hook pre st /\
        hook c (after hook pre st) = (fst (runHooks hook cs st), Some e)
  end.
Proof.
  induction cs as [|c cs IH]; intros st; simpl.
  - split; [exact I|reflexivity].
  - destruct (hook c st) as [st1 [e|]] eqn:Hc; simpl.
    + exists [], c, cs, e. simpl. repeat split. exact Hc.
    + specialize (IH st1).
      destruct (snd (runHooks hook cs st1)) as [err|].
      * destruct IH as (pre & c' & post & e & -> & -> & Hall & Hh).
        exists (c :: pre), c', post, e.
        split; [reflexivity|]. split; [reflexivity|].
        unfold after in *. cbn [allSucceed fold_left]. rewrite Hc.
        cbn [fst snd]. repeat split; assumption.
      * destruct IH as [Hall Hst]. unfold after in *.
        cbn [allSucceed fold_left]. rewrite ?Hc. cbn [fst snd].
        repeat split; assumption.
Qed.

(** X6: [OnPersist] and [PostPersist] refuse a context whose trigger is
    not theirs, with an error and without running any hook, so that no
    context passes both.  With the right trigger the natives' hooks run
    in the order of [ic.Natives], each on the state the previous ones
    left; the first error stops the loop and is returned, and the
    natives after the failing one are not run. *)
Theorem persist_hooks_spec (ic : Context) :
  (Trigger ic <> TOnPersist -> OnPersist ic = (state ic, Some ErrNotSystem)) /\
  (Trigger ic <> TPostPersist ->
   PostPersist ic = (state ic, Some ErrNotSystem)) /\
  (snd (OnPersist ic) = Some ErrNotSystem \/
   snd (PostPersist ic) = Some ErrNotSystem) /\
  (Trigger ic = TOnPersist ->
   match snd (OnPersist ic) with
   | None =>
       allSucceed cOnPersist (Natives ic) (state ic) /\
       fst (OnPersist ic) = after cOnPersist (Natives ic) (state ic)
   | Some err =>
       exists pre c post e,
         Natives ic = pre ++ c :: post /\ err = ErrHook e /\
         allSucceed cOnPersist pre (state ic) /\
         cOnPersist c (after cOnPersist pre (state ic))
         = (fst (OnPersist ic), Some e)
   end) /\
  (Trigger ic = TPostPersist ->
   match snd (PostPersist ic) with
   | None =>
       allSucceed cPostPersist (Natives ic) (state ic) /\
       fst (PostPersist ic) = after cPostPersist (Natives ic) (state ic)
   | Some err =>
       exists pre c post e,
         Natives ic = pre ++ c :: post /\ err = ErrHook e /\
         allSucceed cPostPersist pre (state ic) /\
         cPostPersist c (after cPostPersist pre (state ic))
         = (fst (PostPersist ic), Some e)
   end).
Proof.
  unfold OnPersist, PostPersist.
  split; [|split; [|split; [|split]]].
  - intros H. destruct (Trigger ic); try reflexivity. contradiction.
  - intros H. destruct (Trigger ic); try reflexivity. contradiction.
  - destruct (Trigger ic); simpl; auto.
  - intros ->. simpl. apply runHooks_spec.
  - intros ->. simpl. apply runHooks_spec.
Qed.

End Hooks.


(** ** An instance: the state records which hooks have run *)

Definition sampleHook (id : nat) (fails : bool) : Contract (list nat) nat :=
  {| cOnPersist := fun st => (st ++ [id], if fails then Some id else None);
     cPostPersist := fun st => (st ++ [id], None) |}.

Definition sampleNatives : list (Contract (list nat) nat) :=
  [sampleHook 1 false; sampleHook 2 true; sampleHook 3 false].

(** The second native fails: the third is not run. *)
Example sample_OnPersist_stops :
  OnPersist (list nat) nat
    {| Trigger := TOnPersist; Natives := sampleNatives; state := [] |}
  = ([1; 2]%nat, Some (ErrHook nat 2%nat)).
Proof. reflexivity. Qed.

Example sample_PostPersist_all :
  PostPersist (list nat) nat
    {| Trigger := TPostPersist; Natives := sampleNatives; state := [] |}
  = ([1; 2; 3]%nat, None).
Proof. reflexivity. Qed.

Example sample_OnPersist_application :
  OnPersist (list nat) nat
    {| Trigger := TApplication; Natives := sampleNatives; state := [] |}
  = ([], Some (ErrNotSystem nat)).
Proof. reflexivity. Qed.


End NativePersist.

(** * The redeem scripts and the order of the keys *)
Module ScriptOrder.
Import Smartcontract.

Section BLS.

(** [sort.Slice]: the library's algorithm is left open; what is known of
    the result is stated where it is used. *)
Variable sortSlice : list bytes -> list bytes.

Variable Opcode : Type.
Variable CHECKBLS : Opcode.
Variable EmitInt : bytes -> Z -> option bytes.
Variable EmitBytes : bytes -> bytes -> option bytes.
Variable EmitOpcode : bytes -> Opcode -> option bytes.

(** The loop [for i := range pubs]. *)
Fixpoint emitAll (buf : bytes) (pubs : list bytes) : option bytes :=
  match pubs with
  | [] => Some buf
  | p :: rest =>
      match EmitBytes buf p with
      | None => None
      | Some buf' => emitAll buf' rest
      end
  end.

(** [CreateBLSMultisigScript]: the result, and the caller's slice [pubs]
    after the call (it is sorted in place). *)
Definition CreateBLSMultisigScript (m : Z) (pubs : list bytes)
  : ScriptResult * list bytes :=
  let sorted := sortSlice pubs in
  (match EmitInt [] m with
   | None => Failed ErrEmit
   | Some b1 =>
       match emitAll b1 sorted with
       | None => Failed ErrEmit
       | Some b2 =>
           match EmitInt b2 (Z.of_nat (length sorted)) with
           | None => Failed ErrEmit
           | Some b3 =>
               match EmitOpcode b3 CHECKBLS with
               | None => Failed ErrEmit
               | Some b4 => Script b4
               end
           end
       end
   end, sorted).

End BLS.

(** The byte strings of a list are in the order of [bytes.Compare]. *)
Definition bytesInOrder (l : list bytes) : Prop :=
  Sorted (fun a b => bytesLess b a = false) l.

(** ** Ordered lists with the same elements are equal *)

Section Unique.

Variable A : Type.
Variable R : A -> A -> Prop.
Hypothesis R_trans : forall a b c, R a b -> R b c -> R a c.
Hypothesis R_antisym : forall a b, R a b -> R b a -> a = b.

Lemma sorted_head_least (a : A) (l : list A) :
  Sorted R (a :: l) -> forall x, In x l -> R a x.
Proof.
  intros Hs. apply Sorted_StronglySorted in Hs.
  - apply StronglySorted_inv in Hs as [_ Hall].
    intros x Hx. rewrite List.Forall_forall in Hall. apply Hall, Hx.
  - intros x y z. apply R_trans.
Qed.

Lemma sorted_perm_unique (l1 : list A) : forall l2,
  Sorted R l1 -> Sorted R l2 -> Permutation l1 l2 -> l1 = l2.
Proof.
  induction l1 as [|a l1 IH]; intros l2 H1 H2 Hp.
  - apply Permutation_nil in Hp. congruence.
  - destruct l2 as [|b l2].
    + apply Permutation_sym, Permutation_nil in Hp. discriminate.
    + assert (Hab : a = b).
      { assert (Ha : In a (b :: l2))
          by (eapply Permutation_in; [exact Hp|left; reflexivity]).
        assert (Hb : In b (a :: l1))
          by (eapply Permutation_in;
              [apply Permutation_sym; exact Hp|left; reflexivity]).
        destruct Ha as [Ha|Ha]; [congruence|].
        destruct Hb as [Hb|Hb]; [congruence|].
        apply R_antisym.
        - eapply sorted_head_least; eassumption.
        - eapply sorted_head_least; eassumption. }
      subst b. f_equal. apply IH.
      * apply Sorted_inv in H1. tauto.
      * apply Sorted_inv in H2. tauto.
      * eapply Permutation_cons_inv; exact Hp.
Qed.

End Unique.

(** ** [bytes.Compare] is a total order *)

Lemma byteCmp_eq (x y : Byte.byte) : byteCmp x y = Eq <-> x = y.
Proof.
  unfold byteCmp. rewrite N.compare_eq_iff. split.
  - intros H. pose proof (Byte.of_to_N x) as Hx.
    rewrite H, Byte.of_to_N in Hx. congruence.
  - intros ->. reflexivity.
Qed.

Lemma byteCmp_opp (x y : Byte.byte) : byteCmp y x = CompOpp (byteCmp x y).
Proof. unfold byteCmp. apply N.compare_antisym. Qed.

Lemma byteCmp_trans (x y z : Byte.byte) (c : comparison) :
  byteCmp x y = c -> byteCmp y z = c -> byteCmp x z = c.
Proof.
  unfold byteCmp. destruct c; intros H1 H2.
  - apply N.compare_eq_iff in H1, H2. apply N.compare_eq_iff. congruence.
  - rewrite N.compare_lt_iff in *. lia.
  - rewrite N.compare_gt_iff in *. lia.
Qed.

Lemma bytesLess_antisym (a b : bytes) :
  bytesLess b a = false -> bytesLess a b = false -> a = b.
Proof.
  unfold bytesLess, bytesCompare. intros H1 H2.
  rewrite (list_compare_antisym byteCmp byteCmp_eq a b byteCmp_opp) in H1.
  destruct (list_compare byteCmp a b) eqn:E; try discriminate.
  apply (list_compare_refl byteCmp byteCmp_eq) in E. exact E.
Qed.

Lemma bytesLess_trans (a b c : bytes) :
  bytesLess b a = false -> bytesLess c b = false -> bytesLess c a = false.
Proof.
  unfold bytesLess, bytesCompare. intros H1 H2.
  rewrite (list_compare_antisym byteCmp byteCmp_eq a b byteCmp_opp) in H1.
  rewrite (list_compare_antisym byteCmp byteCmp_eq b c byteCmp_opp) in H2.
  rewrite (list_compare_antisym byteCmp byteCmp_eq a c byteCmp_opp).
  destruct (list_compare byteCmp a b) eqn:E1; try discriminate;
    destruct (list_compare byteCmp b c) eqn:E2; try discriminate.
  - apply (list_compare_refl byteCmp byteCmp_eq) in E1, E2. subst.
    replace (list_compare byteCmp c c) with Eq; [reflexivity|].
    symmetry. apply (list_compare_refl byteCmp byteCmp_eq). reflexivity.
  - apply (list_compare_refl byteCmp byteCmp_eq) in E1. subst. rewrite E2.
    reflexivity.
  - apply (list_compare_refl byteCmp byteCmp_eq) in E2. subst. rewrite E1.
    reflexivity.
  - rewrite (list_compare_trans byteCmp byteCmp_eq a b c byteCmp_trans
               byteCmp_opp E1 E2). reflexivity.
Qed.

Lemma bytesLess_asym (a b : bytes) :
  bytesLess a b = true -> bytesLess b a = false.
Proof.
  unfold bytesLess, bytesCompare. intros H.
  rewrite (list_compare_antisym byteCmp byteCmp_eq a b byteCmp_opp).
  destruct (list_compare byteCmp a b); try discriminate. reflexivity.
Qed.

Lemma emitAll_total (EmitBytes : bytes -> bytes -> option bytes)
    (pubs : list bytes) :
  (forall b x, EmitBytes b x <> None) ->
  forall buf, exists buf', emitAll EmitBytes buf pubs = Some buf'.
Proof.
  intros Hb. induction pubs as [|p rest IH]; intros buf; simpl.
  - eauto.
  - destruct (EmitBytes buf p) as [buf'|] eqn:E.
    + apply IH.
    + now apply Hb in E.
Qed.

Section KeyOrder.

Variable PublicKey : Type.
Variable keyBytes : PublicKey -> bytes.
Variable Less : PublicKey -> PublicKey -> bool.
Variable sortKeys : list PublicKey -> list PublicKey.
Variable sortSlice : list bytes -> list bytes.
Variable Opcode : Type.
Variable CHECKMULTISIG CHECKBLS : Opcode.
Variable EmitInt : bytes -> Z -> option bytes.
Variable EmitBytes : bytes -> bytes -> option bytes.
Variable EmitOpcode : bytes -> Opcode -> option bytes.

(** X7: the multi-signature redeem script does not depend on the order
    in which the keys are given: when the order of [keys.PublicKeys] is
    total and [sort.Sort] orders its argument, two lists with the same
    keys give the same result (the same script, or the same error). *)
Theorem CreateMultiSigRedeemScript_order_independent (m : Z)
    (keys1 keys2 : list PublicKey) :
  (forall a b, Less b a = false -> Less a b = false -> a = b) ->
  (forall a b c, Less b a = false -> Less c b = false -> Less c a = false) ->
  (forall l, Permutation l (sortKeys l) /\
             inOrder PublicKey Less (sortKeys l)) ->
  Permutation keys1 keys2 ->
  CreateMultiSigRedeemScript PublicKey keyBytes sortKeys Opcode CHECKMULTISIG
    EmitInt EmitBytes EmitOpcode m keys1
  = CreateMultiSigRedeemScript PublicKey keyBytes sortKeys Opcode CHECKMULTISIG
      EmitInt EmitBytes EmitOpcode m keys2.
Proof.
  intros Hanti Htrans Hsort Hp.
  assert (Hs : sortKeys keys1 = sortKeys keys2).
  { destruct (Hsort keys1) as [Hp1 Hs1]. destruct (Hsort keys2) as [Hp2 Hs2].
    apply (sorted_perm_unique PublicKey (fun a b => Less b a = false)).
    - intros a b c. apply Htrans.
    - intros a b. apply Hanti.
    - exact Hs1.
    - exact Hs2.
    - rewrite <- Hp1, <- Hp2. exact Hp. }
  unfold CreateMultiSigRedeemScript.
  rewrite Hs, (Permutation_length Hp). reflexivity.
Qed.

(** What the emitters of package [vm] append: the encoding of an
    integer, of a byte string and of an opcode. *)
Variable encInt : Z -> bytes.
Variable encBytes : bytes -> bytes.
Variable encOpcode : Opcode -> bytes.

Lemma emitAll_appends (pubs : list bytes) :
  (forall b x, EmitBytes b x = Some (b ++ encBytes x)) ->
  forall buf, emitAll EmitBytes buf pubs = Some (buf ++ flat_map encBytes pubs).
Proof.
  intros Hb. induction pubs as [|p rest IH]; intros buf; simpl.
  - now rewrite app_nil_r.
  - rewrite Hb, IH. now rewrite <- app_assoc.
Qed.

(** X8: [CreateBLSMultisigScript] checks none of its parameters: with
    emitters that append their encodings to the buffer it returns a
    script for every [m] and every list of keys, and the script is the
    encoded [m], followed by the encoded keys in the order of
    [bytes.Compare] (all the keys given, each as often as given), the
    encoded number of keys and the CHECKBLS opcode.  The result does not
    depend on the order in which the keys are given, and the caller's
    slice is left sorted. *)
Theorem CreateBLSMultisigScript_spec (m : Z) (pubs pubs' : list bytes) :
  (forall l, Permutation l (sortSlice l) /\ bytesInOrder (sortSlice l)) ->
  ((forall b i, EmitInt b i = Some (b ++ encInt i)) ->
   (forall b x, EmitBytes b x = Some (b ++ encBytes x)) ->
   (forall b op, EmitOpcode b op = Some (b ++ encOpcode op)) ->
   exists sorted,
     Permutation pubs sorted /\ bytesInOrder sorted /\
     CreateBLSMultisigScript sortSlice Opcode CHECKBLS EmitInt EmitBytes
       EmitOpcode m pubs
     = (Script (encInt m ++ flat_map encBytes sorted ++
                encInt (Z.of_nat (length pubs)) ++ encOpcode CHECKBLS),
        sorted)) /\
  (Permutation pubs pubs' ->
   CreateBLSMultisigScript sortSlice Opcode CHECKBLS EmitInt EmitBytes
     EmitOpcode m pubs
   = CreateBLSMultisigScript sortSlice Opcode CHECKBLS EmitInt EmitBytes
       EmitOpcode m pubs').
Proof.
  intros Hsort. split.
  - intros Hi Hb Ho. exists (sortSlice pubs).
    destruct (Hsort pubs) as [Hp Hs]. split; [exact Hp|]. split; [exact Hs|].
    unfold CreateBLSMultisigScript.
    rewrite <- (Permutation_length Hp).
    rewrite Hi. simpl. rewrite (emitAll_appends _ Hb), Hi, Ho.
    rewrite <- !app_assoc. reflexivity.
  - intros Hp.
    assert (Hs : sortSlice pubs = sortSlice pubs').
    { destruct (Hsort pubs) as [Hp1 Hs1]. destruct (Hsort pubs') as [Hp2 Hs2].
      apply (sorted_perm_unique bytes (fun a b => bytesLess b a = false)).
      - intros a b c. apply bytesLess_trans.
      - intros a b. apply bytesLess_antisym.
      - exact Hs1.
      - exact Hs2.
      - rewrite <- Hp1, <- Hp2. exact Hp. }
    unfold CreateBLSMultisigScript. rewrite Hs. reflexivity.
Qed.

End KeyOrder.

(** The keys 5, 3, 4 in two orders. *)
Lemma CreateMultiSigRedeemScript_order_witness :
  sampleScript 2 [5; 3; 4] = sampleScript 2 [4; 5; 3].
Proof.
  apply (CreateMultiSigRedeemScript_order_independent Z sampleKeyBytes Z.ltb
           (sortBy Z.ltb) Byte.byte xae sampleEmitInt sampleEmitBytes
           sampleEmitOpcode 2 [5; 3; 4] [4; 5; 3]).
  - intros a b H1 H2. apply Z.ltb_ge in H1, H2. lia.
  - intros a b c H1 H2. apply Z.ltb_ge in H1, H2. apply Z.ltb_ge. lia.
  - intros l. split; [apply sortBy_perm|].
    apply sortBy_sorted. intros a b H. apply Z.ltb_lt in H. apply Z.ltb_ge. lia.
  - apply Permutation_sym.
    apply (Permutation_cons_app [5; 3] [] 4). reflexivity.
Defined.

Definition sampleBLSScript (m : Z) (pubs : list bytes)
  : ScriptResult * list bytes :=
  CreateBLSMultisigScript (sortBy bytesLess) Byte.byte xb3 sampleEmitInt
    sampleEmitBytes sampleEmitOpcode m pubs.

(** No signature is asked of two keys, given in two orders: the key 01 ff
    comes first in the script. *)
Lemma CreateBLSMultisigScript_witness :
  sampleBLSScript 0 [[x02; x01]; [x01; xff]]
  = sampleBLSScript 0 [[x01; xff]; [x02; x01]] /\
  sampleBLSScript 0 [[x02; x01]; [x01; xff]]
  = (Script [x50; x02; x01; xff; x02; x02; x01; x52; xb3],
     [[x01; xff]; [x02; x01]]).
Proof.
  destruct (CreateBLSMultisigScript_spec (sortBy bytesLess) Byte.byte xb3
              sampleEmitInt sampleEmitBytes sampleEmitOpcode
              sampleEncInt sampleEncBytes sampleEncOpcode 0
              [[x02; x01]; [x01; xff]] [[x01; xff]; [x02; x01]])
    as (Hscript & Hperm).
  - intros l. split; [apply sortBy_perm|].
    apply sortBy_sorted. apply bytesLess_asym.
  - split.
    + apply Hperm. apply perm_swap.
    + destruct Hscript as (sorted & Hp & Hs & Heq);
        [reflexivity|reflexivity|reflexivity|].
      unfold sampleBLSScript. rewrite Heq. vm_compute in Heq.
      inversion Heq; subst sorted. reflexivity.
Defined.

End ScriptOrder.

(** * The consensus service's callbacks: [GetPayload], [broadcast],
      [getTx], [getVerifiedTx] *)
Module ConsensusService.
Import Consensus.

Section Callbacks.

Variable PublicKey : Type.
Variable verificationHash : PublicKey -> Z.
Variable Verify : Payload -> Z -> bool.

(** [Chain.GetTransaction(h)]: the stored transaction, or nil. *)
Variable chainGetTransaction : Z -> option Z.

(** The hash of the miner transaction with the given nonce. *)
Variable minerHash : Z -> Z.

(** Every validator of the service is a BLS key. *)
Definition blsOnly (s : service PublicKey) : Prop :=
  Forall (fun k => exists b, k = blsPublicKey b) (validators s).

(** [GetPayload]: a copy of the cached payload, or nil. *)
Definition GetPayload (s : service PublicKey) (h : Z) : option Payload :=
  cacheGet (cache s) h.

(** [getTx]: the cache of miner transactions is asked first, then the
    chain. *)
Definition getTx (s : service PublicKey) (h : Z) : option Z :=
  match cacheGet (txx s) h with
  | Some t => Some t
  | None => chainGetTransaction h
  end.

(** [getVerifiedTx], the loop [for { nonce := rand.Uint32(); ... }]:
    nonces are drawn until the miner transaction is not on the chain;
    [nonces] are the values [rand.Uint32] returns. *)
Fixpoint freshMiner (fuel : nat) (nonces : nat -> Z) (i : nat) : option Z :=
  match fuel with
  | O => None
  | S fuel' =>
      match chainGetTransaction (minerHash (nonces i)) with
      | None => Some (minerHash (nonces i))
      | Some _ => freshMiner fuel' nonces (S i)
      end
  end.

(** [getVerifiedTx]: [pool] are the verified transactions of the memory
    pool; [None] when the fuel runs out in the loop. *)
Definition getVerifiedTx (fuel : nat) (nonces : nat -> Z)
    (s : service PublicKey) (pool : list Z) (count : Z)
  : option (service PublicKey * list Z) :=
  match freshMiner fuel nonces 0 with
  | None => None
  | Some h => Some (setTxx s (cacheAdd (txx s) h h), h :: pool)
  end.

(** ** The cache *)

Lemma cacheGet_Some {A : Type} (c : relayCache A) (h : Z) (x : A) :
  cacheGet c h = Some x -> In (h, x) (queue c).
Proof.
  unfold cacheGet. destruct (find _ (queue c)) as [[h' y]|] eqn:E; [|discriminate].
  intros Hx. inversion Hx; subst. apply find_some in E as [Hin Heq].
  simpl in Heq. apply Z.eqb_eq in Heq. subst. exact Hin.
Qed.

Lemma find_app_none {A : Type} (f : A -> bool) (l1 l2 : list A) :
  find f l1 = None -> find f (l1 ++ l2) = find f l2.
Proof.
  induction l1 as [|a l1 IH]; simpl; [reflexivity|].
  destruct (f a); [discriminate|exact IH].
Qed.

Lemma find_none_tl {A : Type} (f : A -> bool) (l : list A) :
  find f l = None -> find f (tl l) = None.
Proof. destruct l as [|a l]; simpl; [auto|]. destruct (f a); [discriminate|auto]. Qed.

Lemma cacheHas_find {A : Type} (c : relayCache A) (h : Z) :
  cacheHas c h = false -> find (fun e => fst e =? h) (queue c) = None.
Proof.
  unfold cacheHas. induction (queue c) as [|e q IH]; simpl; [reflexivity|].
  destruct (fst e =? h); simpl; [discriminate|exact IH].
Qed.

(** An element added under a hash the cache does not hold is the one
    found under that hash. *)
Lemma cacheGet_add_new {A : Type} (c : relayCache A) (h : Z) (x : A) :
  cacheHas c h = false -> cacheGet (cacheAdd c h x) h = Some x.
Proof.
  intros Hno. apply cacheHas_find in Hno. unfold cacheGet, cacheAdd. simpl.
  rewrite find_app_none.
  - simpl. rewrite Z.eqb_refl. reflexivity.
  - destruct (maxCap c <=? length (queue c))%nat;
      [apply find_none_tl|]; exact Hno.
Qed.

(** After an addition a cache holds the new element and elements it
    held before. *)
Lemma cacheAdd_In {A : Type} (c : relayCache A) (h : Z) (x : A) (e : Z * A) :
  In e (queue (cacheAdd c h x)) -> e = (h, x) \/ In e (queue c).
Proof.
  unfold cacheAdd. simpl. intros Hin. apply in_app_or in Hin as [Hin|Hin].
  - right. destruct (maxCap c <=? length (queue c))%nat; [|exact Hin].
    destruct (queue c); [exact Hin|right; exact Hin].
  - left. destruct Hin as [<-|[]]. reflexivity.
Qed.

Lemma cacheGet_add_some {A : Type} (c : relayCache A) (h : Z) (x : A) :
  is_Some (cacheGet (cacheAdd c h x) h).
Proof.
  pose proof (cacheAdd_has c h x) as Hhas.
  unfold cacheHas in Hhas. unfold cacheGet.
  destruct (find (fun e => fst e =? h) (queue (cacheAdd c h x))) eqn:E; [eauto|].
  apply existsb_exists in Hhas as (e & Hin & He).
  pose proof (find_none _ _ E e Hin) as Hn. simpl in Hn. congruence.
Qed.

Lemma serve_cache_sound (evs : list Event) :
  forall (s s1 : service PublicKey) (relayed sent prev : list Payload),
    (forall e, In e (queue (cache s)) ->
               fst e = Hash (snd e) /\ In (snd e) prev) ->
    serve PublicKey verificationHash Verify s evs = Some (s1, relayed, sent) ->
    forall e, In e (queue (cache s1)) ->
      fst e = Hash (snd e) /\ In (snd e) (prev ++ relayed ++ sent).
Proof.
  induction evs as [|ev rest IH]; intros s s1 relayed sent prev Hinv Hrun e He;
    simpl in Hrun.
  - inversion Hrun; subst. rewrite app_nil_r. apply Hinv, He.
  - destruct ev as [cp|p hs].
    + destruct (OnPayload_relayed PublicKey verificationHash Verify s cp)
        as [(_ & _ & s0 & Hon & Hc & _)|[(_ & Hsame)|(_ & Hpanic)]].
      * rewrite Hon in Hrun.
        destruct (serve PublicKey verificationHash Verify s0 rest)
          as [[[s3 relayed3] sent3]|] eqn:Hrest; [|discriminate].
        inversion Hrun; subst s3 relayed sent. clear Hrun.
        destruct (IH s0 s1 relayed3 sent3 (prev ++ [cp])) with (e := e)
          as [Hh Hin]; [|exact Hrest|exact He|].
        { intros e' He'. rewrite Hc in He'.
          apply cacheAdd_In in He' as [->|He'].
          - simpl. split; [reflexivity|]. apply in_or_app. right. now left.
          - destruct (Hinv e' He') as [Hh Hin]. split; [exact Hh|].
            apply in_or_app. now left. }
        split; [exact Hh|].
        rewrite !in_app_iff in *. simpl in *. tauto.
      * rewrite Hsame in Hrun.
        destruct (serve PublicKey verificationHash Verify s rest)
          as [[[s3 relayed3] sent3]|] eqn:Hrest; [|discriminate].
        inversion Hrun; subst s3 relayed sent. simpl.
        apply (IH s s1 relayed3 sent3 prev Hinv Hrest e He).
      * rewrite Hpanic in Hrun. discriminate.
    + destruct (broadcast s p hs) as [[s0 out]|] eqn:Hb; [|discriminate].
      destruct (serve PublicKey verificationHash Verify s0 rest)
        as [[[s3 relayed3] sent3]|] eqn:Hrest; [|discriminate].
      inversion Hrun; subst s3 relayed sent. clear Hrun.
      destruct (broadcast_cache PublicKey s s0 p hs out Hb) as (p' & -> & _ & Hc).
      destruct (IH s0 s1 relayed3 sent3 (prev ++ [p'])) with (e := e)
        as [Hh Hin]; [|exact Hrest|exact He|].
      { intros e' He'. rewrite Hc in He'.
        apply cacheAdd_In in He' as [->|He'].
        - simpl. split; [reflexivity|]. apply in_or_app. right. now left.
        - destruct (Hinv e' He') as [Hh Hin]. split; [exact Hh|].
          apply in_or_app. now left. }
      split; [exact Hh|].
      rewrite !in_app_iff in *. simpl in *. tauto.
Qed.

(** X9: [GetPayload] serves what the service relayed or sent: a payload
    that [OnPayload] has just rebroadcast is returned for its hash; an
    [OnPayload] call that relays nothing changes no answer; the cache of
    a new service is empty; and whatever a service that started with an
    empty cache returns for a hash, after any sequence of payloads
    received and payloads broadcast that ran without a panic, is a
    payload with that hash that it rebroadcast or sent before. *)
Theorem GetPayload_relayed (s : service PublicKey) (cp : Payload)
    (evs : list Event) :
  (forall s1, OnPayload PublicKey verificationHash Verify s cp = Some (s1, [cp]) ->
     GetPayload s1 (Hash cp) = Some cp) /\
  (forall s1, OnPayload PublicKey verificationHash Verify s cp = Some (s1, []) ->
     forall h, GetPayload s1 h = GetPayload s h) /\
  (forall wallet h, GetPayload (@NewService PublicKey wallet) h = None) /\
  (forall s1 relayed sent h p,
     queue (cache s) = [] ->
     serve PublicKey verificationHash Verify s evs = Some (s1, relayed, sent) ->
     GetPayload s1 h = Some p ->
     Hash p = h /\ (In p relayed \/ In p sent)).
Proof.
  split; [|split; [|split]].
  - intros s1 Hon.
    destruct (OnPayload_relayed PublicKey verificationHash Verify s cp)
      as [(_ & Hno & s0 & Hon' & Hc & _)|[(_ & Hsame)|(_ & Hpanic)]];
      [|congruence|congruence].
    rewrite Hon in Hon'. inversion Hon'; subst s0.
    unfold GetPayload. rewrite Hc. apply cacheGet_add_new, Hno.
  - intros s1 Hon h.
    destruct (OnPayload_relayed PublicKey verificationHash Verify s cp)
      as [(_ & _ & s0 & Hon' & _)|[(_ & Hsame)|(_ & Hpanic)]];
      [congruence| |congruence].
    rewrite Hon in Hsame. inversion Hsame; subst s1. reflexivity.
  - reflexivity.
  - intros s1 relayed sent h p Hempty Hrun Hget. apply cacheGet_Some in Hget.
    destruct (serve_cache_sound evs s s1 relayed sent []) with (e := (h, p))
      as [Hh Hin]; [|exact Hrun|exact Hget|].
    + rewrite Hempty. intros e [].
    + simpl in *. split; [auto|]. apply in_app_or in Hin. exact Hin.
Qed.

(** X10: payloads whose validator index is not below the number of
    validators are dropped without a trace: nothing is rebroadcast,
    cached or queued.  A service created without a wallet has no
    validators, so it relays nothing at all. *)
Theorem unknown_validator_dropped (s : service PublicKey) (ps : list Payload) :
  (Forall (fun p => Z.of_nat (length (validators s)) <= validatorIndex p) ps ->
   receive PublicKey verificationHash Verify s ps = Some (s, [])) /\
  receive PublicKey verificationHash Verify (NewService None) ps
  = Some (NewService None, []).
Proof.
  assert (Hdrop : forall (s : service PublicKey) p,
            Z.of_nat (length (validators s)) <= validatorIndex p ->
            OnPayload PublicKey verificationHash Verify s p = Some (s, [])).
  { intros s0 p Hp. unfold OnPayload, validatePayload.
    destruct (Z.geb_spec (validatorIndex p) (Z.of_nat (length (validators s0))));
      [reflexivity|lia]. }
  split.
  - induction 1 as [|p rest Hp _ IH]; simpl; [reflexivity|].
    rewrite (Hdrop s p Hp), IH. reflexivity.
  - assert (Hnone : forall p,
              OnPayload PublicKey verificationHash Verify (NewService None) p
              = Some (NewService None, [])).
    { intros p. unfold OnPayload, validatePayload. simpl.
      destruct (validatorIndex p >=? Z.of_nat 0); simpl; [reflexivity|].
      destruct (Z.to_nat (validatorIndex p)); reflexivity. }
    induction ps as [|p rest IH]; cbn [receive]; [reflexivity|].
    rewrite Hnone, IH. reflexivity.
Qed.

Lemma OnPayload_frame (s s1 : service PublicKey) (p : Payload)
    (out : list Payload) :
  OnPayload PublicKey verificationHash Verify s p = Some (s1, out) ->
  validators s1 = validators s /\ dbft s1 = dbft s /\
  (dbft s = false -> txx s1 = txx s).
Proof.
  unfold OnPayload.
  destruct (validatePayload PublicKey verificationHash Verify s p) as [v|];
    [|discriminate].
  destruct (negb v || cacheHas (cache s) (Hash p)).
  - intros H; inversion H; subst. auto.
  - destruct (dbft s) eqn:Hd; simpl; intros H; inversion H; subst; simpl; auto.
    repeat split. discriminate.
Qed.

Lemma validatePayload_validators (s s1 : service PublicKey) (p : Payload) :
  validators s1 = validators s ->
  validatePayload PublicKey verificationHash Verify s1 p
  = validatePayload PublicKey verificationHash Verify s p.
Proof. intros Hv. unfold validatePayload. rewrite Hv. reflexivity. Qed.

(** X11: a sequence of received payloads panics exactly when one of them
    names a validator whose key is no [*publicKey].  Otherwise the
    payloads the service rebroadcasts are a subsequence of the payloads
    it received, each of them passes [validatePayload], and, when the
    service has a dBFT instance, they are exactly the payloads put on
    the [messages] channel, in the same order; without a dBFT instance
    nothing is queued and the cache of miner transactions is not
    touched.  The validators stay as they are. *)
Theorem relayed_payloads_queued (s : service PublicKey) (ps : list Payload) :
  (receive PublicKey verificationHash Verify s ps = None <->
   Exists (fun p => validatePayload PublicKey verificationHash Verify s p = None)
     ps) /\
  (forall s1 out,
     receive PublicKey verificationHash Verify s ps = Some (s1, out) ->
     messages s1 = (if dbft s then messages s ++ out else messages s) /\
     sublist out ps /\
     Forall (fun p => validatePayload PublicKey verificationHash Verify s p
                      = Some true) out /\
     validators s1 = validators s /\
     dbft s1 = dbft s /\
     (dbft s = false -> txx s1 = txx s)).
Proof.
  revert s. induction ps as [|p rest IH]; intros s; cbn [receive].
  - split.
    + split; [discriminate|]. intros H. inversion H.
    + intros s1 out H. inversion H; subst. rewrite app_nil_r.
      destruct (dbft s1); repeat split; constructor.
  - pose proof (OnPayload_relayed PublicKey verificationHash Verify s p) as Hr.
    destruct (OnPayload PublicKey verificationHash Verify s p)
      as [[s0 out0]|] eqn:Hon.
    + destruct (OnPayload_frame s s0 p out0 Hon) as (Hv & Hd & Ht).
      destruct (IH s0) as [IHn IHs].
      assert (Hsome : validatePayload PublicKey verificationHash Verify s p
                      <> None).
      { destruct Hr as [(E & _)|[([E|[E _]] & _)|(_ & E)]]; congruence. }
      split.
      * destruct (receive PublicKey verificationHash Verify s0 rest)
          as [[s2 out2]|] eqn:Hrest.
        -- split; [discriminate|]. intros Hex. exfalso.
           apply Exists_cons in Hex as [Hex|Hex]; [contradiction|].
           assert (Hex' : Exists
                     (fun q => validatePayload PublicKey verificationHash Verify
                                 s0 q = None) rest).
           { eapply Exists_impl; [exact Hex|]. intros q Hq. simpl in *.
             rewrite (validatePayload_validators s s0 q Hv). exact Hq. }
           apply IHn in Hex'. discriminate.
        -- split; [|reflexivity]. intros _. apply Exists_cons. right.
           destruct IHn as [IHn _]. specialize (IHn eq_refl).
           eapply Exists_impl; [exact IHn|]. intros q Hq. simpl in *.
           rewrite <- (validatePayload_validators s s0 q Hv). exact Hq.
      * intros s1 out Hrun.
        destruct (receive PublicKey verificationHash Verify s0 rest)
          as [[s2 out2]|] eqn:Hrest; [|discriminate].
        inversion Hrun; subst s2 out. clear Hrun.
        destruct (IHs s1 out2 eq_refl) as (IHm & IHsub & IHf & IHv & IHd & IHt).
        assert (IHf' : Forall
                  (fun q => validatePayload PublicKey verificationHash Verify
                              s q = Some true) out2).
        { eapply Forall_impl; [exact IHf|]. intros q Hq. simpl in *.
          rewrite <- (validatePayload_validators s s0 q Hv). exact Hq. }
        destruct Hr as [(Hok & _ & s0' & Hon' & _ & Hm)|[(_ & Hsame)|(_ & E)]];
          [| |congruence].
        -- inversion Hon'; subst s0' out0.
           split; [|split; [|split; [|split; [|split]]]].
           ++ rewrite IHm, Hd, Hm. destruct (dbft s); [|reflexivity].
              rewrite <- app_assoc. reflexivity.
           ++ simpl. apply sublist_skip, IHsub.
           ++ simpl. constructor; [exact Hok|exact IHf'].
           ++ congruence.
           ++ congruence.
           ++ intros Hf. rewrite IHt by congruence. auto.
        -- inversion Hsame; subst s0 out0.
           split; [|split; [|split; [|split; [|split]]]]; auto.
           simpl. apply sublist_cons, IHsub.
    + split; [|intros ? ?; discriminate].
      split; [intros _|reflexivity]. apply Exists_cons. left.
      destruct Hr as [(_ & _ & ? & E & _)|[(_ & E)|(E & _)]];
        [congruence|congruence|exact E].
Qed.



(** ** Services with BLS validators *)

Lemma OnPayload_bls (s : service PublicKey) (cp : Payload) :
  blsOnly s ->
  (OnPayload PublicKey verificationHash Verify s cp = None \/
   OnPayload PublicKey verificationHash Verify s cp = Some (s, [])) /\
  (0 <= validatorIndex cp < Z.of_nat (length (validators s)) ->
   OnPayload PublicKey verificationHash Verify s cp = None).
Proof.
  intros Hbls. unfold OnPayload, validatePayload.
  destruct (Z.geb_spec (validatorIndex cp) (Z.of_nat (length (validators s))))
    as [Hge|Hlt].
  - simpl. split; [now right|lia].
  - destruct (nth_error (validators s) (Z.to_nat (validatorIndex cp)))
      as [k|] eqn:Ek.
    + apply nth_error_In in Ek.
      destruct (proj1 (List.Forall_forall _ _) Hbls k Ek) as [b ->].
      split; [now left|reflexivity].
    + simpl. split; [now right|]. intros Hr. exfalso.
      apply nth_error_None in Ek. lia.
Qed.

Lemma serve_bls (evs : list Event) :
  forall (s s1 : service PublicKey) (relayed sent : list Payload),
    blsOnly s ->
    serve PublicKey verificationHash Verify s evs = Some (s1, relayed, sent) ->
    relayed = [] /\ messages s1 = messages s /\ validators s1 = validators s.
Proof.
  induction evs as [|ev rest IH]; intros s s1 relayed sent Hbls Hrun;
    simpl in Hrun.
  - inversion Hrun; subst. auto.
  - destruct ev as [cp|p hs].
    + destruct (OnPayload_bls s cp Hbls) as [[Hon|Hon] _]; rewrite Hon in Hrun;
        [discriminate|].
      destruct (serve PublicKey verificationHash Verify s rest)
        as [[[s3 relayed3] sent3]|] eqn:Hrest; [|discriminate].
      inversion Hrun; subst s3 relayed sent. simpl.
      apply (IH s s1 relayed3 sent3 Hbls Hrest).
    + destruct (broadcast s p hs) as [[s0 out]|] eqn:Hb; [|discriminate].
      destruct (serve PublicKey verificationHash Verify s0 rest)
        as [[[s3 relayed3] sent3]|] eqn:Hrest; [|discriminate].
      inversion Hrun; subst s3 relayed sent. simpl.
      assert (Hsame : messages s0 = messages s /\ validators s0 = validators s).
      { unfold broadcast in Hb. destruct (Type_ p).
        - destruct hs as [|h hs']; [discriminate|].
          destruct (cacheGet (txx s) h); [|discriminate].
          inversion Hb; subst. auto.
        - inversion Hb; subst. auto. }
      destruct Hsame as [Hm Hv].
      destruct (IH s0 s1 relayed3 sent3) as (Hr & Hm' & Hv'); [|exact Hrest|].
      { unfold blsOnly. rewrite Hv. exact Hbls. }
      split; [exact Hr|]. split; congruence.
Qed.

Lemma NewService_blsOnly (wallet : option (list bytes)) :
  blsOnly (@NewService PublicKey wallet).
Proof.
  unfold blsOnly. destruct wallet as [vs|]; simpl; [|constructor].
  apply List.Forall_forall. intros k Hk. apply in_map_iff in Hk as (b & <- & _).
  eauto.
Qed.



Lemma freshMiner_fresh (fuel : nat) (nonces : nat -> Z) :
  forall i h, freshMiner fuel nonces i = Some h -> chainGetTransaction h = None.
Proof.
  induction fuel as [|fuel IH]; intros i h; simpl; [discriminate|].
  destruct (chainGetTransaction (minerHash (nonces i))) eqn:E.
  - apply IH.
  - intros Hh. inversion Hh; subst. exact E.
Qed.

Lemma freshMiner_total (fuel : nat) (nonces : nat -> Z) :
  forall i k, (i <= k < i + fuel)%nat ->
    chainGetTransaction (minerHash (nonces k)) = None ->
    is_Some (freshMiner fuel nonces i).
Proof.
  induction fuel as [|fuel IH]; intros i k Hk Hfree; simpl; [lia|].
  destruct (chainGetTransaction (minerHash (nonces i))) eqn:E; [|eauto].
  apply (IH (S i) k); [|exact Hfree].
  destruct (decide (k = i)) as [->|Hne]; [congruence|lia].
Qed.

(** X13: [getVerifiedTx] returns as soon as a drawn nonce gives a miner
    transaction that is not on the chain.  Its result is that miner
    transaction followed by all verified transactions of the memory
    pool, whatever [count] is; the miner transaction is new to the chain
    and is put into the cache of miner transactions, so that [getTx]
    finds it and the [broadcast] of a prepare request that starts with
    its hash does not panic. *)
Theorem getVerifiedTx_spec (fuel : nat) (nonces : nat -> Z)
    (s : service PublicKey) (pool : list Z) (count : Z) :
  (forall k, (k < fuel)%nat ->
     chainGetTransaction (minerHash (nonces k)) = None ->
     is_Some (getVerifiedTx fuel nonces s pool count)) /\
  (forall s' res,
     getVerifiedTx fuel nonces s pool count = Some (s', res) ->
     exists h,
       res = h :: pool /\
       chainGetTransaction h = None /\
       is_Some (getTx s' h) /\
       cache s' = cache s /\ messages s' = messages s /\
       (forall count',
          getVerifiedTx fuel nonces s pool count' = Some (s', res)) /\
       (forall p hashes,
          is_Some (broadcast s' p (h :: hashes)))).
Proof.
  unfold getVerifiedTx. split.
  - intros k Hk Hfree.
    destruct (freshMiner_total fuel nonces 0%nat k ltac:(lia) Hfree) as [h ->].
    eauto.
  - intros s' res Hres.
    destruct (freshMiner fuel nonces 0) as [h|] eqn:E; [|discriminate].
    inversion Hres; subst s' res. exists h.
    pose proof (cacheGet_add_some (txx s) h h) as [t Ht].
    split; [reflexivity|]. split; [exact (freshMiner_fresh _ _ _ _ E)|].
    split; [unfold getTx; cbn [txx setTxx]; rewrite Ht; eauto|].
    split; [reflexivity|]. split; [reflexivity|]. split; [reflexivity|].
    intros p hashes. unfold broadcast. cbn [txx setTxx]. rewrite Ht.
    destruct (Type_ p); eauto.
Qed.


End Callbacks.

(** ** Instances *)

(** A service whose validator is a [*publicKey] relays payload 1 once,
    sends payload 2 itself and drops the echoes of both. *)
Example sample_serve :
  exists s,
    serve unit (fun _ => 0) (fun _ _ => true) sampleService
      [Received (samplePayload 1); Sent (samplePayload 2) [];
       Received (samplePayload 1); Received (samplePayload 2)]
    = Some (s, [samplePayload 1], [samplePayload 2]) /\
    messages s = [samplePayload 1] /\
    GetPayload unit s 2 = Some (samplePayload 2).
Proof. eexists. split; [vm_compute; reflexivity|]. split; reflexivity. Qed.

(** The validators of a service that [NewService] made from a wallet
    are BLS keys: a payload that names one of them makes [OnPayload]
    panic, a payload that names none is dropped. *)
Example sample_new_service :
  OnPayload unit (fun _ => 0) (fun _ _ => true)
    (NewService (Some [[x02]; [x01]])) (samplePayload 7) = None /\
  validators (@NewService unit (Some [[x02]; [x01]]))
  = [blsPublicKey [x01]; blsPublicKey [x02]] /\
  OnPayload unit (fun _ => 0) (fun _ _ => true)
    (NewService (Some [[x02]; [x01]]))
    {| validatorIndex := 2; Hash := 7; Type_ := OtherType; minerTx := 0 |}
  = Some (NewService (Some [[x02]; [x01]]), []).
Proof. split; [|split]; reflexivity. Qed.

End ConsensusService.

(** * The block witness: [getBlockWitness] and [getBlockWitnessBLS] *)
Module BlockWitness.
Import Smartcontract.

(** A commit payload of the dBFT context: its view number and the
    signature of its commit ([None] is the nil slice). *)
Record CommitPayload := {
  ViewNumber : Z;
  Signature : option bytes
}.

(** [transaction.Witness] *)
Record Witness := {
  InvocationScript : bytes;
  VerificationScript : bytes
}.

(** What the two functions do: they panic, return nil or return a
    witness. *)
Inductive WitnessResult :=
| WPanic
| WNil
| WSome (w : Witness).

Section Signatures.

(** The keys a signature map is indexed by: pointers, compared by
    identity. *)
Context {Key : Type} `{EqDecision Key}.

(** [map[Key][]byte]: the latest assignment to a key comes first. *)
Definition sigMap := list (Key * option bytes).

(** [sig, ok := sigs[k]] *)
Definition lookupSig (sigs : sigMap) (k : Key) : option (option bytes) :=
  match find (fun e => bool_decide (fst e = k)) sigs with
  | Some e => Some (snd e)
  | None => None
  end.

(** [for i := range pubs { if p := dctx.CommitPayloads[i]; p != nil &&
    p.ViewNumber() == dctx.ViewNumber { sigs[pubs[i]] = ... } }]; [None]
    is the panic of [CommitPayloads[i]] out of range. *)
Fixpoint collectSigs (view : Z) (pubs : list Key)
    (commits : list (option CommitPayload)) (sigs : sigMap) : option sigMap :=
  match pubs with
  | [] => Some sigs
  | k :: pubs' =>
      match commits with
      | [] => None
      | c :: commits' =>
          collectSigs view pubs' commits'
            (match c with
             | Some p =>
                 if ViewNumber p =? view then (k, Signature p) :: sigs
                 else sigs
             | None => sigs
             end)
      end
  end.

(** [getBlockWitness], the loop [for i, j := 0, 0; i < len(pubs) &&
    j < m; i++]: the signatures appended, in order. *)
Fixpoint chosenSigs (sigs : sigMap) (pubs : list Key) (j m : Z)
  : list (option bytes) :=
  match pubs with
  | [] => []
  | k :: rest =>
      if j <? m then
        match lookupSig sigs k with
        | Some sig => sig :: chosenSigs sigs rest (j + 1) m
        | None => chosenSigs sigs rest j m
        end
      else []
  end.

(** [getBlockWitnessBLS], the loop that fills [indices] and [sigSlice]:
    the validators with a non-nil signature, and their signatures. *)
Fixpoint signers (sigs : sigMap) (pubs : list Key) (i : nat)
  : list (nat * bytes) :=
  match pubs with
  | [] => []
  | k :: rest =>
      match lookupSig sigs k with
      | Some (Some s) => (i, s) :: signers sigs rest (S i)
      | _ => signers sigs rest (S i)
      end
  end.

End Signatures.

(** [mask.Or(mask, new(big.Int).Lsh(big.NewInt(1), uint(n-j-1)))] for the
    indices [j]. *)
Definition signerMask (n : nat) (indices : list nat) : Z :=
  fold_left
    (fun mask j => Z.lor mask (Z.shiftl 1 (Z.of_nat n - Z.of_nat j - 1)))
    indices 0.

(** ** The signature map *)

Section SignatureLemmas.

Context {Key : Type} `{EqDecision Key}.

(** The commit of validator [i] counts when it is there and belongs to
    the current view. *)
Definition commitSig (view : Z) (commits : list (option CommitPayload))
    (i : nat) : option (option bytes) :=
  match nth_error commits i with
  | Some (Some p) => if ViewNumber p =? view then Some (Signature p) else None
  | _ => None
  end.

Lemma lookupSig_cons (k k' : Key) (sig : option bytes) (sigs : sigMap) :
  lookupSig ((k', sig) :: sigs) k =
  if bool_decide (k' = k) then Some sig else lookupSig sigs k.
Proof.
  unfold lookupSig. simpl. destruct (bool_decide (k' = k)); reflexivity.
Qed.

Lemma collectSigs_panics (view : Z) (pubs : list Key) :
  forall commits acc,
    collectSigs view pubs commits acc = None <->
    (length commits < length pubs)%nat.
Proof.
  induction pubs as [|k pubs IH]; intros commits acc; simpl.
  - split; [discriminate|lia].
  - destruct commits as [|c commits]; simpl.
    + split; [lia|reflexivity].
    + rewrite IH. lia.
Qed.

Lemma collectSigs_other (view : Z) (pubs : list Key) :
  forall commits acc sigs k,
    collectSigs view pubs commits acc = Some sigs ->
    ~ In k pubs ->
    lookupSig sigs k = lookupSig acc k.
Proof.
  induction pubs as [|k0 pubs IH]; intros commits acc sigs k Hc Hk; simpl in *.
  - inversion Hc; subst. reflexivity.
  - destruct commits as [|c commits]; [discriminate|].
    rewrite (IH _ _ _ k Hc) by tauto.
    destruct c as [p|]; [|reflexivity].
    destruct (ViewNumber p =? view); [|reflexivity].
    rewrite lookupSig_cons, bool_decide_eq_false_2; [reflexivity|tauto].
Qed.

Lemma collectSigs_lookup (view : Z) (pubs : list Key) :
  forall commits acc sigs,
    List.NoDup pubs ->
    collectSigs view pubs commits acc = Some sigs ->
    forall i k,
      nth_error pubs i = Some k ->
      lookupSig sigs k =
      match commitSig view commits i with
      | Some sig => Some sig
      | None => lookupSig acc k
      end.
Proof.
  induction pubs as [|k0 pubs IH]; intros commits acc sigs Hnd Hc i k Hi.
  - destruct i; discriminate.
  - simpl in Hc. destruct commits as [|c commits]; [discriminate|].
    apply List.NoDup_cons_iff in Hnd as [Hnotin Hnd].
    destruct i as [|i]; simpl in Hi.
    + inversion Hi; subst k0.
      rewrite (collectSigs_other _ _ _ _ _ k Hc Hnotin).
      unfold commitSig. simpl.
      destruct c as [p|]; [|reflexivity].
      destruct (ViewNumber p =? view); [|reflexivity].
      rewrite lookupSig_cons, bool_decide_eq_true_2; reflexivity.
    + rewrite (IH _ _ _ Hnd Hc i k Hi).
      unfold commitSig. simpl.
      destruct (nth_error commits i) as [[p'|]|];
        try destruct (ViewNumber p' =? view); try reflexivity.
      all: destruct c as [p|]; [|reflexivity].
      all: destruct (ViewNumber p =? view); [|reflexivity].
      all: rewrite lookupSig_cons, bool_decide_eq_false_2; [reflexivity|].
      all: intros ->; apply Hnotin; eapply nth_error_In; exact Hi.
Qed.

(** The loop with the counter [j] takes the first [m - j] signatures. *)
Lemma chosenSigs_take (sigs : sigMap) (pubs : list Key) (m : Z) :
  forall j,
    chosenSigs sigs pubs j m =
    firstn (Z.to_nat (m - j)) (omap (lookupSig sigs) pubs).
Proof.
  induction pubs as [|k rest IH]; intros j; simpl.
  - rewrite firstn_nil. reflexivity.
  - destruct (Z.ltb_spec j m) as [Hlt|Hge].
    + destruct (lookupSig sigs k) as [sig|] eqn:E.
      * rewrite IH. replace (Z.to_nat (m - j)) with (S (Z.to_nat (m - (j + 1))))
          by lia.
        reflexivity.
      * apply IH.
    + replace (Z.to_nat (m - j)) with 0%nat by lia. reflexivity.
Qed.

End SignatureLemmas.

Section SignerLemmas.

Context {Key : Type} `{EqDecision Key}.

Lemma signers_In (sigs : sigMap) (pubs : list Key) :
  forall i0 i s,
    In (i, s) (signers sigs pubs i0) <->
    (i0 <= i)%nat /\
    exists k, nth_error pubs (i - i0) = Some k /\
              lookupSig sigs k = Some (Some s).
Proof.
  induction pubs as [|k0 pubs IH]; intros i0 i s; simpl.
  - split; [tauto|]. intros (_ & k & Hk & _). destruct (i - i0)%nat; discriminate.
  - assert (Hrest : In (i, s) (signers sigs pubs (S i0)) <->
              (i0 < i)%nat /\
              exists k, nth_error (k0 :: pubs) (i - i0) = Some k /\
                        lookupSig sigs k = Some (Some s)).
    { rewrite IH. split.
      - intros (Hle & k & Hk & Hs). split; [lia|]. exists k. split; [|exact Hs].
        replace (i - i0)%nat with (S (i - S i0)) by lia. exact Hk.
      - intros (Hlt & k & Hk & Hs). split; [lia|]. exists k. split; [|exact Hs].
        replace (i - i0)%nat with (S (i - S i0)) in Hk by lia. exact Hk. }
    assert (Hhead : forall sig,
              lookupSig sigs k0 = sig ->
              (i = i0 /\ sig = Some (Some s)) <->
              i = i0 /\
              exists k, nth_error (k0 :: pubs) (i - i0) = Some k /\
                        lookupSig sigs k = Some (Some s)).
    { intros sig Hsig. split.
      - intros [-> ->]. split; [reflexivity|]. exists k0.
        rewrite Nat.sub_diag. auto.
      - intros (-> & k & Hk & Hs). rewrite Nat.sub_diag in Hk.
        inversion Hk; subst. split; congruence. }
    destruct (lookupSig sigs k0) as [[s0|]|] eqn:E; simpl.
    + rewrite Hrest. specialize (Hhead _ eq_refl). split.
      * intros [Heq|(Hlt & Hex)].
        -- inversion Heq; subst. split; [lia|]. apply Hhead. auto.
        -- split; [lia|exact Hex].
      * intros (Hle & Hex). destruct (decide (i = i0)) as [->|Hne].
        -- left. destruct Hhead as [_ Hh]. destruct (Hh (conj eq_refl Hex)) as [_ Hs].
           congruence.
        -- right. split; [lia|exact Hex].
    + rewrite Hrest. specialize (Hhead _ eq_refl). split.
      * intros (Hlt & Hex). split; [lia|exact Hex].
      * intros (Hle & Hex). destruct (decide (i = i0)) as [->|Hne].
        -- destruct Hhead as [_ Hh]. destruct (Hh (conj eq_refl Hex)) as [_ Hs].
           discriminate.
        -- split; [lia|exact Hex].
    + rewrite Hrest. specialize (Hhead _ eq_refl). split.
      * intros (Hlt & Hex). split; [lia|exact Hex].
      * intros (Hle & Hex). destruct (decide (i = i0)) as [->|Hne].
        -- destruct Hhead as [_ Hh]. destruct (Hh (conj eq_refl Hex)) as [_ Hs].
           discriminate.
        -- split; [lia|exact Hex].
Qed.

End SignerLemmas.

(** ** The mask *)

Lemma signerMask_bits (n : nat) (indices : list nat) :
  forall acc b,
    0 <= b ->
    (forall j, In j indices -> (j < n)%nat) ->
    Z.testbit
      (fold_left
         (fun mask j => Z.lor mask (Z.shiftl 1 (Z.of_nat n - Z.of_nat j - 1)))
         indices acc) b
    = Z.testbit acc b
      || existsb (fun j => Z.of_nat n - Z.of_nat j - 1 =? b) indices.
Proof.
  induction indices as [|j rest IH]; intros acc b Hb Hlt; simpl.
  - rewrite orb_false_r. reflexivity.
  - rewrite IH; [|exact Hb|intros j' Hj'; apply Hlt; right; exact Hj'].
    rewrite Z.lor_spec, Z.shiftl_1_l.
    rewrite Z.pow2_bits_eqb by (specialize (Hlt j (or_introl eq_refl)); lia).
    rewrite orb_assoc. reflexivity.
Qed.

Lemma signerMask_nonneg (n : nat) (indices : list nat) :
  forall acc, 0 <= acc ->
    0 <= fold_left
           (fun mask j => Z.lor mask (Z.shiftl 1 (Z.of_nat n - Z.of_nat j - 1)))
           indices acc.
Proof.
  induction indices as [|j rest IH]; intros acc Hacc; simpl; [exact Hacc|].
  apply IH. apply Z.lor_nonneg. split; [exact Hacc|].
  apply Z.shiftl_nonneg. lia.
Qed.

Lemma low_bits_bound (a : Z) (n : nat) :
  0 <= a ->
  (forall b, Z.of_nat n <= b -> Z.testbit a b = false) ->
  a < 2 ^ Z.of_nat n.
Proof.
  intros Ha Hhigh.
  assert (Heq : a mod 2 ^ Z.of_nat n = a).
  { apply Z.bits_inj'. intros b Hb.
    destruct (Z.lt_ge_cases b (Z.of_nat n)) as [Hlt|Hge].
    - apply Z.mod_pow2_bits_low. lia.
    - rewrite Z.mod_pow2_bits_high by lia. symmetry. apply Hhigh. lia. }
  rewrite <- Heq. apply Z.mod_pos_bound. apply Z.pow_pos_nonneg; lia.
Qed.


Section Witnesses.

(** The validators of the dBFT context ([crypto.PublicKey]) and the keys
    [convertKeys] takes out of them; the type assertion of [convertKeys]
    panics ([None]) on a validator of another type. *)
Variable Validator : Type.
Context `{EqDecision Validator}.
Variable PublicKey : Type.
Context `{EqDecision PublicKey}.
Variable convertKey : Validator -> option PublicKey.
Variable keyBytes : PublicKey -> bytes.
Variable MarshalBinary : Validator -> bytes.
Variable sortKeys : list PublicKey -> list PublicKey.
Variable sortSlice : list bytes -> list bytes.

(** The opcodes and emitters of package [vm], and the libraries behind
    [crypto.AggregateBLSSignatures] and [big.Int.Bytes]. *)
Variable Opcode : Type.
Variable CHECKMULTISIG CHECKBLS : Opcode.
Variable PUSHBYTES64 PUSHBYTES1 : Z.
Variable EmitInt : bytes -> Z -> option bytes.
Variable EmitBytes : bytes -> bytes -> option bytes.
Variable EmitOpcode : bytes -> Opcode -> option bytes.
Variable AggregateBLSSignatures : list bytes -> option bytes.
Variable bigBytes : Z -> bytes.

(** [dbft.Context], the fields the two functions read; [M] is the
    number of signatures a block needs. *)
Record Context := {
  Validators : list Validator;
  CommitPayloads : list (option CommitPayload);
  ctxViewNumber : Z;
  M : Z
}.

(** [convertKeys] *)
Fixpoint convertKeys (validators : list Validator) : option (list PublicKey) :=
  match validators with
  | [] => Some []
  | v :: rest =>
      match convertKey v, convertKeys rest with
      | Some k, Some ks => Some (k :: ks)
      | _, _ => None
      end
  end.

(** The bytes [append(invoc, byte(opcode.PUSHBYTES64)); append(invoc,
    sig...)] add for each signature. *)
Definition pushSigs (chosen : list (option bytes)) : bytes :=
  flat_map (fun sig => byteOf PUSHBYTES64 :: default [] sig) chosen.

(** [getBlockWitness]: [CreateMultiSigRedeemScript] has sorted the keys
    in place when it returns a script, and they are sorted once more. *)
Definition getBlockWitness (dctx : Context) : WitnessResult :=
  match convertKeys (Validators dctx) with
  | None => WPanic
  | Some pubs =>
      match collectSigs (ctxViewNumber dctx) pubs (CommitPayloads dctx) [] with
      | None => WPanic
      | Some sigs =>
          match CreateMultiSigRedeemScript PublicKey keyBytes sortKeys Opcode
                  CHECKMULTISIG EmitInt EmitBytes EmitOpcode (M dctx) pubs with
          | Failed _ => WNil
          | Script verif =>
              WSome {| InvocationScript :=
                         pushSigs (chosenSigs sigs (sortKeys (sortKeys pubs))
                                     0 (M dctx));
                       VerificationScript := verif |}
          end
      end
  end.

(** [getBlockWitnessBLS] *)
Definition getBlockWitnessBLS (dctx : Context) : WitnessResult :=
  let pubs := Validators dctx in
  match collectSigs (ctxViewNumber dctx) pubs (CommitPayloads dctx) [] with
  | None => WPanic
  | Some sigs =>
      match fst (ScriptOrder.CreateBLSMultisigScript sortSlice Opcode CHECKBLS
                   EmitInt EmitBytes EmitOpcode (M dctx)
                   (List.map MarshalBinary pubs)) with
      | Failed _ => WNil
      | Script verif =>
          let found := signers sigs pubs 0 in
          match AggregateBLSSignatures (List.map snd found) with
          | None => WNil
          | Some sig =>
              let mask := signerMask (length pubs) (List.map fst found) in
              let buf := bigBytes mask in
              WSome {| InvocationScript :=
                         byteOf PUSHBYTES64 :: sig ++
                         byteOf (PUSHBYTES1 + (Z.of_nat (length buf) - 1)) ::
                         buf;
                       VerificationScript := verif |}
          end
      end
  end.

Lemma convertKeys_length (vs : list Validator) :
  forall pubs, convertKeys vs = Some pubs -> length pubs = length vs.
Proof.
  induction vs as [|v vs IH]; intros pubs; simpl.
  - intros H. inversion H. reflexivity.
  - destruct (convertKey v); [|discriminate].
    destruct (convertKeys vs) as [ks|]; [|discriminate].
    intros H. inversion H; subst. simpl. rewrite (IH ks eq_refl). reflexivity.
Qed.


(** X15: [getBlockWitnessBLS] panics when the context has fewer commit
    slots than validators.  In a witness it returns the invocation
    script is the aggregate of the signatures in validator order
    followed by a bit mask below [2^n] for the [n] validators, in which
    bit [n - 1 - i] is set exactly when validator [i] has a non-nil
    signature: with distinct validators, when its commit payload is
    there, belongs to the current view and carries a signature. *)
Theorem getBlockWitnessBLS_mask (dctx : Context) :
  ((length (CommitPayloads dctx) < length (Validators dctx))%nat ->
   getBlockWitnessBLS dctx = WPanic) /\
  (forall w,
     getBlockWitnessBLS dctx = WSome w ->
     exists sigs sig mask,
       collectSigs (ctxViewNumber dctx) (Validators dctx)
         (CommitPayloads dctx) [] = Some sigs /\
       AggregateBLSSignatures
         (List.map snd (signers sigs (Validators dctx) 0)) = Some sig /\
       InvocationScript w =
         byteOf PUSHBYTES64 :: sig ++
         byteOf (PUSHBYTES1 + (Z.of_nat (length (bigBytes mask)) - 1)) ::
         bigBytes mask /\
       0 <= mask < 2 ^ Z.of_nat (length (Validators dctx)) /\
       (forall i,
          (i < length (Validators dctx))%nat ->
          Z.testbit mask (Z.of_nat (length (Validators dctx)) - 1 - Z.of_nat i)
          = true <->
          exists k s, nth_error (Validators dctx) i = Some k /\
                      lookupSig sigs k = Some (Some s)) /\
       (List.NoDup (Validators dctx) ->
        forall i,
          (i < length (Validators dctx))%nat ->
          Z.testbit mask (Z.of_nat (length (Validators dctx)) - 1 - Z.of_nat i)
          = true <->
          exists s, commitSig (ctxViewNumber dctx) (CommitPayloads dctx) i
                    = Some (Some s))).
Proof.
  unfold getBlockWitnessBLS. split.
  - intros Hlen.
    assert (Hn : collectSigs (ctxViewNumber dctx) (Validators dctx)
                   (CommitPayloads dctx) [] = None)
      by (apply collectSigs_panics; lia).
    rewrite Hn. reflexivity.
  - intros w Hw. cbv zeta in Hw.
    destruct (collectSigs _ (Validators dctx) _ []) as [sigs|] eqn:Es;
      [|discriminate].
    destruct (fst (ScriptOrder.CreateBLSMultisigScript _ _ _ _ _ _ _ _))
      as [verif|e]; [|discriminate].
    destruct (AggregateBLSSignatures _) as [sig|] eqn:Ea; [|discriminate].
    inversion Hw; subst w. cbn [InvocationScript].
    set (n := length (Validators dctx)).
    set (found := signers sigs (Validators dctx) 0) in *.
    assert (Hidx : forall j, In j (List.map fst found) -> (j < n)%nat).
    { intros j Hj. apply in_map_iff in Hj as ([j' s] & <- & Hin).
      apply signers_In in Hin as (_ & k & Hk & _). simpl.
      rewrite Nat.sub_0_r in Hk.
      apply nth_error_Some. congruence. }
    assert (Hbit : forall i,
              (i < n)%nat ->
              Z.testbit (signerMask n (List.map fst found))
                (Z.of_nat n - 1 - Z.of_nat i) = true <->
              exists k s, nth_error (Validators dctx) i = Some k /\
                          lookupSig sigs k = Some (Some s)).
    { intros i Hi. unfold signerMask.
      rewrite signerMask_bits by (lia || exact Hidx).
      rewrite Z.bits_0. simpl. rewrite existsb_exists. split.
      - intros (j & Hj & Heq). apply Z.eqb_eq in Heq.
        assert (j = i) by lia. subst j.
        apply in_map_iff in Hj as ([j' s] & Hfst & Hin). simpl in Hfst. subst j'.
        apply signers_In in Hin as (_ & k & Hk & Hs).
        rewrite Nat.sub_0_r in Hk. eauto.
      - intros (k & s & Hk & Hs). exists i. split; [|apply Z.eqb_eq; lia].
        apply in_map_iff. exists (i, s). split; [reflexivity|].
        apply signers_In. split; [lia|]. exists k.
        rewrite Nat.sub_0_r. auto. }
    exists sigs, sig, (signerMask n (List.map fst found)).
    split; [first [reflexivity|exact Es]|]. split; [exact Ea|].
    split; [reflexivity|].
    split; [|split].
    + split; [apply signerMask_nonneg; lia|].
      apply low_bits_bound; [apply signerMask_nonneg; lia|].
      intros b Hb. unfold signerMask.
      rewrite signerMask_bits by (lia || exact Hidx).
      rewrite Z.bits_0. simpl.
      destruct (existsb _ _) eqn:Ex; [|reflexivity].
      apply existsb_exists in Ex as (j & Hj & Heq). apply Z.eqb_eq in Heq. lia.
    + exact Hbit.
    + intros Hnd i Hi. rewrite (Hbit i Hi). split.
      * intros (k & s & Hk & Hs). exists s.
        rewrite (collectSigs_lookup _ _ _ _ _ Hnd Es i k Hk) in Hs.
        destruct (commitSig _ _ i); [exact Hs|discriminate].
      * intros (s & Hs).
        destruct (nth_error (Validators dctx) i) as [k|] eqn:Hk.
        -- exists k, s. split; [reflexivity|].
           rewrite (collectSigs_lookup _ _ _ _ _ Hnd Es i k Hk), Hs. reflexivity.
        -- apply nth_error_None in Hk. fold n in Hk. lia.
Qed.


End Witnesses.


(** ** An instance: four validators, of which the first and the third
       have committed in the current view *)

Definition sampleCommit (view : Z) (s : Byte.byte) : option CommitPayload :=
  Some {| ViewNumber := view; Signature := Some [s] |}.

Definition sampleDbft : Context Z :=
  {| Validators := [10; 20; 30; 40];
     CommitPayloads := [sampleCommit 0 x0a; None; sampleCommit 0 x0c;
                        sampleCommit 1 x0d];
     ctxViewNumber := 0;
     M := 3 |}.

Definition sampleWitnessBLS (dctx : Context Z) : WitnessResult :=
  getBlockWitnessBLS Z (fun v => [byteOf v]) (sortBy bytesLess)
    Byte.byte xb3 64 1 sampleEmitInt sampleEmitBytes sampleEmitOpcode
    (fun sigs => Some (List.concat sigs)) (fun mask => [byteOf mask]) dctx.

Definition sampleWitness (dctx : Context Z) : WitnessResult :=
  getBlockWitness Z Z Some sampleKeyBytes (sortBy Z.ltb) Byte.byte xae 64
    sampleEmitInt sampleEmitBytes sampleEmitOpcode dctx.

(** The mask has the bits 3 and 1 of four: validators 0 and 2. *)
Example sample_bls_invocation :
  match sampleWitnessBLS sampleDbft with
  | WSome w => InvocationScript w = [x40; x0a; x0c; x01; x0a]
  | _ => False
  end.
Proof. vm_compute. reflexivity. Qed.

(** Three signatures are asked for, two keys have one. *)
Example sample_invocation :
  match sampleWitness sampleDbft with
  | WSome w => InvocationScript w = [x40; x0a; x40; x0c]
  | _ => False
  end.
Proof. vm_compute. reflexivity. Qed.

(** A context with three commit slots for four validators. *)
Example sample_short_context :
  sampleWitnessBLS
    {| Validators := [10; 20; 30; 40];
       CommitPayloads := [None; None; None];
       ctxViewNumber := 0; M := 3 |} = WPanic.
Proof. vm_compute. reflexivity. Qed.


End BlockWitness.

(** * The parameters of RPC requests: package [request] *)
Module Params.

(** The errors of the package, and those of the libraries it calls. *)
Inductive ParamError :=
| errMissingParameter
| errNotAString
| errNotAnInt
| errNotABool
| errNotAnArray
| errNotASigner
| errLibrary (msg : string).

(** A result or an error. *)
Inductive Res (A : Type) :=
| Ok (a : A)
| Err (e : ParamError).
Arguments Ok {A} _.
Arguments Err {A} _.

(** [Param] wraps the raw JSON text; a [*Param] may be nil. *)
Definition Param := string.

(** [transaction.Signer] and [transaction.Witness] *)
Record Signer (Uint160 Group : Type) := {
  Account : Uint160;
  Scopes : Z;
  AllowedContracts : list Uint160;
  AllowedGroups : list Group
}.
Arguments Account {Uint160 Group} _.
Arguments Scopes {Uint160 Group} _.
Arguments AllowedContracts {Uint160 Group} _.
Arguments AllowedGroups {Uint160 Group} _.

Record Witness := {
  InvocationScript : bytes;
  VerificationScript : bytes
}.

(** [signerWithWitnessAux] *)
Record signerWithWitnessAux (Uint160 Group : Type) := {
  auxAccount : string;
  auxScopes : Z;
  auxAllowedContracts : list Uint160;
  auxAllowedGroups : list Group;
  auxInvocationScript : bytes;
  auxVerificationScript : bytes
}.
Arguments auxAccount {Uint160 Group} _.
Arguments auxScopes {Uint160 Group} _.
Arguments auxAllowedContracts {Uint160 Group} _.
Arguments auxAllowedGroups {Uint160 Group} _.
Arguments auxInvocationScript {Uint160 Group} _.
Arguments auxVerificationScript {Uint160 Group} _.

(** [strings.TrimPrefix(s, "0x")] *)
Definition trim0x (s : string) : string :=
  if String.prefix "0x" s
  then String.substring 2 (String.length s - 2) s
  else s.

(** The text [fmt.Sprintf] makes of the format ["%s"] in quotes. *)
Definition quoted (s : string) : string :=
  String (Ascii.ascii_of_nat 34)
    (String.append s (String (Ascii.ascii_of_nat 34) EmptyString)).

Section Param.

Variable Uint160 : Type.
Variable Group : Type.
Variable zero160 : Uint160.

(** [json.Unmarshal] into a string, an int, a bool, a slice of
    parameters and the auxiliary signer structure. *)
Variable jsonString : string -> option string.
Variable jsonInt : string -> option Z.
Variable jsonBool : string -> option bool.
Variable jsonArray : string -> option (list Param).
Variable jsonSigner : string -> option (signerWithWitnessAux Uint160 Group).

(** [strconv.Itoa], [strconv.Atoi], and the decoders of packages [util]
    and [address]. *)
Variable Itoa : Z -> string.
Variable Atoi : string -> Res Z.
Variable Uint256 : Type.
Variable Uint256DecodeStringLE : string -> Res Uint256.
Variable Uint160DecodeStringLE : string -> Res Uint160.
Variable StringToUint160 : string -> Res Uint160.
Variable Uint160Size : Z.
Variable CalledByEntry : Z.

(** [GetString] *)
Definition GetString (p : option Param) : Res string :=
  match p with
  | None => Err errMissingParameter
  | Some raw =>
      match jsonString raw with
      | Some s => Ok s
      | None => Err errNotAString
      end
  end.

(** [AsString] *)
Definition AsString (p : option Param) : Res string :=
  match p with
  | None => Err errMissingParameter
  | Some raw =>
      match jsonString raw with
      | Some s => Ok s
      | None =>
          match jsonInt raw with
          | Some i => Ok (Itoa i)
          | None =>
              match jsonBool raw with
              | Some true => Ok "true"%string
              | Some false => Ok "false"%string
              | None => Err errNotAString
              end
          end
      end
  end.

(** [GetBool] *)
Definition GetBool (p : option Param) : Res bool :=
  match p with
  | None => Err errMissingParameter
  | Some raw =>
      match jsonBool raw with
      | Some b => Ok b
      | None => Err errNotABool
      end
  end.

(** [AsBool] *)
Definition AsBool (p : option Param) : Res bool :=
  match p with
  | None => Err errMissingParameter
  | Some raw =>
      match jsonBool raw with
      | Some b => Ok b
      | None =>
          match jsonString raw with
          | Some s => Ok (negb (String.eqb s EmptyString))
          | None =>
              match jsonInt raw with
              | Some i => Ok (negb (i =? 0))
              | None => Err errNotABool
              end
          end
      end
  end.

(** [GetInt] *)
Definition GetInt (p : option Param) : Res Z :=
  match p with
  | None => Err errMissingParameter
  | Some raw =>
      match jsonInt raw with
      | Some i => Ok i
      | None => Err errNotAnInt
      end
  end.

(** [AsInt] *)
Definition AsInt (p : option Param) : Res Z :=
  match p with
  | None => Err errMissingParameter
  | Some raw =>
      match jsonInt raw with
      | Some i => Ok i
      | None =>
          match jsonString raw with
          | Some s => Atoi s
          | None =>
              match jsonBool raw with
              | Some b => Ok (if b then 1 else 0)
              | None => Err errNotAnInt
              end
          end
      end
  end.

(** [GetArray] *)
Definition GetArray (p : option Param) : Res (list Param) :=
  match p with
  | None => Err errMissingParameter
  | Some raw =>
      match jsonArray raw with
      | Some a => Ok a
      | None => Err errNotAnArray
      end
  end.

(** [GetUint256] *)
Definition GetUint256 (p : option Param) : Res Uint256 :=
  match AsString p with
  | Err e => Err e
  | Ok s => Uint256DecodeStringLE (trim0x s)
  end.

(** [GetUint160FromHex]: the prefix is cut only from a string of the
    full length. *)
Definition GetUint160FromHex (p : option Param) : Res Uint160 :=
  match AsString p with
  | Err e => Err e
  | Ok s =>
      Uint160DecodeStringLE
        (if (Z.of_nat (String.length s) =? 2 * Uint160Size + 2)
         then trim0x s
         else s)
  end.

(** [GetUint160FromAddress] *)
Definition GetUint160FromAddress (p : option Param) : Res Uint160 :=
  match AsString p with
  | Err e => Err e
  | Ok s => StringToUint160 s
  end.

(** [GetUint160FromAddressOrHex] *)
Definition GetUint160FromAddressOrHex (p : option Param) : Res Uint160 :=
  match GetUint160FromHex p with
  | Ok u => Ok u
  | Err _ => GetUint160FromAddress p
  end.

(** [GetSignerWithWitness], called on a parameter that is not nil. *)
Definition GetSignerWithWitness (raw : Param)
  : Res (Signer Uint160 Group * Witness) :=
  match jsonSigner raw with
  | None => Err errNotASigner
  | Some aux =>
      let accParam := quoted (auxAccount aux) in
      match GetUint160FromAddressOrHex (Some accParam) with
      | Err _ => Err errNotASigner
      | Ok acc =>
          Ok ({| Account := acc; Scopes := auxScopes aux;
                 AllowedContracts := auxAllowedContracts aux;
                 AllowedGroups := auxAllowedGroups aux |},
              {| InvocationScript := auxInvocationScript aux;
                 VerificationScript := auxVerificationScript aux |})
      end
  end.

(** The zero values [make] fills the two slices with. *)
Definition zeroSigner : Signer Uint160 Group :=
  {| Account := zero160; Scopes := 0; AllowedContracts := [];
     AllowedGroups := [] |}.
Definition zeroWitness : Witness :=
  {| InvocationScript := []; VerificationScript := [] |}.

Definition hexSigner (u : Uint160) : Signer Uint160 Group :=
  {| Account := u; Scopes := CalledByEntry; AllowedContracts := [];
     AllowedGroups := [] |}.

(** [GetSignersWithWitnesses], the first loop: [signers[i]] is written
    until an element is no hash; the flag tells whether [err] is set. *)
Fixpoint hashLoop (i : nat) (hashes : list Param)
    (signers : list (Signer Uint160 Group))
  : list (Signer Uint160 Group) * bool :=
  match hashes with
  | [] => (signers, false)
  | h :: rest =>
      match GetUint160FromHex (Some h) with
      | Err _ => (signers, true)
      | Ok u => hashLoop (S i) rest (<[i := hexSigner u]> signers)
      end
  end.

(** [GetSignersWithWitnesses], the second loop. *)
Fixpoint signerLoop (i : nat) (hashes : list Param)
    (signers : list (Signer Uint160 Group)) (witnesses : list Witness)
  : Res (list (Signer Uint160 Group) * list Witness) :=
  match hashes with
  | [] => Ok (signers, witnesses)
  | h :: rest =>
      match GetSignerWithWitness h with
      | Err e => Err e
      | Ok (s, w) =>
          signerLoop (S i) rest (<[i := s]> signers) (<[i := w]> witnesses)
      end
  end.

(** [GetSignersWithWitnesses] *)
Definition GetSignersWithWitnesses (p : Param)
  : Res (list (Signer Uint160 Group) * list Witness) :=
  match GetArray (Some p) with
  | Err e => Err e
  | Ok hashes =>
      let signers := replicate (length hashes) zeroSigner in
      let witnesses := replicate (length hashes) zeroWitness in
      match hashLoop 0 hashes signers with
      | (signers1, false) => Ok (signers1, witnesses)
      | (signers1, true) => signerLoop 0 hashes signers1 witnesses
      end
  end.

(** ** The two loops of [GetSignersWithWitnesses] *)

Lemma take_S_insert {A : Type} (l : list A) (i : nat) (x : A) :
  (i < length l)%nat -> take (S i) (<[i := x]> l) = take i l ++ [x].
Proof.
  intros Hi. rewrite (take_S_r _ _ x) by (apply list_lookup_insert_eq; exact Hi).
  rewrite take_insert_ge by lia. reflexivity.
Qed.

Lemma hashLoop_length (hashes : list Param) :
  forall i signers,
    length (fst (hashLoop i hashes signers)) = length signers.
Proof.
  induction hashes as [|h rest IH]; intros i signers; simpl; [reflexivity|].
  destruct (GetUint160FromHex (Some h)); [|reflexivity].
  rewrite IH. apply length_insert.
Qed.

Lemma hashLoop_ok (hashes : list Param) (us : list Uint160) :
  Forall2 (fun h u => GetUint160FromHex (Some h) = Ok u) hashes us ->
  forall i signers,
    length signers = (i + length hashes)%nat ->
    hashLoop i hashes signers = (take i signers ++ List.map hexSigner us, false).
Proof.
  induction 1 as [|h u rest us' Hh _ IH]; intros i signers Hlen; simpl.
  - rewrite app_nil_r, take_ge by (simpl in Hlen; lia). reflexivity.
  - rewrite Hh. simpl in Hlen.
    rewrite IH by (rewrite length_insert; lia).
    rewrite take_S_insert by lia. rewrite <- app_assoc. reflexivity.
Qed.

Lemma hashLoop_fail (hashes : list Param) :
  Exists (fun h => exists e, GetUint160FromHex (Some h) = Err e) hashes ->
  forall i signers, snd (hashLoop i hashes signers) = true.
Proof.
  induction hashes as [|h rest IH]; intros Hex i signers.
  - inversion Hex.
  - simpl. destruct (GetUint160FromHex (Some h)) as [u|e] eqn:Eh; [|reflexivity].
    apply IH. apply Exists_cons in Hex as [[e He]|Hex]; [congruence|exact Hex].
Qed.

Lemma hashLoop_flag (hashes : list Param) :
  forall i signers,
    snd (hashLoop i hashes signers) = false ->
    exists us,
      Forall2 (fun h u => GetUint160FromHex (Some h) = Ok u) hashes us.
Proof.
  induction hashes as [|h rest IH]; intros i signers; simpl.
  - exists []. constructor.
  - destruct (GetUint160FromHex (Some h)) as [u|e] eqn:Eh; [|discriminate].
    intros Hf. destruct (IH _ _ Hf) as [us Hus]. exists (u :: us).
    constructor; assumption.
Qed.

Lemma hashLoop_flag_true (hashes : list Param) :
  forall i signers,
    snd (hashLoop i hashes signers) = true ->
    Exists (fun h => exists e, GetUint160FromHex (Some h) = Err e) hashes.
Proof.
  induction hashes as [|h rest IH]; intros i signers; simpl; [discriminate|].
  destruct (GetUint160FromHex (Some h)) as [u|e] eqn:Eh.
  - intros Hf. apply Exists_cons. right. eapply IH, Hf.
  - intros _. apply Exists_cons. left. eauto.
Qed.

Lemma signerLoop_ok (hashes : list Param)
    (sws : list (Signer Uint160 Group * Witness)) :
  Forall2 (fun h sw => GetSignerWithWitness h = Ok sw) hashes sws ->
  forall i signers witnesses,
    length signers = (i + length hashes)%nat ->
    length witnesses = (i + length hashes)%nat ->
    signerLoop i hashes signers witnesses
    = Ok (take i signers ++ List.map fst sws,
          take i witnesses ++ List.map snd sws).
Proof.
  induction 1 as [|h [s w] rest sws' Hh _ IH]; intros i signers witnesses Hs Hw;
    simpl.
  - rewrite !app_nil_r, !take_ge by (simpl in Hs, Hw; lia). reflexivity.
  - rewrite Hh. simpl in Hs, Hw.
    rewrite IH by (rewrite length_insert; lia).
    rewrite !take_S_insert by lia. rewrite <- !app_assoc. reflexivity.
Qed.

Lemma GetSignerWithWitness_error (raw : Param) (e : ParamError) :
  GetSignerWithWitness raw = Err e -> e = errNotASigner.
Proof.
  unfold GetSignerWithWitness. destruct (jsonSigner raw); [|congruence].
  destruct (GetUint160FromAddressOrHex _); [discriminate|congruence].
Qed.

Lemma signerLoop_result (hashes : list Param) :
  forall i signers witnesses,
    (exists sws,
       Forall2 (fun h sw => GetSignerWithWitness h = Ok sw) hashes sws) \/
    signerLoop i hashes signers witnesses = Err errNotASigner.
Proof.
  induction hashes as [|h rest IH]; intros i signers witnesses; simpl.
  - left. exists []. constructor.
  - destruct (GetSignerWithWitness h) as [[s w]|e] eqn:Eh.
    + destruct (IH (S i) (<[i := s]> signers) (<[i := w]> witnesses))
        as [[sws Hsws]|Herr].
      * left. exists ((s, w) :: sws). constructor; assumption.
      * right. exact Herr.
    + right. apply GetSignerWithWitness_error in Eh. congruence.
Qed.

Lemma Forall2_Exists_absurd {A B : Type} (P : A -> B -> Prop) (Q : A -> Prop)
    (l : list A) (k : list B) :
  (forall a b, P a b -> Q a -> False) ->
  Forall2 P l k -> Exists Q l -> False.
Proof.
  intros Hpq. induction 1 as [|a b l' k' Hab _ IH]; intros Hex.
  - inversion Hex.
  - apply Exists_cons in Hex as [Hq|Hex]; eauto.
Qed.


(** X16: [GetSignersWithWitnesses] reads the array in one of two ways
    and never mixes them.  When every element is a hash, the signers are
    these hashes with the scope [CalledByEntry] and the witnesses are
    empty.  When some element is no hash, every element is read as a
    signer with its witness, also the ones that are hashes: the result
    holds exactly these signers and witnesses, or the call fails with
    "not a signer" as soon as one element is none.  A result has as
    many signers and as many witnesses as the array has elements. *)
Theorem GetSignersWithWitnesses_spec (p : Param) (hashes : list Param) :
  jsonArray p = Some hashes ->
  (forall us,
     Forall2 (fun h u => GetUint160FromHex (Some h) = Ok u) hashes us ->
     GetSignersWithWitnesses p
     = Ok (List.map hexSigner us, replicate (length hashes) zeroWitness)) /\
  (Exists (fun h => exists e, GetUint160FromHex (Some h) = Err e) hashes ->
   (forall sws,
      Forall2 (fun h sw => GetSignerWithWitness h = Ok sw) hashes sws ->
      GetSignersWithWitnesses p = Ok (List.map fst sws, List.map snd sws)) /\
   (Exists (fun h => exists e, GetSignerWithWitness h = Err e) hashes ->
    GetSignersWithWitnesses p = Err errNotASigner)) /\
  (forall ss ws,
     GetSignersWithWitnesses p = Ok (ss, ws) ->
     length ss = length hashes /\ length ws = length hashes /\
     ((exists us,
         Forall2 (fun h u => GetUint160FromHex (Some h) = Ok u) hashes us /\
         ss = List.map hexSigner us /\
         ws = replicate (length hashes) zeroWitness) \/
      (exists sws,
         Forall2 (fun h sw => GetSignerWithWitness h = Ok sw) hashes sws /\
         ss = List.map fst sws /\ ws = List.map snd sws))).
Proof.
  intros Harr.
  assert (Hhex : forall us,
     Forall2 (fun h u => GetUint160FromHex (Some h) = Ok u) hashes us ->
     GetSignersWithWitnesses p
     = Ok (List.map hexSigner us, replicate (length hashes) zeroWitness)).
  { intros us Hus. unfold GetSignersWithWitnesses, GetArray. rewrite Harr.
    cbv zeta. rewrite (hashLoop_ok hashes us Hus)
      by (rewrite length_replicate; reflexivity).
    reflexivity. }
  assert (Hsw : Exists (fun h => exists e, GetUint160FromHex (Some h) = Err e)
                  hashes ->
     forall sws,
      Forall2 (fun h sw => GetSignerWithWitness h = Ok sw) hashes sws ->
      GetSignersWithWitnesses p = Ok (List.map fst sws, List.map snd sws)).
  { intros Hex sws Hsws. unfold GetSignersWithWitnesses, GetArray. rewrite Harr.
    cbv zeta.
    pose proof (hashLoop_fail hashes Hex 0%nat
                  (replicate (length hashes) zeroSigner)) as Hflag.
    pose proof (hashLoop_length hashes 0%nat
                  (replicate (length hashes) zeroSigner)) as Hlen.
    destruct (hashLoop 0 hashes _) as [signers1 flag]. simpl in Hflag, Hlen.
    subst flag. rewrite length_replicate in Hlen.
    rewrite (signerLoop_ok hashes sws Hsws)
      by (rewrite ?length_replicate; simpl; lia).
    reflexivity. }
  split; [exact Hhex|]. split.
  - intros Hex. split; [exact (Hsw Hex)|].
    intros Hbad. unfold GetSignersWithWitnesses, GetArray. rewrite Harr.
    cbv zeta.
    pose proof (hashLoop_fail hashes Hex 0%nat
                  (replicate (length hashes) zeroSigner)) as Hflag.
    destruct (hashLoop 0 hashes _) as [signers1 flag]. simpl in Hflag.
    subst flag.
    destruct (signerLoop_result hashes 0%nat signers1
                (replicate (length hashes) zeroWitness)) as [[sws Hsws]|Herr];
      [|exact Herr].
    exfalso. revert Hsws Hbad. apply Forall2_Exists_absurd.
    intros a b Hab [e He]. congruence.
  - intros ss ws Hres.
    destruct (hashLoop 0 hashes (replicate (length hashes) zeroSigner))
      as [signers1 flag] eqn:Eh.
    destruct flag.
    + assert (Hex : Exists
                (fun h => exists e, GetUint160FromHex (Some h) = Err e) hashes).
      { apply (hashLoop_flag_true hashes 0%nat
                 (replicate (length hashes) zeroSigner)).
        rewrite Eh. reflexivity. }
      destruct (signerLoop_result hashes 0%nat signers1
                  (replicate (length hashes) zeroWitness)) as [[sws Hsws]|Herr].
      * rewrite (Hsw Hex sws Hsws) in Hres. inversion Hres; subst.
        rewrite !length_map. rewrite <- (Forall2_length _ _ _ Hsws).
        split; [reflexivity|]. split; [reflexivity|]. right. eauto.
      * unfold GetSignersWithWitnesses, GetArray in Hres.
        rewrite Harr in Hres. cbv zeta in Hres. rewrite Eh, Herr in Hres.
        discriminate.
    + destruct (hashLoop_flag hashes 0%nat
                  (replicate (length hashes) zeroSigner)) as [us Hus];
        [rewrite Eh; reflexivity|].
      rewrite (Hhex us Hus) in Hres. inversion Hres; subst.
      rewrite length_map, length_replicate, <- (Forall2_length _ _ _ Hus).
      split; [reflexivity|]. split; [reflexivity|]. left. eauto.
Qed.


(** X17: the [As...] conversions extend the [Get...] readers: whenever
    [GetString], [GetBool] or [GetInt] returns a value, [AsString],
    [AsBool] or [AsInt] returns the same value.  Every reader returns
    [errMissingParameter] for a nil parameter, also the ones that decode
    hashes.  [GetUint160FromHex] cuts the prefix 0x only from a string
    of the full length [2 * Uint160Size + 2], and
    [GetUint160FromAddressOrHex] reads an address only when the
    parameter is no hash. *)
Theorem As_extends_Get (p : option Param) :
  (forall s, GetString p = Ok s -> AsString p = Ok s) /\
  (forall b, GetBool p = Ok b -> AsBool p = Ok b) /\
  (forall i, GetInt p = Ok i -> AsInt p = Ok i) /\
  (p = None ->
   GetString p = Err errMissingParameter /\
   AsString p = Err errMissingParameter /\
   GetBool p = Err errMissingParameter /\
   AsBool p = Err errMissingParameter /\
   GetInt p = Err errMissingParameter /\
   AsInt p = Err errMissingParameter /\
   GetArray p = Err errMissingParameter /\
   GetUint256 p = Err errMissingParameter /\
   GetUint160FromHex p = Err errMissingParameter /\
   GetUint160FromAddress p = Err errMissingParameter /\
   GetUint160FromAddressOrHex p = Err errMissingParameter) /\
  (forall s,
     AsString p = Ok s ->
     GetUint160FromHex p =
     Uint160DecodeStringLE
       (if (Z.of_nat (String.length s) =? 2 * Uint160Size + 2) &&
           String.prefix "0x" s
        then String.substring 2 (String.length s - 2) s
        else s)) /\
  (forall u,
     GetUint160FromAddressOrHex p = Ok u <->
     GetUint160FromHex p = Ok u \/
     ((exists e, GetUint160FromHex p = Err e) /\
      GetUint160FromAddress p = Ok u)).
Proof.
  split; [|split; [|split; [|split; [|split]]]].
  - intros s. unfold GetString, AsString. destruct p as [raw|]; [|discriminate].
    destruct (jsonString raw); [auto|discriminate].
  - intros b. unfold GetBool, AsBool. destruct p as [raw|]; [|discriminate].
    destruct (jsonBool raw); [auto|discriminate].
  - intros i. unfold GetInt, AsInt. destruct p as [raw|]; [|discriminate].
    destruct (jsonInt raw); [auto|discriminate].
  - intros ->. repeat split.
  - intros s Hs. unfold GetUint160FromHex. rewrite Hs. unfold trim0x.
    destruct (Z.of_nat (String.length s) =? 2 * Uint160Size + 2);
      destruct (String.prefix "0x" s); reflexivity.
  - intros u. unfold GetUint160FromAddressOrHex.
    destruct (GetUint160FromHex p) as [u'|e].
    + split; [auto|]. intros [H|[[e He] _]]; [exact H|discriminate].
    + split; [intros H; right; eauto|]. intros [H|[_ H]]; [discriminate|exact H].
Qed.


End Param.


(** ** An instance: every parameter is a JSON string, a hash has two
       characters *)

Definition sampleDecode160 (s : string) : Res string :=
  if (Z.of_nat (String.length s) =? 2) then Ok s
  else Err (errLibrary "wrong length").

Definition sampleSigners (p : Param)
  : Res (list (Signer string unit) * list Witness) :=
  GetSignersWithWitnesses string unit "00" (fun raw => Some raw)
    (fun _ => None) (fun _ => None) (fun raw => Some [raw; "cd"%string])
    (fun _ => None) (fun _ => "0"%string) sampleDecode160
    (fun _ => Err (errLibrary "no address")) 1 1 p.

(** Two hashes, the first with its prefix. *)
Lemma GetSignersWithWitnesses_witness :
  sampleSigners "0xab"
  = Ok ([hexSigner string unit 1 "ab"; hexSigner string unit 1 "cd"],
        [zeroWitness; zeroWitness]).
Proof.
  destruct (GetSignersWithWitnesses_spec string unit "00" (fun raw => Some raw)
              (fun _ => None) (fun _ => None)
              (fun raw => Some [raw; "cd"%string])
              (fun _ => None) (fun _ => "0"%string) sampleDecode160
              (fun _ => Err (errLibrary "no address")) 1 1
              "0xab" ["0xab"%string; "cd"%string] eq_refl) as [H _].
  apply (H ["ab"%string; "cd"%string]).
  repeat constructor.
Defined.


End Params.

(** * Application logs in RPC results: package [result] *)
Module AppLog.
Import NativePersist.

(** [applicationLogAux] *)
Record applicationLogAux (Uint256 : Type) := {
  TxHash : option Uint256;
  BlockHash : option Uint256;
  auxExecutions : list bytes
}.
Arguments TxHash {Uint256} _.
Arguments BlockHash {Uint256} _.
Arguments auxExecutions {Uint256} _.

(** [ApplicationLog] *)
Record ApplicationLog (Uint256 Execution : Type) := {
  Container : Uint256;
  Executions : list Execution
}.
Arguments Container {Uint256 Execution} _.
Arguments Executions {Uint256 Execution} _.

(** What [MarshalJSON] does: it panics, fails for the execution with the
    given index, fails in the library, or returns the text. *)
Inductive MarshalResult :=
| MPanic
| MErrExecution (i : nat)
| MErrLibrary
| MOk (data : bytes).

Inductive UnmarshalError :=
| ErrLibrary
| ErrNoHash
| ErrExecution (i : nat).

Section Log.

Variable Uint256 : Type.
Variable Execution : Type.

(** [state.Execution]: its trigger and its zero value. *)
Variable Trigger : Execution -> TriggerType.
Variable zeroExecution : Execution.

(** [json.Marshal] and [json.Unmarshal] for an execution and for the
    auxiliary structure; unmarshalling an execution fills a zero value
    and tells whether it succeeded. *)
Variable marshalExecution : Execution -> option bytes.
Variable unmarshalExecution : bytes -> Execution * bool.
Variable marshalAux : applicationLogAux Uint256 -> option bytes.
Variable unmarshalAux : bytes -> option (applicationLogAux Uint256).

(** [MarshalJSON], the loop over the executions: the texts, or the index
    of the execution that fails. *)
Fixpoint marshalAll (i : nat) (execs : list Execution) : nat + list bytes :=
  match execs with
  | [] => inr []
  | e :: rest =>
      match marshalExecution e with
      | None => inl i
      | Some d =>
          match marshalAll (S i) rest with
          | inl k => inl k
          | inr ds => inr (d :: ds)
          end
      end
  end.

(** [MarshalJSON] *)
Definition MarshalJSON (l : ApplicationLog Uint256 Execution) : MarshalResult :=
  match Executions l with
  | [] => MPanic
  | e0 :: _ =>
      match marshalAll 0 (Executions l) with
      | inl i => MErrExecution i
      | inr ds =>
          let result :=
            match Trigger e0 with
            | TApplication =>
                {| TxHash := Some (Container l); BlockHash := None;
                   auxExecutions := ds |}
            | _ =>
                {| TxHash := None; BlockHash := Some (Container l);
                   auxExecutions := ds |}
            end in
          match marshalAux result with
          | None => MErrLibrary
          | Some data => MOk data
          end
      end
  end.

(** [UnmarshalJSON], the loop over the executions: [execs] is the slice
    of zero values that is filled from the index [i] on. *)
Fixpoint unmarshalAll (i : nat) (raws : list bytes) (execs : list Execution)
  : list Execution * option UnmarshalError :=
  match raws with
  | [] => (execs, None)
  | d :: rest =>
      let '(e, ok) := unmarshalExecution d in
      if ok then unmarshalAll (S i) rest (<[i := e]> execs)
      else (<[i := e]> execs, Some (ErrExecution i))
  end.

(** [UnmarshalJSON]: the log the receiver points to afterwards, and the
    error. *)
Definition UnmarshalJSON (l : ApplicationLog Uint256 Execution) (data : bytes)
  : ApplicationLog Uint256 Execution * option UnmarshalError :=
  match unmarshalAux data with
  | None => (l, Some ErrLibrary)
  | Some aux =>
      match
        match TxHash aux with
        | Some h => Some h
        | None => BlockHash aux
        end
      with
      | None => (l, Some ErrNoHash)
      | Some h =>
          let '(execs, err) :=
            unmarshalAll 0 (auxExecutions aux)
              (replicate (length (auxExecutions aux)) zeroExecution) in
          ({| Container := h; Executions := execs |}, err)
      end
  end.

(** [NewApplicationLog], from the executions of the results. *)
Definition NewApplicationLog (hash : Uint256) (aers : list Execution)
  : ApplicationLog Uint256 Execution :=
  {| Container := hash;
     Executions := fold_left (fun acc aer => acc ++ [aer]) aers [] |}.

Lemma marshalAll_length (execs : list Execution) :
  forall i ds, marshalAll i execs = inr ds -> length ds = length execs.
Proof.
  induction execs as [|e rest IH]; intros i ds; simpl.
  - intros H. inversion H. reflexivity.
  - destruct (marshalExecution e); [|discriminate].
    destruct (marshalAll (S i) rest) as [k|ds'] eqn:E; [discriminate|].
    intros H. inversion H; subst. simpl. rewrite (IH _ _ E). reflexivity.
Qed.

Lemma unmarshalAll_marshalAll (execs : list Execution) :
  (forall e d, marshalExecution e = Some d -> unmarshalExecution d = (e, true)) ->
  forall i ds slots,
    marshalAll i execs = inr ds ->
    length slots = (i + length execs)%nat ->
    unmarshalAll i ds slots = (take i slots ++ execs, None).
Proof.
  intros Hcodec. induction execs as [|e rest IH]; intros i ds slots; simpl.
  - intros H Hlen. inversion H; subst. simpl in *.
    rewrite app_nil_r, take_ge by lia. reflexivity.
  - destruct (marshalExecution e) as [d|] eqn:Ee; [|discriminate].
    destruct (marshalAll (S i) rest) as [k|ds'] eqn:E; [discriminate|].
    intros H Hlen. inversion H; subst ds. simpl in Hlen. simpl.
    rewrite (Hcodec e d Ee).
    rewrite (IH (S i) ds' (<[i := e]> slots) E)
      by (rewrite length_insert; lia).
    rewrite (take_S_r _ _ e) by (apply list_lookup_insert_eq; lia).
    rewrite take_insert_ge by lia. rewrite <- app_assoc. reflexivity.
Qed.

(** X18: [MarshalJSON] panics exactly on a log without executions, as
    [NewApplicationLog] makes of an empty list of results.  With JSON
    codecs that read back what they wrote, unmarshalling the text of a
    log gives that log again, whatever the receiver held: the container
    hash travels as [txid] or [blockhash] according to the trigger of
    the first execution and comes back either way.  A text with neither
    hash is refused and leaves the receiver as it was; with both hashes
    [txid] is taken. *)
Theorem ApplicationLog_round_trip (l : ApplicationLog Uint256 Execution) :
  (forall a d, marshalAux a = Some d -> unmarshalAux d = Some a) ->
  (forall e d, marshalExecution e = Some d -> unmarshalExecution d = (e, true)) ->
  (MarshalJSON l = MPanic <-> Executions l = []) /\
  (forall hash, MarshalJSON (NewApplicationLog hash []) = MPanic) /\
  (forall data,
     MarshalJSON l = MOk data ->
     forall l0, UnmarshalJSON l0 data = (l, None)) /\
  (forall l0 data aux,
     unmarshalAux data = Some aux ->
     TxHash aux = None -> BlockHash aux = None ->
     UnmarshalJSON l0 data = (l0, Some ErrNoHash)) /\
  (forall l0 data aux t,
     unmarshalAux data = Some aux ->
     TxHash aux = Some t ->
     Container (fst (UnmarshalJSON l0 data)) = t).
Proof.
  intros Haux Hexec. split; [|split; [|split; [|split]]].
  - unfold MarshalJSON. destruct (Executions l) as [|e0 rest]; [tauto|].
    split; [|discriminate].
    destruct (marshalAll 0 (e0 :: rest)); [discriminate|].
    destruct (marshalAux _); discriminate.
  - reflexivity.
  - intros data Hm l0. unfold MarshalJSON in Hm.
    destruct l as [c execs]. simpl in Hm.
    destruct execs as [|e0 rest]; [discriminate|].
    destruct (marshalAll 0 (e0 :: rest)) as [k|ds] eqn:Eall; [discriminate|].
    destruct (marshalAux _) as [d|] eqn:Ea; [|discriminate].
    inversion Hm; subst d. apply Haux in Ea.
    unfold UnmarshalJSON. rewrite Ea.
    pose proof (marshalAll_length _ _ _ Eall) as Hlen.
    assert (Hloop :
      unmarshalAll 0 ds (replicate (length ds) zeroExecution)
      = (e0 :: rest, None)).
    { rewrite (unmarshalAll_marshalAll (e0 :: rest) Hexec 0%nat ds _ Eall)
        by (rewrite length_replicate; exact Hlen).
      reflexivity. }
    destruct (Trigger e0); simpl; rewrite Hloop; reflexivity.
  - intros l0 data aux Hd Ht Hb. unfold UnmarshalJSON. rewrite Hd, Ht, Hb.
    reflexivity.
  - intros l0 data aux t Hd Ht. unfold UnmarshalJSON. rewrite Hd, Ht.
    destruct (unmarshalAll 0 _ _). reflexivity.
Qed.


End Log.


(** ** An instance: an execution is its trigger, a hash is one byte *)

Definition sampleMarshalExecution (e : TriggerType) : option bytes :=
  Some [match e with
        | TOnPersist => x01
        | TPostPersist => x02
        | TVerification => x20
        | TApplication => x40
        end].

Definition sampleUnmarshalExecution (d : bytes) : TriggerType * bool :=
  match d with
  | [x01] => (TOnPersist, true)
  | [x02] => (TPostPersist, true)
  | [x20] => (TVerification, true)
  | [x40] => (TApplication, true)
  | _ => (TOnPersist, false)
  end.

Definition encHash (h : option Byte.byte) : bytes :=
  match h with
  | None => [x00]
  | Some b => [x01; b]
  end.

Definition decHash (d : bytes) : option (option Byte.byte * bytes) :=
  match d with
  | x00 :: rest => Some (None, rest)
  | x01 :: b :: rest => Some (Some b, rest)
  | _ => None
  end.

Definition sampleMarshalAux (a : applicationLogAux Byte.byte) : option bytes :=
  if forallb (fun r => (length r =? 1)%nat) (auxExecutions a)
  then Some (encHash (TxHash a) ++ encHash (BlockHash a) ++
             List.concat (auxExecutions a))
  else None.

Definition sampleUnmarshalAux (d : bytes)
  : option (applicationLogAux Byte.byte) :=
  match decHash d with
  | None => None
  | Some (t, d1) =>
      match decHash d1 with
      | None => None
      | Some (b, d2) =>
          Some {| TxHash := t; BlockHash := b;
                  auxExecutions := List.map (fun x => [x]) d2 |}
      end
  end.

Lemma singles_concat (l : list bytes) :
  forallb (fun r => (length r =? 1)%nat) l = true ->
  List.map (fun x => [x]) (List.concat l) = l.
Proof.
  induction l as [|r l IH]; simpl; [reflexivity|].
  intros H. apply andb_true_iff in H as [Hr Hl].
  apply Nat.eqb_eq in Hr.
  destruct r as [|x [|y r]]; try discriminate.
  simpl. rewrite IH by exact Hl. reflexivity.
Qed.

Lemma sampleAux_codec (a : applicationLogAux Byte.byte) (d : bytes) :
  sampleMarshalAux a = Some d -> sampleUnmarshalAux d = Some a.
Proof.
  unfold sampleMarshalAux, sampleUnmarshalAux. destruct a as [t b ex]. simpl.
  destruct (forallb _ ex) eqn:E; [|discriminate].
  intros H. inversion H; subst d.
  destruct t, b; simpl; rewrite (singles_concat ex E); reflexivity.
Qed.

Lemma sampleExecution_codec (e : TriggerType) (d : bytes) :
  sampleMarshalExecution e = Some d -> sampleUnmarshalExecution d = (e, true).
Proof.
  unfold sampleMarshalExecution. intros H. inversion H; subst d.
  destruct e; reflexivity.
Qed.

(** The log of a transaction with two executions. *)
Definition sampleLog : ApplicationLog Byte.byte TriggerType :=
  {| Container := x2a; Executions := [TApplication; TVerification] |}.

Lemma ApplicationLog_round_trip_witness :
  exists data,
    MarshalJSON Byte.byte TriggerType (fun e => e) sampleMarshalExecution
      sampleMarshalAux sampleLog = MOk data /\
    UnmarshalJSON Byte.byte TriggerType TOnPersist sampleUnmarshalExecution
      sampleUnmarshalAux
      {| Container := x00; Executions := [] |} data = (sampleLog, None).
Proof.
  destruct (ApplicationLog_round_trip Byte.byte TriggerType (fun e => e)
              TOnPersist sampleMarshalExecution sampleUnmarshalExecution
              sampleMarshalAux sampleUnmarshalAux sampleLog
              sampleAux_codec sampleExecution_codec) as (_ & _ & Hrt & _).
  eexists. split; [vm_compute; reflexivity|].
  apply Hrt. vm_compute. reflexivity.
Defined.


End AppLog.

(** * Native contract calls: what [native.Call] leaves alone *)
Module NativeFrame.
Import Native.

Section Frame.

Variable Item : Type.
Variable BigInt : Item -> option Z.
Variable DAO : Type.

(** Two tables of handlers. *)
Variable Func Func' :
  MethodAndPrice -> InteropContext Item DAO -> list Item
  -> option (InteropContext Item DAO * Item).

(** X19: whether a native call returns an error, and which, is settled
    before a handler runs: the call returns the same error whatever the
    handlers are.  A call that returns without an error has read version
    zero, has found its method as the first one declared at the current
    offset by the first native with the current script hash, has held
    the required call flags and has stayed within the gas limit; it has
    run the handler of that method once, on the context with the price
    charged and with the version and exactly the declared arguments
    taken off the stack, the first argument from the top. *)
Theorem Call_frame (ic : InteropContext Item DAO) :
  (forall e,
     Call Item BigInt DAO Func ic = CallErr Item DAO e ->
     Call Item BigInt DAO Func' ic = CallErr Item DAO e) /\
  (forall ic',
     Call Item BigInt DAO Func ic = CallOk Item DAO ic' ->
     exists c m v z args rest ic0 ic1 result,
       estack Item (context Item (vm Item DAO ic)) = v :: args ++ rest /\
       BigInt v = Some z /\ toInt64 z = 0 /\
       firstWith
         (fun c => Hash c = scriptHash Item (context Item (vm Item DAO ic)))
         (Natives Item DAO ic) c /\
       firstWith
         (fun m => Offset m = IP Item (context Item (vm Item DAO ic)))
         (Methods c) m /\
       Z.land (callFlags Item (context Item (vm Item DAO ic))) (RequiredFlags m)
       = RequiredFlags m /\
       (GasLimit Item (vm Item DAO ic) < 0 \/
        gasConsumed Item (vm Item DAO ic) + Price m
        <= GasLimit Item (vm Item DAO ic)) /\
       length args = length (Parameters m) /\
       Func m ic0 args = Some (ic1, result) /\
       estack Item (context Item (vm Item DAO ic0)) = rest /\
       gasConsumed Item (vm Item DAO ic0)
       = gasConsumed Item (vm Item DAO ic) + Price m /\
       GasLimit Item (vm Item DAO ic0) = GasLimit Item (vm Item DAO ic) /\
       IP Item (context Item (vm Item DAO ic0))
       = IP Item (context Item (vm Item DAO ic)) /\
       callFlags Item (context Item (vm Item DAO ic0))
       = callFlags Item (context Item (vm Item DAO ic)) /\
       scriptHash Item (context Item (vm Item DAO ic0))
       = scriptHash Item (context Item (vm Item DAO ic)) /\
       istack Item (vm Item DAO ic0) = istack Item (vm Item DAO ic) /\
       Natives Item DAO ic0 = Natives Item DAO ic /\
       dao Item DAO ic0 = dao Item DAO ic /\
       estack Item (context Item (vm Item DAO ic'))
       = match ReturnType m with
         | VoidType => estack Item (context Item (vm Item DAO ic1))
         | _ => result :: estack Item (context Item (vm Item DAO ic1))
         end).
Proof.
  split.
  - intros e H.
    destruct (Call_error_cases Item BigInt DAO Func ic e H)
      as (v & st & z & Hst & Hv & Hcases).
    unfold Call. rewrite Hst, Hv.
    destruct Hcases
      as [[-> Hz]|[Hz [[-> Hn]|(c & Hc & [[-> Hm]|(m & Hm & [[-> Hf]|(-> & Hf & Hg)])])]]].
    + apply Z.eqb_neq in Hz. now rewrite Hz.
    + rewrite Hz. simpl. now rewrite Hn.
    + rewrite Hz. simpl. now rewrite Hc, Hm.
    + rewrite Hz. simpl. now rewrite Hc, Hm, Hf.
    + rewrite Hz. simpl. rewrite Hc, Hm, Hf. unfold AddGas. simpl.
      destruct (Z.ltb_spec (GasLimit Item (vm Item DAO ic)) 0); [lia|].
      destruct (Z.leb_spec (gasConsumed Item (vm Item DAO ic) + Price m)
                  (GasLimit Item (vm Item DAO ic))); [lia|reflexivity].
  - unfold Call. intros ic' Hc.
    destruct (estack Item (context Item (vm Item DAO ic))) as [|v st1] eqn:Est;
      [discriminate|].
    destruct (BigInt v) as [z|] eqn:Hv; [|discriminate].
    destruct (Z.eqb_spec (toInt64 z) 0) as [Hz|Hz]; [|discriminate].
    simpl in Hc.
    destruct (findNative Item DAO ic) as [c|] eqn:En; [|discriminate].
    destruct (GetMethodByOffset c _) as [m|] eqn:Em; [|discriminate].
    destruct (Has _ _) eqn:Ef; [|discriminate]. simpl in Hc.
    unfold AddGas in Hc.
    destruct ((GasLimit Item (vm Item DAO ic) <? 0)
              || (gasConsumed Item (vm Item DAO ic) + Price m
                  <=? GasLimit Item (vm Item DAO ic))) eqn:Eg; [|discriminate].
    simpl in Hc.
    destruct (popArgs Item _ st1) as [[args st2]|] eqn:Ep; [|discriminate].
    apply popArgs_inv in Ep as [-> Hlen].
    match type of Hc with
    | match Func m ?i args with _ => _ end = _ =>
        destruct (Func m i args) as [[ic1 result]|] eqn:Eh; [|discriminate];
        exists c, m, v, z, args, st2, i, ic1, result
    end.
    split; [reflexivity|]. split; [exact Hv|]. split; [exact Hz|].
    split.
    { apply (find_some_firstWith _ _ _ _ (fun y => Z.eqb_eq (Hash y) _) En). }
    split.
    { apply (find_some_firstWith _ _ _ _ (fun y => Z.eqb_eq (Offset y) _) Em). }
    split; [now apply Z.eqb_eq|].
    split.
    { apply orb_true_iff in Eg as [Hl|Hl];
        [left; now apply Z.ltb_lt|right; now apply Z.leb_le]. }
    split; [exact Hlen|]. split; [exact Eh|].
    do 9 (split; [reflexivity|]).
    destruct (ReturnType m); inversion Hc; reflexivity.
Qed.

End Frame.

(** The sample native asked for the sum of 1 and 2: the handler has run
    on the stack that holds the caller's item only, with the price of
    ten charged. *)
Lemma Call_frame_witness :
  exists ic0 ic1,
    sampleFunc sampleAdd ic0 [1; 2] = Some (ic1, 3) /\
    estack Z (context Z (vm Z Z ic0)) = [42] /\
    gasConsumed Z (vm Z Z ic0) = 10.
Proof.
  destruct (Call_frame Z Some Z sampleFunc sampleFunc (sampleContext 0))
    as [_ H].
  destruct (H _ eq_refl)
    as (c & m & v & z & args & rest & ic0 & ic1 & result & Hst & _ & _ & Hc & Hm
        & _ & _ & Hlen & Hf & Hrest & Hgas & _).
  assert (Hc' : c = sampleNative).
  { destruct Hc as (pre & post & Hl & _ & Hpre).
    destruct pre as [|a pre]; simpl in Hl.
    - now inversion Hl.
    - inversion Hl as [[Ha Hl']]. destruct pre; discriminate. }
  subst c.
  assert (Hm' : m = sampleAdd).
  { destruct Hm as (pre & post & Hl & Ho & Hpre).
    destruct pre as [|a pre]; simpl in Hl.
    - now inversion Hl.
    - exfalso. inversion Hl as [[Ha Hl']]. subst a.
      apply (Hpre sampleAdd); [now left|reflexivity]. }
  subst m. simpl in Hlen, Hst, Hgas.
  destruct args as [|a [|b [|? ?]]]; try discriminate.
  simpl in Hst. injection Hst as Hv Ha Hb Hr.
  rewrite <- Hr in Hrest. rewrite <- Ha, <- Hb in Hf.
  exists ic0, ic1.
  assert (Hres : result = 3).
  { unfold sampleFunc in Hf. simpl in Hf. now inversion Hf. }
  subst result. split; [exact Hf|]. split; [exact Hrest|exact Hgas].
Defined.

End NativeFrame.
